(** * The delta-encoded, LRU-evicted coordinate cache of [database/sql/util.go]

    A shallow embedding of the cache part of the file (package [cache]):
    the codec [packNodes]/[unpackNodes], the backing-store adapter
    [putCoordsPacked]/[getCoordsPacked], the LRU manager
    [getBunch]/[CheckCapacity], and the facade
    [GetCoord]/[FillWay]/[PutCoords]/[Close]; and of the SQL helpers
    [tableExists] and [dropTableIfExists] of the package [sql], run
    against a database that answers each call from what happened on
    the transaction before.

    Conventions of the embedding.
    - An [int64] is a [Z]; additions and subtractions of the code are
      written with their wrap-around ([int64]); [uint32(x)] is [uint32].
    - A Go slice is a list; a nil slice and an empty slice are both [[]]
      (both have length 0 and range over nothing).
    - A run-time panic (index out of range, nil dereference) is the
      [Panic] result; nothing in the file recovers from a panic, so a
      panic propagates to the caller of the operation.
    - The operations are threaded through the cache state sequentially:
      the two mutexes ([mu] and the per-bunch lock) only serialise
      concurrent callers and are not part of the state.
    - The key-value store behind [Cache] is a finite map from keys to
      stored records together with the log of the [Put]s issued;
      [proto.Marshal]/[proto.Unmarshal] are taken as exact inverses, so
      the store holds the [DeltaCoords] message itself, and reads and
      writes of the store do not fail.
    - Functions of the Go standard library are written out by what they
      do: [binary.PutVarint] (zig-zag, base-128 bytes, a panic past the
      end of the buffer), [sort.Sort] (insertion sort), [sort.Search]
      (binary search), and the [container/list] operations on the
      recency list.

    The file has three parts: the embedding of the source, the
    definitions the statements use, and the properties. *)

From stdpp Require Import gmap list fin_maps sorting strings.
From Stdlib Require Import ZArith Lia.

Local Open Scope Z_scope.
Set Warnings "-clear-no-such-hyp".

(** * The embedding of the source *)

(** ** Results of fallible code *)

Inductive panic : Type :=
| IndexOutOfRange
| NilDereference.

Inductive result (A : Type) : Type :=
| Ok (a : A)
| Panic (p : panic).

Arguments Ok {A} a.
Arguments Panic {A} p.

Definition bind {A B : Type} (m : result A) (f : A → result B) : result B :=
  match m with
  | Ok a => f a
  | Panic p => Panic p
  end.

Notation "'do' x <- m ; f" := (bind m (fun x => f))
  (at level 10, x pattern, m at level 100, f at level 200).

(** ** Machine integers *)

Definition int64 (z : Z) : Z := (z + 2 ^ 63) mod 2 ^ 64 - 2 ^ 63.
Definition uint32 (z : Z) : Z := z mod 2 ^ 32.

Definition is_int64 (z : Z) : Prop := - 2 ^ 63 ≤ z < 2 ^ 63.
Definition is_uint32 (z : Z) : Prop := 0 ≤ z < 2 ^ 32.

(** ** Coordinate records *)

(** Modelled from the spec: [binary.CoordToInt] and [binary.IntToCoord]
    (package [goposm/binary], not part of the file). The spec describes a
    deterministic, reversible transform between degrees and a fixed-point
    integer, and compares coordinates under fixed-point equality; a
    coordinate is therefore carried as its fixed-point value.
    [CoordToInt] reads it as the [uint32] the Go function returns and
    [IntToCoord] rebuilds the coordinate from that integer. *)
Definition Coord : Type := Z.
Definition CoordToInt (c : Coord) : Z := uint32 c.
Definition IntToCoord (u : Z) : Coord := u.

(** [element.Node] (package [goposm/element]): the identifier of the
    embedded [OSMElem] and the two coordinates. *)
Record Node : Type := mkNode { Id : Z; Long : Coord; Lat : Coord }.

(** The zero value [element.Node{}]. *)
Definition zeroNode : Node := mkNode 0 0 0.

#[global] Instance Node_eq_dec : EqDecision Node.
Proof. solve_decision. Defined.

(** The protobuf message: three integer sequences. *)
Record DeltaCoords : Type := mkDeltaCoords {
  Ids : list Z;
  Lats : list Z;
  Lons : list Z
}.

#[global] Instance DeltaCoords_eq_dec : EqDecision DeltaCoords.
Proof. solve_decision. Defined.

(** ** The codec *)

(** The loop of [packNodes]: the three last-values are threaded, each
    output element is the difference to the previous record. *)
Fixpoint packNodes_loop (nodes : list Node) (lastId lastLon lastLat : Z)
  : list Z * list Z * list Z :=
  match nodes with
  | [] => ([], [], [])
  | nd :: rest =>
      let lon := CoordToInt (Long nd) in
      let lat := CoordToInt (Lat nd) in
      let '(ids, lons, lats) := packNodes_loop rest (Id nd) lon lat in
      (int64 (Id nd - lastId) :: ids,
       int64 (lon - lastLon) :: lons,
       int64 (lat - lastLat) :: lats)
  end.

Definition packNodes (nodes : list Node) : DeltaCoords :=
  let '(ids, lons, lats) := packNodes_loop nodes 0 0 0 in
  {| Ids := ids; Lats := lats; Lons := lons |}.

(** Indexing a slice: out of range is a panic. *)
Definition index {A : Type} (l : list A) (i : nat) : result A :=
  match l !! i with
  | Some a => Ok a
  | None => Panic IndexOutOfRange
  end.

(** The loop of [unpackNodes] over [i = 0 .. len(Ids)-1]. [ids] is the
    part of [deltaCoords.Ids] from index [i] on. As in the source, [lon]
    is accumulated from [Lats] and [lat] from [Lons]. *)
Fixpoint unpackNodes_loop (ids : list Z) (dLats dLons : list Z) (i : nat)
    (lastId lastLon lastLat : Z) : result (list Node) :=
  match ids with
  | [] => Ok []
  | d :: ids' =>
      let id := int64 (lastId + d) in
      do dlat <- index dLats i;
      let lon := int64 (lastLon + dlat) in
      do dlon <- index dLons i;
      let lat := int64 (lastLat + dlon) in
      let nd := {| Id := id;
                   Long := IntToCoord (uint32 lon);
                   Lat := IntToCoord (uint32 lat) |} in
      do rest <- unpackNodes_loop ids' dLats dLons (S i) id lon lat;
      Ok (nd :: rest)
  end.

(** [nodes] is the buffer to reuse; every element of the result is
    overwritten, so the buffer only saves an allocation. *)
Definition unpackNodes (deltaCoords : DeltaCoords) (nodes : list Node)
  : result (list Node) :=
  unpackNodes_loop (Ids deltaCoords) (Lats deltaCoords) (Lons deltaCoords)
    0%nat 0 0 0.

(** ** Storage keys: [bin.PutVarint] into an 8-byte buffer *)

(** [binary.PutUvarint]: writes [byte(x)|0x80] while [x >= 0x80], then
    [byte(x)]; the write index advances with the recursion on the rest
    of the buffer, and a write past its end is a panic. *)
Fixpoint PutUvarint (buf : list Z) (x : Z) : result (list Z) :=
  match buf with
  | [] => Panic IndexOutOfRange
  | b :: buf' =>
      if 128 <=? x then
        do rest <- PutUvarint buf' (Z.shiftr x 7);
        Ok (Z.lor (x mod 256) 128 :: rest)
      else Ok (x mod 256 :: buf')
  end.

(** [binary.PutVarint]: zig-zag, then [PutUvarint]. *)
Definition PutVarint (buf : list Z) (x : Z) : result (list Z) :=
  let ux := (Z.shiftl (x mod 2 ^ 64) 1) mod 2 ^ 64 in
  let ux := if x <? 0 then 2 ^ 64 - 1 - ux else ux in
  PutUvarint buf ux.

Abbreviation Key := (list Z).

(** [keyBuf := make([]byte, 8); bin.PutVarint(keyBuf, bunchId)]. *)
Definition keyBuf (bunchId : Z) : result Key :=
  PutVarint (replicate 8 0) bunchId.

(** ** Sorting and searching (package [sort]) *)

Definition Less (a b : Node) : bool := Id a <? Id b.

(** One pass of the inner loop of insertion sort: the new element moves
    left past every predecessor it is [Less] than. [before] is the sorted
    prefix in reverse order (its head is the element at [j-1]). *)
Fixpoint sift (x : Node) (before : list Node) : list Node :=
  match before with
  | [] => [x]
  | y :: before' => if Less x y then y :: sift x before' else x :: before
  end.

(** [sort.Sort(Nodes(s))], as the insertion sort it runs on short
    slices. The theorems below only use that the result is a permutation
    of the input sorted by [Id]. *)
Definition sort_Sort (s : list Node) : list Node :=
  rev (fold_left (fun before x => sift x before) s []).

(** [sort.Search(n, f)]: binary search for the least index with [f]
    true. The interval shrinks at every round, so [n] rounds suffice. *)
Fixpoint Search_loop (rounds : nat) (f : nat → bool) (i j : nat) : nat :=
  match rounds with
  | O => i
  | S rounds' =>
      if (i <? j)%nat then
        let h := ((i + j) / 2)%nat in
        if negb (f h) then Search_loop rounds' f (h + 1)%nat j
        else Search_loop rounds' f i h
      else i
  end.

Definition Search (n : nat) (f : nat → bool) : nat := Search_loop n f 0%nat n.

(** ** The cache state *)

Record CoordsBunch : Type := mkBunch {
  bunch_id : Z;
  coords : list Node;
  needsWrite : bool
}.

(** The embedded [Cache]: the store contents, the log of the [Put]s
    issued (most recent first) and whether the store is open. *)
Record Cache : Type := mkCache {
  db : gmap Key DeltaCoords;
  puts : list (Key * DeltaCoords);
  opened : bool
}.

(** [lruList] holds the bunch ids, front first; the [elem] of a resident
    bunch is the list element holding its id. [freeNodes] is a stack
    whose top is the head of the list. *)
Record DeltaCoordsCache : Type := mkDCC {
  cache : Cache;
  lruList : list Z;
  table : gmap Z CoordsBunch;
  freeNodes : list (list Node);
  capacity : Z
}.

Definition db_Put (key : Key) (value : DeltaCoords) (c : Cache) : Cache :=
  {| db := <[key := value]> (db c);
     puts := (key, value) :: puts c;
     opened := opened c |}.

Definition Cache_Close (c : Cache) : Cache :=
  {| db := db c; puts := puts c; opened := false |}.

Definition set_cache (c : Cache) (self : DeltaCoordsCache) : DeltaCoordsCache :=
  {| cache := c; lruList := lruList self; table := table self;
     freeNodes := freeNodes self; capacity := capacity self |}.

Definition set_table (t : gmap Z CoordsBunch) (self : DeltaCoordsCache)
  : DeltaCoordsCache :=
  {| cache := cache self; lruList := lruList self; table := t;
     freeNodes := freeNodes self; capacity := capacity self |}.

Definition set_lruList (l : list Z) (self : DeltaCoordsCache) : DeltaCoordsCache :=
  {| cache := cache self; lruList := l; table := table self;
     freeNodes := freeNodes self; capacity := capacity self |}.

Definition set_freeNodes (f : list (list Node)) (self : DeltaCoordsCache)
  : DeltaCoordsCache :=
  {| cache := cache self; lruList := lruList self; table := table self;
     freeNodes := f; capacity := capacity self |}.

(** [NewDeltaCoordsCache] over an opened store. *)
Definition NewDeltaCoordsCache (store : gmap Key DeltaCoords) : DeltaCoordsCache :=
  {| cache := {| db := store; puts := []; opened := true |};
     lruList := [];
     table := ∅;
     freeNodes := [];
     capacity := 1024 * 8 |}.

(** ** The backing-store adapter *)

Definition putCoordsPacked (bunchId : Z) (nodes : list Node)
    (p : DeltaCoordsCache) : result DeltaCoordsCache :=
  match nodes with
  | [] => Ok p
  | _ :: _ =>
      do key <- keyBuf bunchId;
      Ok (set_cache (db_Put key (packNodes nodes) (cache p)) p)
  end.

Definition getCoordsPacked (bunchId : Z) (nodes : list Node)
    (p : DeltaCoordsCache) : result (list Node) :=
  do key <- keyBuf bunchId;
  match db (cache p) !! key with
  | None => Ok []
  | Some deltaCoords => unpackNodes deltaCoords nodes
  end.

(** ** The LRU manager *)

Definition getBunchId (nodeId : Z) : Z := nodeId ÷ 64.

(** [lruList.MoveToFront(bunch.elem)]; a list that does not hold the
    element is left as it is. *)
Definition MoveToFront (bunchId : Z) (l : list Z) : list Z :=
  if decide (bunchId ∈ l) then bunchId :: filter (λ b, b ≠ bunchId) l else l.

(** One round of the loop of [CheckCapacity]: [bunchId] is the back
    element of [lruList] and [back'] the rest of the list, read from its
    back. [Remove] takes the element off the list; the table entry of an
    id that is not resident is nil and is dereferenced by the source. *)
Definition CheckCapacity_body (bunchId : Z) (back' : list Z)
    (self : DeltaCoordsCache) : result DeltaCoordsCache :=
  let self := set_lruList (rev back') self in
  match table self !! bunchId with
  | None => Panic NilDereference
  | Some bunch =>
      do self <- (if needsWrite bunch
                  then putCoordsPacked bunchId (coords bunch) self
                  else Ok self);
      let self := set_freeNodes (coords bunch :: freeNodes self) self in
      Ok (set_table (delete bunchId (table self)) self)
  end.

(** The loop of [CheckCapacity]. Every round removes the back element of
    [lruList], so the loop is a recursion on the list read from its
    back: [back] is [lruList] reversed. [Back] of an empty list is nil,
    which [Remove] dereferences. *)
Fixpoint CheckCapacity_loop (back : list Z) (self : DeltaCoordsCache)
  : result DeltaCoordsCache :=
  if capacity self <? Z.of_nat (size (table self)) then
    match back with
    | [] => Panic NilDereference
    | bunchId :: back' =>
        do self <- CheckCapacity_body bunchId back' self;
        CheckCapacity_loop back' self
    end
  else Ok self.

Definition CheckCapacity (self : DeltaCoordsCache) : result DeltaCoordsCache :=
  CheckCapacity_loop (rev (lruList self)) self.

(** [getBunch] returns the bunch together with the new state. The bunch
    returned is the table entry of [bunchId], unless [CheckCapacity] has
    just evicted it. *)
Definition getBunch (bunchId : Z) (self : DeltaCoordsCache)
  : result (DeltaCoordsCache * CoordsBunch) :=
  match table self !! bunchId with
  | None =>
      let self := set_lruList (bunchId :: lruList self) self in
      let '(nodes, self) :=
        match freeNodes self with
        | buf :: free' => (buf, set_freeNodes free' self)
        | [] => ([], self)
        end in
      do nodes <- getCoordsPacked bunchId nodes self;
      let bunch := {| bunch_id := bunchId; coords := nodes; needsWrite := false |} in
      let self := set_table (<[bunchId := bunch]> (table self)) self in
      do self <- CheckCapacity self;
      Ok (self, bunch)
  | Some bunch =>
      let self := set_lruList (MoveToFront bunchId (lruList self)) self in
      do self <- CheckCapacity self;
      Ok (self, bunch)
  end.

(** ** The facade *)

Definition GetCoord (id : Z) (self : DeltaCoordsCache)
  : result (DeltaCoordsCache * (Node * bool)) :=
  let bunchId := getBunchId id in
  do (self, bunch) <- getBunch bunchId self;
  let idx := Search (length (coords bunch))
               (λ i, Id (nth i (coords bunch) zeroNode) >=? id) in
  match coords bunch !! idx with
  | Some nd => if Id nd =? id then Ok (self, (nd, true))
               else Ok (self, (zeroNode, false))
  | None => Ok (self, (zeroNode, false))
  end.

(** [element.Way]: the reference ids and the resolved nodes. *)
Record Way : Type := mkWay { Refs : list Z; Nodes : list Node }.

(** The loop of [FillWay] from index [i] on. *)
Fixpoint FillWay_loop (refs : list Z) (i : nat) (nodes : list Node)
    (self : DeltaCoordsCache) : result (DeltaCoordsCache * list Node * bool) :=
  match refs with
  | [] => Ok (self, nodes, true)
  | id :: refs' =>
      do (self, (nd, ok)) <- GetCoord id self;
      let nodes := <[i := nd]> nodes in
      if ok then FillWay_loop refs' (S i) nodes self
      else Ok (self, nodes, false)
  end.

(** [way] is a pointer: [None] is the nil way, and the way is returned
    as the call leaves it. *)
Definition FillWay (way : option Way) (self : DeltaCoordsCache)
  : result (DeltaCoordsCache * option Way * bool) :=
  match way with
  | None => Ok (self, None, false)
  | Some w =>
      let nodes := replicate (length (Refs w)) zeroNode in
      do (self, nodes, ok) <- FillWay_loop (Refs w) 0%nat nodes self;
      Ok (self, Some {| Refs := Refs w; Nodes := nodes |}, ok)
  end.

(** The body shared by the two places of [PutCoords] that store a run:
    acquire the bunch, append, sort, mark dirty. The bunch is an object
    shared with the table, so the table entry changes when the bunch is
    still resident. *)
Definition putRun (bunchId : Z) (run : list Node) (self : DeltaCoordsCache)
  : result DeltaCoordsCache :=
  do (self, bunch) <- getBunch bunchId self;
  let bunch := {| bunch_id := bunch_id bunch;
                  coords := sort_Sort (coords bunch ++ run);
                  needsWrite := true |} in
  Ok (set_table (alter (λ _, bunch) bunchId (table self)) self).

(** [nodes[start:i]]. *)
Definition slice {A : Type} (l : list A) (start i : nat) : list A :=
  drop start (take i l).

(** The loop of [PutCoords] over [rest], the part of [nodes] from index
    [i] on. *)
Fixpoint PutCoords_loop (nodes rest : list Node) (i start : nat)
    (currentBunchId : Z) (self : DeltaCoordsCache)
  : result (DeltaCoordsCache * nat * Z) :=
  match rest with
  | [] => Ok (self, start, currentBunchId)
  | node :: rest' =>
      let bunchId := getBunchId (Id node) in
      if decide (bunchId ≠ currentBunchId) then
        do self <- putRun currentBunchId (slice nodes start i) self;
        PutCoords_loop nodes rest' (S i) i bunchId self
      else PutCoords_loop nodes rest' (S i) start currentBunchId self
  end.

Definition PutCoords (nodes : list Node) (self : DeltaCoordsCache)
  : result DeltaCoordsCache :=
  do n0 <- index nodes 0%nat;
  let currentBunchId := getBunchId (Id n0) in
  do (self, start, currentBunchId) <-
    PutCoords_loop nodes nodes 0%nat 0%nat currentBunchId self;
  putRun currentBunchId (drop start nodes) self.

(** The loop of [Close] over the entries of the table, in the order the
    map hands them out. *)
Fixpoint Close_loop (entries : list (Z * CoordsBunch)) (self : DeltaCoordsCache)
  : result DeltaCoordsCache :=
  match entries with
  | [] => Ok self
  | (bunchId, bunch) :: entries' =>
      do self <- (if needsWrite bunch
                  then putCoordsPacked bunchId (coords bunch) self
                  else Ok self);
      Close_loop entries' self
  end.

Definition Close (self : DeltaCoordsCache) : result DeltaCoordsCache :=
  do self <- Close_loop (map_to_list (table self)) self;
  Ok (set_cache (Cache_Close (cache self)) self).

(** ** The SQL helpers (package [sql]) *)

(** Go's [error] values: an error of the database driver, or the
    [SQLError] of this package, which holds a statement and the error it
    wraps. *)
Inductive error : Type :=
| DriverError (msg : string)
| SQLError (query : string) (originalError : error).

(** The interface [QueryBuilder], as far as [tableExists] and
    [dropTableIfExists] call it. *)
Class QueryBuilder : Type := {
  TableExistsSQL : string → string → string;
  GeometryIndexesSQL : string → string → string;
  DisableGeometryIndexSQL : string → string → string → string;
  DropGeometryIndexSQL : string → string → string → string;
  GeometryColumnExistsSQL : string → string → string;
  DropGeometryColumnSQL : string → string → string;
  DropTableSQL : string → string → string
}.

(** What happens on a transaction: [tx.QueryRow] with the [Scan] of its
    row, [tx.Query], [rows.Next] answering true with the [rows.Scan]
    that follows, [rows.Next] answering false (which closes the cursor),
    and [tx.Exec]; [ok] tells whether the call returned without
    error. *)
Inductive event : Type :=
| EvQueryRow (query : string) (ok : bool)
| EvQuery (query : string) (ok : bool)
| EvScan (ok : bool)
| EvEnd
| EvExec (query : string) (ok : bool).

(** The transaction [*sql.Tx]: the events so far, in order. *)
Definition Tx : Type := list event.

(** The database behind the transaction: what it answers to a call,
    given what happened on the transaction before. [query_rows] answers
    with the rows of the cursor, each with the outcome of its [Scan]. *)
Record Database : Type := mkDatabase {
  scan_bool : Tx → string → error + bool;
  query_rows : Tx → string → error + list (error + string);
  exec_stmt : Tx → string → option error
}.

(** Code on a transaction that returns a value or an error. *)
Definition io (A : Type) : Type := Tx → Tx * (error + A).

Definition io_ret {A : Type} (a : A) : io A := λ tx, (tx, inr a).

(** [v, err := m; if err != nil { return err }; f v]. *)
Definition io_bind {A B : Type} (m : io A) (f : A → io B) : io B :=
  λ tx, match m tx with
        | (tx, inl err) => (tx, inl err)
        | (tx, inr a) => f a tx
        end.

Notation "'call' x <~ m ; f" := (io_bind m (fun x => f))
  (at level 10, x name, m at level 100, f at level 200, only parsing).

Definition is_ok {A B : Type} (r : A + B) : bool :=
  match r with inl _ => false | inr _ => true end.

(** [if err != nil { return &SQLError{sqlStmt, err} }]. *)
Definition wrap {A : Type} (sqlStmt : string) (m : io A) : io A :=
  λ tx, match m tx with
        | (tx, inl err) => (tx, inl (SQLError sqlStmt err))
        | (tx, inr a) => (tx, inr a)
        end.

Section sql.
Context {qb : QueryBuilder} (database : Database).

(** [tx.QueryRow(query).Scan(&exists)]. *)
Definition QueryRow_Scan (query : string) : io bool :=
  λ tx, let r := scan_bool database tx query in
        (tx ++ [EvQueryRow query (is_ok r)], r).

(** [tx.Query(query)]. *)
Definition Query (query : string) : io (list (error + string)) :=
  λ tx, let r := query_rows database tx query in
        (tx ++ [EvQuery query (is_ok r)], r).

(** [tx.Exec(query)]. *)
Definition Exec (query : string) : io unit :=
  λ tx, match exec_stmt database tx query with
        | Some err => (tx ++ [EvExec query false], inl err)
        | None => (tx ++ [EvExec query true], inr tt)
        end.

Definition tableExists (schema table : string) (tx : Tx)
  : Tx * (bool * option error) :=
  match QueryRow_Scan (TableExistsSQL schema table) tx with
  | (tx, inl err) => (tx, (false, Some err))
  | (tx, inr exists_) => (tx, (exists_, None))
  end.

(** A call of a function that returns a value and an error, with the
    check of the error that follows it. *)
Definition checked {A : Type} (m : Tx → Tx * (A * option error)) : io A :=
  λ tx, match m tx with
        | (tx, (_, Some err)) => (tx, inl err)
        | (tx, (a, None)) => (tx, inr a)
        end.

(** The loop [for rows.Next()] of [dropTableIfExists] over the rows
    still to be read. *)
Fixpoint scanIndexes (sqlStmt : string) (rows : list (error + string))
    (indexes : list string) : io (list string) :=
  match rows with
  | [] => λ tx, (tx ++ [EvEnd], inr indexes)
  | inl err :: _ => λ tx, (tx ++ [EvScan false], inl (SQLError sqlStmt err))
  | inr index :: rows' =>
      λ tx, scanIndexes sqlStmt rows' (indexes ++ [index]) (tx ++ [EvScan true])
  end.

(** The loop [for _, index := range indexes]. *)
Fixpoint dropIndexes (schema table : string) (indexes : list string) : io unit :=
  match indexes with
  | [] => io_ret tt
  | index :: indexes' =>
      let sqlStmt := DisableGeometryIndexSQL schema table index in
      call _ <~ wrap sqlStmt (Exec sqlStmt);
      let sqlStmt := DropGeometryIndexSQL schema table index in
      call _ <~ wrap sqlStmt (Exec sqlStmt);
      dropIndexes schema table indexes'
  end.

(** The result is Go's [error]: [inr tt] is nil. *)
Definition dropTableIfExists (schema table : string) : io unit :=
  call exists_ <~ checked (tableExists schema table);
  if negb exists_ then io_ret tt else
  let sqlStmt := GeometryIndexesSQL schema table in
  call _ <~ (if decide (sqlStmt ≠ EmptyString) then
               call rows <~ wrap sqlStmt (Query sqlStmt);
               call indexes <~ scanIndexes sqlStmt rows [];
               dropIndexes schema table indexes
             else io_ret tt);
  call exists_ <~ QueryRow_Scan (GeometryColumnExistsSQL schema table);
  call _ <~ (if exists_ : bool then
               let sqlStmt := DropGeometryColumnSQL schema table in
               wrap sqlStmt (Exec sqlStmt)
             else io_ret tt);
  let sqlStmt := DropTableSQL schema table in
  wrap sqlStmt (Exec sqlStmt).

End sql.

(** * Definitions of the specification *)

(** ** The codec *)

(** [unpackNodes_loop] reads the three sequences in step: the same loop
    on the parts of [Lats] and [Lons] from index [i] on. *)
Fixpoint unpack3 (ids dLats dLons : list Z) (lastId lastLon lastLat : Z)
  : result (list Node) :=
  match ids with
  | [] => Ok []
  | d :: ids' =>
      match dLats, dLons with
      | dlat :: dLats', dlon :: dLons' =>
          let id := int64 (lastId + d) in
          let lon := int64 (lastLon + dlat) in
          let lat := int64 (lastLat + dlon) in
          do rest <- unpack3 ids' dLats' dLons' id lon lat;
          Ok ({| Id := id; Long := IntToCoord (uint32 lon);
                 Lat := IntToCoord (uint32 lat) |} :: rest)
      | _, _ => Panic IndexOutOfRange
      end
  end.

(** What a decoded record is, next to the record that was encoded: the
    identifier, and the two fixed-point coordinates exchanged. *)
Definition swapLL (nd : Node) : Node :=
  {| Id := Id nd; Long := CoordToInt (Lat nd); Lat := CoordToInt (Long nd) |}.

(** ** Storage keys *)

(** The zig-zag value of [PutVarint]. *)
Definition zigzag (x : Z) : Z := if x <? 0 then - 2 * x - 1 else 2 * x.

(** The bunch ids whose key fits the 8-byte buffer. *)
Definition key_range (bunchId : Z) : Prop := - 2 ^ 55 ≤ bunchId < 2 ^ 55.

(** A bunch id that is an [int64] and has a storage key. *)
Definition key_ok (bunchId : Z) : Prop :=
  is_int64 bunchId ∧ ∃ key, keyBuf bunchId = Ok key.

(** ** Sorting and searching *)

(** A sequence of identifiers in ascending order. *)
Definition sortedIds (ids : list Z) : Prop := StronglySorted Z.le ids.

(** The sorted prefix of insertion sort, held in reverse. *)
Definition descending (l : list Node) : Prop :=
  StronglySorted (λ a b, Id b ≤ Id a) l.

(** The search of [GetCoord] in the sequence of the bunch. *)
Definition findCoord (id : Z) (coords : list Node) : Node * bool :=
  let idx := Search (length coords) (λ i, Id (nth i coords zeroNode) >=? id) in
  match coords !! idx with
  | Some nd => if Id nd =? id then (nd, true) else (zeroNode, false)
  | None => (zeroNode, false)
  end.

(** ** The manager *)

(** Acquiring the bunches [bs] one after the other, each released before
    the next is acquired. *)
Fixpoint acquire (bs : list Z) (self : DeltaCoordsCache) : result DeltaCoordsCache :=
  match bs with
  | [] => Ok self
  | b :: bs' => do (self, _) <- getBunch b self; acquire bs' self
  end.

(** The recency list and the table name the same bunches, each once. *)
Definition lru_ok (self : DeltaCoordsCache) : Prop :=
  NoDup (lruList self) ∧ ∀ b, b ∈ lruList self ↔ is_Some (table self !! b).

(** Every resident bunch has a storage key. *)
Definition keys_ok (self : DeltaCoordsCache) : Prop :=
  ∀ b bunch, table self !! b = Some bunch → key_ok b.

(** Every stored record has at least as many [Lats] and [Lons] as
    [Ids]. *)
Definition store_ok (c : Cache) : Prop :=
  ∀ key dc, db c !! key = Some dc →
    (length (Ids dc) ≤ length (Lats dc) ∧ length (Ids dc) ≤ length (Lons dc))%nat.

(** The state the manager needs to run without panic: the recency list
    matches the table, resident bunches have storage keys, stored
    records can be decoded, and the capacity is not negative. *)
Definition mgr_ok (self : DeltaCoordsCache) : Prop :=
  lru_ok self ∧ keys_ok self ∧ store_ok (cache self) ∧ 0 ≤ capacity self.

(** What evicting or closing does to the store for one bunch: a dirty
    bunch with records is written under its key. *)
Definition flush (bunchId : Z) (bunch : CoordsBunch) (c : Cache) : result Cache :=
  if needsWrite bunch then
    match coords bunch with
    | [] => Ok c
    | _ :: _ => do key <- keyBuf bunchId;
                Ok (db_Put key (packNodes (coords bunch)) c)
    end
  else Ok c.

(** The store after flushing the bunches [entries] in order. *)
Fixpoint flushAll (entries : list (Z * CoordsBunch)) (c : Cache) : result Cache :=
  match entries with
  | [] => Ok c
  | (bunchId, bunch) :: entries' =>
      do c <- flush bunchId bunch c; flushAll entries' c
  end.

(** ** Well-formed states *)

(** A resident bunch marked dirty holds records: [PutCoords], the only
    place that sets [needsWrite], has just appended a non-empty run. *)
Definition dirty_ok (self : DeltaCoordsCache) : Prop :=
  ∀ b bunch, table self !! b = Some bunch →
             needsWrite bunch = true → coords bunch ≠ [].

(** A resident bunch that is not dirty holds what the store holds. *)
Definition clean_ok (self : DeltaCoordsCache) : Prop :=
  ∀ b bunch, table self !! b = Some bunch → needsWrite bunch = false →
             getCoordsPacked b [] self = Ok (coords bunch).

(** The identifiers of resident records are [int64] values. *)
Definition ints_ok (self : DeltaCoordsCache) : Prop :=
  ∀ b bunch, table self !! b = Some bunch →
             Forall (λ nd, is_int64 (Id nd)) (coords bunch).

(** The part of the well-formedness of a state that is about the
    bunches and the store. *)
Definition data_ok (self : DeltaCoordsCache) : Prop :=
  keys_ok self ∧ store_ok (cache self) ∧ dirty_ok self ∧ clean_ok self
  ∧ ints_ok self.

(** Well-formed states. A cache with nothing resident over a store
    whose records can be decoded is well-formed ([WF_emptyCache]), and
    [getBunch], [GetCoord] and [PutCoords] take well-formed states to
    well-formed states. *)
Definition WF (self : DeltaCoordsCache) : Prop :=
  lru_ok self ∧ data_ok self ∧ 0 ≤ capacity self.

(** ** What the cache presents *)

Definition rmap {A B : Type} (f : A → B) (m : result A) : result B :=
  do a <- m; Ok (f a).

(** The records of bunch [b] as the cache presents them: the sequence
    of the resident bunch, or else what loading the bunch returns. *)
Definition stored (self : DeltaCoordsCache) (b : Z) : result (list Node) :=
  match table self !! b with
  | Some bunch => Ok (coords bunch)
  | None => getCoordsPacked b [] self
  end.

Definition storedIds (self : DeltaCoordsCache) (b : Z) : result (list Z) :=
  rmap (fmap Id) (stored self b).

(** The cache presents a record with identifier [id]. *)
Definition holds (self : DeltaCoordsCache) (id : Z) : Prop :=
  ∃ ids, storedIds self (getBunchId id) = Ok ids ∧ id ∈ ids.

(** None of the identifiers of [nodes] is presented by the cache. *)
Definition unseen (self : DeltaCoordsCache) (nodes : list Node) : Prop :=
  ∀ nd ids, nd ∈ nodes → storedIds self (getBunchId (Id nd)) = Ok ids →
            Id nd ∉ ids.

(** The invariant of the bunches, stated on what the cache presents for
    every bunch, resident or persisted: the identifiers ascend, and no
    identifier occurs twice. *)
Definition bunches_sorted (self : DeltaCoordsCache) : Prop :=
  ∀ b ids, is_int64 b → storedIds self b = Ok ids → sortedIds ids.

Definition bunches_unique (self : DeltaCoordsCache) : Prop :=
  ∀ b ids, is_int64 b → storedIds self b = Ok ids → NoDup ids.

(** Every record the cache presents for a bunch belongs to it. *)
Definition bunches_partition (self : DeltaCoordsCache) : Prop :=
  ∀ b ids, is_int64 b → storedIds self b = Ok ids →
           Forall (λ id, getBunchId id = b) ids.

(** ** [FillWay] *)

(** Resolving the references in order through [GetCoord], every one of
    them found: the records found, in the order of the references, and
    the state the last lookup leaves. *)
Inductive resolves : DeltaCoordsCache → list Z → list Node → DeltaCoordsCache → Prop :=
| resolves_nil self : resolves self [] [] self
| resolves_cons self id refs nd self1 nds self2 :
    GetCoord id self = Ok (self1, (nd, true)) →
    resolves self1 refs nds self2 →
    resolves self (id :: refs) (nd :: nds) self2.

(** Resolving the references in order through [GetCoord] reaches a
    reference that is not found. *)
Inductive misses : DeltaCoordsCache → list Z → Prop :=
| misses_here self id refs self1 nd :
    GetCoord id self = Ok (self1, (nd, false)) →
    misses self (id :: refs)
| misses_later self id refs self1 nd :
    GetCoord id self = Ok (self1, (nd, true)) →
    misses self1 refs →
    misses self (id :: refs).

(** ** [PutCoords] *)

(** The runs [PutCoords] cuts its input into: [acc] is the run being
    collected for bunch [cur], [rest] the input still to be read. *)
Fixpoint runs_from (cur : Z) (acc rest : list Node) : list (Z * list Node) :=
  match rest with
  | [] => [(cur, acc)]
  | nd :: rest' =>
      if decide (getBunchId (Id nd) ≠ cur)
      then (cur, acc) :: runs_from (getBunchId (Id nd)) [nd] rest'
      else runs_from cur (acc ++ [nd]) rest'
  end.

Definition runs (nodes : list Node) : list (Z * list Node) :=
  match nodes with
  | [] => []
  | n0 :: rest => runs_from (getBunchId (Id n0)) [n0] rest
  end.

Fixpoint putRuns (rs : list (Z * list Node)) (self : DeltaCoordsCache)
  : result DeltaCoordsCache :=
  match rs with
  | [] => Ok self
  | (b, run) :: rs' => do self <- putRun b run self; putRuns rs' self
  end.

(** A run as [PutCoords] hands it to a bunch: not empty, and made of
    records of that bunch. *)
Definition run_ok (r : Z * list Node) : Prop :=
  r.2 ≠ [] ∧ is_int64 r.1
  ∧ Forall (λ nd, is_int64 (Id nd) ∧ getBunchId (Id nd) = r.1) r.2.

(** ** States of the concrete runs *)

Definition fresh : DeltaCoordsCache := NewDeltaCoordsCache ∅.

(** A cache over [store] with nothing resident and the given capacity
    ([NewDeltaCoordsCache] with another value of the [capacity] field). *)
Definition emptyCache (store : gmap Key DeltaCoords) (cap : Z) : DeltaCoordsCache :=
  {| cache := {| db := store; puts := []; opened := true |};
     lruList := []; table := ∅; freeNodes := []; capacity := cap |}.

(** Three records in the bunches 0, 1 and 2 of a cache over the empty
    store. *)
Definition demo : DeltaCoordsCache :=
  match PutCoords [mkNode 1 10 20; mkNode 65 11 21; mkNode 130 12 22] fresh with
  | Ok self => self
  | Panic _ => fresh
  end.

(** [demo] with the capacity lowered to two bunches: one bunch too many
    is resident. *)
Definition demo_over : DeltaCoordsCache :=
  {| cache := cache demo; lruList := lruList demo; table := table demo;
     freeNodes := freeNodes demo; capacity := 2 |}.

(** ** The SQL helpers *)

(** The call of the event returned an error. *)
Definition failed (ev : event) : bool :=
  match ev with
  | EvQueryRow _ ok | EvQuery _ ok | EvScan ok | EvExec _ ok => negb ok
  | EvEnd => false
  end.

(** Events none of which returned an error. *)
Definition clean (evs : list event) : Prop :=
  Forall (λ ev, failed ev = false) evs.

(** The error [e] is the error of the call [ev], made on the
    transaction [tx]: the error the database answered with, as it is
    for the [Scan] of [QueryRow], and wrapped into an [SQLError] with
    the statement of the call for [Query] and [Exec]; an error of the
    [Scan] of a row is wrapped with [idxStmt], the statement of the
    cursor. *)
Definition blame (database : Database) (idxStmt : string) (tx : Tx)
    (ev : event) (e : error) : Prop :=
  match ev with
  | EvQueryRow q false => scan_bool database tx q = inl e
  | EvQuery q false =>
      ∃ e', query_rows database tx q = inl e' ∧ e = SQLError q e'
  | EvExec q false =>
      ∃ e', exec_stmt database tx q = Some e' ∧ e = SQLError q e'
  | EvScan false => ∃ e', e = SQLError idxStmt e'
  | _ => False
  end.

(** Code on a transaction that stops at the first call that fails and
    returns the error of that call. *)
Definition fail_fast (database : Database) (idxStmt : string) {A : Type}
    (m : io A) : Prop :=
  ∀ tx, ∃ evs,
    (m tx).1 = tx ++ evs
    ∧ match (m tx).2 with
      | inr _ => clean evs
      | inl e => ∃ pre ev, evs = pre ++ [ev] ∧ clean pre
                           ∧ blame database idxStmt (tx ++ pre) ev e
      end.

(** Whether a cursor is open: [Query] that returns rows opens one, and
    [rows.Next] answering false closes it. *)
Definition cursor_step (open : bool) (ev : event) : bool :=
  match ev with
  | EvQuery _ true => true
  | EvEnd => false
  | _ => open
  end.

Definition cursor (open : bool) (evs : list event) : bool :=
  fold_left cursor_step evs open.

(** No statement is executed while a cursor is open. *)
Fixpoint quiet (open : bool) (evs : list event) : bool :=
  match evs with
  | [] => true
  | ev :: evs' =>
      match ev with EvExec _ _ => negb open | _ => true end
      && quiet (cursor_step open ev) evs'
  end.

(** Code on a transaction that executes no statement while a cursor is
    open, and leaves a cursor open only when it returns the error of
    the [Scan] of a row. *)
Definition cursor_safe {A : Type} (m : io A) : Prop :=
  ∀ tx, ∃ evs,
    (m tx).1 = tx ++ evs
    ∧ quiet false evs = true
    ∧ (cursor false evs = true →
       is_ok (m tx).2 = false ∧ ∃ pre, evs = pre ++ [EvScan false]).



(** A query builder and two databases for the concrete runs: one that
    answers every call without error, with two indexes, and one whose
    second index row cannot be scanned. *)
Definition demo_qb : QueryBuilder :=
  {| TableExistsSQL := λ schema table, "EXISTS " +:+ schema +:+ "." +:+ table;
     GeometryIndexesSQL := λ schema table, "INDEXES " +:+ schema +:+ "." +:+ table;
     DisableGeometryIndexSQL := λ schema table index, "DISABLE " +:+ index;
     DropGeometryIndexSQL := λ schema table index, "DROP INDEX " +:+ index;
     GeometryColumnExistsSQL := λ schema table, "COLUMN " +:+ schema +:+ "." +:+ table;
     DropGeometryColumnSQL := λ schema table, "DROP COLUMN " +:+ schema +:+ "." +:+ table;
     DropTableSQL := λ schema table, "DROP TABLE " +:+ schema +:+ "." +:+ table |}.


Definition demo_db_bad_row : Database :=
  {| scan_bool := λ _ _, inr true;
     query_rows := λ _ _, inr [inr "idx_a"; inl (DriverError "bad row")];
     exec_stmt := λ _ _, None |}.

(** * Properties *)

(** ** Concrete runs *)

Example packNodes_ex :
  packNodes [mkNode 1 10 20; mkNode 3 15 18]
  = {| Ids := [1; 2]; Lats := [20; -2]; Lons := [10; 5] |}.
Proof. reflexivity. Qed.

Example keyBuf_ex : keyBuf 300 = Ok [216; 4; 0; 0; 0; 0; 0; 0].
Proof. reflexivity. Qed.

Example keyBuf_neg_ex : keyBuf (-1) = Ok [1; 0; 0; 0; 0; 0; 0; 0].
Proof. reflexivity. Qed.

Example PutCoords_GetCoord_ex :
  (do st <- PutCoords [mkNode 1 10 20; mkNode 65 11 21; mkNode 66 12 22] fresh;
   do (st2, r) <- GetCoord 65 st; Ok r)
  = Ok (mkNode 65 11 21, true).
Proof. vm_compute. reflexivity. Qed.

(** ** The result monad *)

Lemma bind_Ok {A B : Type} (m : result A) (f : A → result B) (b : B) :
  bind m f = Ok b → ∃ a, m = Ok a ∧ f a = Ok b.
Proof. destruct m as [a|p]; simpl; [eauto | discriminate]. Qed.

Ltac inv_bind H :=
  let a := fresh "a" in
  let Ha := fresh "Ha" in
  apply bind_Ok in H; destruct H as (a & Ha & H).

(** ** Machine integers *)

Lemma int64_range (z : Z) : is_int64 (int64 z).
Proof.
  unfold is_int64, int64.
  pose proof (Z.mod_pos_bound (z + 2 ^ 63) (2 ^ 64)). lia.
Qed.

Lemma int64_add_sub (a b : Z) : is_int64 b → int64 (a + int64 (b - a)) = b.
Proof.
  intros Hb. unfold int64 at 1.
  replace (a + int64 (b - a) + 2 ^ 63)
    with (a + (b - a + 2 ^ 63) mod 2 ^ 64) by (unfold int64; lia).
  rewrite Zplus_mod_idemp_r.
  replace (a + (b - a + 2 ^ 63)) with (b + 2 ^ 63) by lia.
  unfold is_int64 in Hb. rewrite Z.mod_small by lia. lia.
Qed.

Lemma uint32_range (z : Z) : is_uint32 (uint32 z).
Proof. unfold is_uint32, uint32. apply Z.mod_pos_bound. lia. Qed.

Lemma uint32_id (z : Z) : is_uint32 z → uint32 z = z.
Proof. unfold is_uint32, uint32. intros. apply Z.mod_small. lia. Qed.

Lemma uint32_idemp (z : Z) : uint32 (uint32 z) = uint32 z.
Proof. apply uint32_id, uint32_range. Qed.

(** ** The codec *)

Lemma unpackNodes_loop_unpack3 ids dLats dLons i lastId lastLon lastLat :
  unpackNodes_loop ids dLats dLons i lastId lastLon lastLat
  = unpack3 ids (drop i dLats) (drop i dLons) lastId lastLon lastLat.
Proof.
  revert i lastId lastLon lastLat.
  induction ids as [|d ids IH]; intros i lastId lastLon lastLat; simpl; [done|].
  unfold index.
  destruct (dLats !! i) as [dlat|] eqn:Hlat.
  - rewrite (drop_S _ _ _ Hlat). simpl.
    destruct (dLons !! i) as [dlon|] eqn:Hlon.
    + rewrite (drop_S _ _ _ Hlon). simpl. by rewrite IH.
    + apply lookup_ge_None in Hlon. by rewrite (drop_ge dLons i).
  - apply lookup_ge_None in Hlat. by rewrite (drop_ge dLats i).
Qed.

Lemma unpackNodes_unpack3 dc buf :
  unpackNodes dc buf = unpack3 (Ids dc) (Lats dc) (Lons dc) 0 0 0.
Proof. unfold unpackNodes. by rewrite unpackNodes_loop_unpack3, !drop_0. Qed.

Lemma unpack3_packNodes_loop nodes lastId lastLon lastLat :
  Forall (λ nd, is_int64 (Id nd)) nodes →
  is_uint32 lastLon → is_uint32 lastLat →
  ∀ ids lons lats,
    packNodes_loop nodes lastId lastLon lastLat = (ids, lons, lats) →
    unpack3 ids lats lons lastId lastLat lastLon = Ok (swapLL <$> nodes).
Proof.
  intros Hids. revert lastId lastLon lastLat.
  induction Hids as [|nd nodes Hnd _ IH];
    intros lastId lastLon lastLat Hlon Hlat ids lons lats Hpack.
  - simpl in Hpack. by simplify_eq.
  - simpl in Hpack.
    destruct (packNodes_loop nodes (Id nd) (CoordToInt (Long nd))
                (CoordToInt (Lat nd))) as [[ids' lons'] lats'] eqn:Hrest.
    simplify_eq. simpl.
    rewrite (int64_add_sub lastId (Id nd) Hnd).
    assert (is_uint32 (CoordToInt (Long nd))) as HL by apply uint32_range.
    assert (is_uint32 (CoordToInt (Lat nd))) as HA by apply uint32_range.
    assert (int64 (lastLat + int64 (CoordToInt (Lat nd) - lastLat))
            = CoordToInt (Lat nd)) as ->.
    { apply int64_add_sub. unfold CoordToInt, is_uint32, is_int64 in *. lia. }
    assert (int64 (lastLon + int64 (CoordToInt (Long nd) - lastLon))
            = CoordToInt (Long nd)) as ->.
    { apply int64_add_sub. unfold CoordToInt, is_uint32, is_int64 in *. lia. }
    rewrite (IH _ _ _ HL HA _ _ _ Hrest). simpl.
    unfold swapLL, IntToCoord, CoordToInt.
    by rewrite !uint32_idemp.
Qed.

(** Decoding an encoded sequence exchanges longitude and latitude of
    every record and keeps the identifiers. *)
Lemma unpackNodes_packNodes nodes buf :
  Forall (λ nd, is_int64 (Id nd)) nodes →
  unpackNodes (packNodes nodes) buf = Ok (swapLL <$> nodes).
Proof.
  intros Hids. rewrite unpackNodes_unpack3. unfold packNodes.
  destruct (packNodes_loop nodes 0 0 0) as [[ids lons] lats] eqn:Hp. simpl.
  apply (unpack3_packNodes_loop nodes 0 0 0); unfold is_uint32; auto; lia.
Qed.

Lemma unpack3_mismatch ids dLats dLons lastId lastLon lastLat :
  (length dLats < length ids ∨ length dLons < length ids)%nat →
  unpack3 ids dLats dLons lastId lastLon lastLat = Panic IndexOutOfRange.
Proof.
  revert dLats dLons lastId lastLon lastLat.
  induction ids as [|d ids IH]; intros dLats dLons lastId lastLon lastLat Hlen.
  - simpl in Hlen. lia.
  - simpl. destruct dLats as [|dlat dLats]; [done|].
    destruct dLons as [|dlon dLons]; [done|].
    rewrite IH; [done|]. simpl in Hlen. lia.
Qed.

Lemma unpack3_returns ids dLats dLons lastId lastLon lastLat :
  (length ids ≤ length dLats)%nat → (length ids ≤ length dLons)%nat →
  ∃ nodes, unpack3 ids dLats dLons lastId lastLon lastLat = Ok nodes
           ∧ length nodes = length ids.
Proof.
  revert dLats dLons lastId lastLon lastLat.
  induction ids as [|d ids IH]; intros dLats dLons lastId lastLon lastLat H1 H2.
  - by exists [].
  - destruct dLats as [|dlat dLats]; [simpl in H1; lia|].
    destruct dLons as [|dlon dLons]; [simpl in H2; lia|].
    simpl in *.
    destruct (IH dLats dLons (int64 (lastId + d)) (int64 (lastLon + dlat))
                (int64 (lastLat + dlon))) as (rest & -> & Hlen); [lia..|].
    simpl. eexists. split; [done|]. simpl. by rewrite Hlen.
Qed.

(** ** Storage keys *)

Lemma lor_128 (a : Z) : 0 ≤ a < 256 → Z.lor a 128 = a mod 128 + 128.
Proof.
  intros Ha.
  assert (forallb (λ a, Z.lor a 128 =? a mod 128 + 128) (seqZ 0 256) = true)
    as Hall by (vm_compute; reflexivity).
  rewrite forallb_forall in Hall.
  apply Z.eqb_eq, Hall, list_elem_of_In, elem_of_seqZ. lia.
Qed.

Lemma byte_or_128 (x : Z) : Z.lor (x mod 256) 128 = x mod 128 + 128.
Proof.
  rewrite lor_128 by (apply Z.mod_pos_bound; lia).
  f_equal. change 256 with (128 * 2). rewrite Z.rem_mul_r by lia.
  rewrite (Z.mul_comm 128), Z.mod_add by lia.
  apply Z.mod_mod. lia.
Qed.

Lemma PutUvarint_returns (buf : list Z) (x : Z) :
  buf ≠ [] → 0 ≤ x < 128 ^ Z.of_nat (length buf) →
  ∃ key, PutUvarint buf x = Ok key.
Proof.
  revert x. induction buf as [|b buf IH]; intros x Hne Hx; [done|].
  simpl. destruct (128 <=? x) eqn:Hge; [|eauto].
  apply Z.leb_le in Hge.
  destruct buf as [|b' buf'].
  { simpl in Hx. lia. }
  destruct (IH (Z.shiftr x 7)) as [rest ->]; [done| |simpl; eauto].
  rewrite Z.shiftr_div_pow2 by lia. change (2 ^ 7) with 128.
  rewrite length_cons, Nat2Z.inj_succ, Z.pow_succ_r in Hx by lia.
  split; [apply Z.div_pos; lia|]. apply Z.div_lt_upper_bound; lia.
Qed.

Lemma PutUvarint_inj (buf1 buf2 : list Z) (x y : Z) (key : Key) :
  0 ≤ x → 0 ≤ y →
  PutUvarint buf1 x = Ok key → PutUvarint buf2 y = Ok key → x = y.
Proof.
  revert buf2 x y key.
  induction buf1 as [|b1 buf1 IH]; intros buf2 x y key Hx Hy H1 H2; [done|].
  destruct buf2 as [|b2 buf2]; [done|]. simpl in H1, H2.
  destruct (128 <=? x) eqn:Hxge, (128 <=? y) eqn:Hyge.
  - inv_bind H1. inv_bind H2. injection H1 as <-. injection H2 as Hhd Htl.
    subst a0. rewrite !byte_or_128 in Hhd.
    apply Z.leb_le in Hxge, Hyge.
    rewrite !Z.shiftr_div_pow2 in * by lia. change (2 ^ 7) with 128 in *.
    assert (x / 128 = y / 128) as Hq.
    { eapply IH; [| |exact Ha|exact Ha0]; apply Z.div_pos; lia. }
    rewrite (Z.div_mod x 128), (Z.div_mod y 128) by lia. lia.
  - inv_bind H1. injection H1 as <-. injection H2 as Hhd Htl.
    apply Z.leb_gt in Hyge.
    rewrite byte_or_128 in Hhd. rewrite (Z.mod_small y 256) in Hhd by lia.
    pose proof (Z.mod_pos_bound x 128). lia.
  - inv_bind H2. injection H2 as <-. injection H1 as Hhd Htl.
    apply Z.leb_gt in Hxge.
    rewrite byte_or_128 in Hhd. rewrite (Z.mod_small x 256) in Hhd by lia.
    pose proof (Z.mod_pos_bound y 128). lia.
  - injection H1 as <-. injection H2 as Hhd Htl.
    apply Z.leb_gt in Hxge, Hyge.
    rewrite !Z.mod_small in Hhd by lia. done.
Qed.

Lemma PutVarint_zigzag (buf : list Z) (x : Z) :
  is_int64 x → PutVarint buf x = PutUvarint buf (zigzag x).
Proof.
  unfold is_int64, PutVarint, zigzag. intros Hx. f_equal.
  rewrite Z.shiftl_mul_pow2 by lia. change (2 ^ 1) with 2.
  destruct (x <? 0) eqn:Hneg.
  - apply Z.ltb_lt in Hneg.
    replace (x mod 2 ^ 64) with (x + 2 ^ 64).
    + replace ((x + 2 ^ 64) * 2) with (2 * x + 2 ^ 64 + 1 * 2 ^ 64) by lia.
      rewrite Z.mod_add by lia. rewrite Z.mod_small by lia. lia.
    + symmetry. rewrite <- (Z.mod_add x 1 (2 ^ 64)) by lia.
      apply Z.mod_small. lia.
  - apply Z.ltb_ge in Hneg.
    rewrite (Z.mod_small x) by lia. rewrite Z.mod_small by lia. lia.
Qed.

Lemma keyBuf_returns (bunchId : Z) :
  key_range bunchId → ∃ key, keyBuf bunchId = Ok key.
Proof.
  unfold key_range, keyBuf. intros Hb.
  rewrite PutVarint_zigzag by (unfold is_int64; lia).
  apply PutUvarint_returns; [done|].
  change (128 ^ Z.of_nat (length (replicate 8 0))) with (2 ^ 56).
  unfold zigzag. destruct (bunchId <? 0) eqn:Hneg;
    [apply Z.ltb_lt in Hneg | apply Z.ltb_ge in Hneg]; lia.
Qed.

Lemma keyBuf_inj (b1 b2 : Z) (key : Key) :
  is_int64 b1 → is_int64 b2 →
  keyBuf b1 = Ok key → keyBuf b2 = Ok key → b1 = b2.
Proof.
  unfold keyBuf. intros H1 H2 K1 K2.
  rewrite PutVarint_zigzag in K1, K2 by done.
  assert (zigzag b1 = zigzag b2) as Hz.
  { eapply PutUvarint_inj; [| |exact K1|exact K2]; unfold zigzag;
      [destruct (Z.ltb_spec b1 0) | destruct (Z.ltb_spec b2 0)]; lia. }
  unfold zigzag in Hz.
  destruct (Z.ltb_spec b1 0), (Z.ltb_spec b2 0); lia.
Qed.

Lemma getBunchId_int64 (nodeId : Z) : is_int64 nodeId → is_int64 (getBunchId nodeId).
Proof.
  unfold is_int64, getBunchId. intros H.
  pose proof (Z.quot_le_mono nodeId (2 ^ 63) 64 ltac:(lia) ltac:(lia)) as Hu.
  pose proof (Z.quot_le_mono (- 2 ^ 63) nodeId 64 ltac:(lia) ltac:(lia)) as Hl.
  change (2 ^ 63 ÷ 64) with (2 ^ 57) in Hu.
  change (- 2 ^ 63 ÷ 64) with (- 2 ^ 57) in Hl. lia.
Qed.

(** ** C1, C9: the codec *)

(** C1. The round trip [unpackNodes (packNodes x) = x] fails on the
    one-record sequence [{Id 1, Long 10, Lat 20}], which is sorted and
    free of duplicates: the decoded record is [{Id 1, Long 20, Lat 10}],
    longitude and latitude exchanged, which differs from the original
    under fixed-point equality of the coordinates. *)
Theorem C1_round_trip_exchanges_coordinates :
  let x := [mkNode 1 10 20] in
  unpackNodes (packNodes x) [] = Ok [mkNode 1 20 10]
  ∧ CoordToInt (Long (mkNode 1 20 10)) ≠ CoordToInt (Long (mkNode 1 10 20))
  ∧ unpackNodes (packNodes x) [] ≠ Ok x.
Proof. repeat split; vm_compute; discriminate. Qed.

(** The same exchange seen through the cache, on the scenario of a
    cache with room for two bunches: the third put evicts and writes
    bunch 0, and [GetCoord 1] loads it again with longitude and
    latitude exchanged. *)
Example reload_after_eviction_ex :
  (do st <- PutCoords [mkNode 1 10 20; mkNode 65 11 21; mkNode 130 12 22]
              (emptyCache ∅ 2);
   do (st2, r) <- GetCoord 1 st; Ok r)
  = Ok (mkNode 1 20 10, true).
Proof. vm_compute. reflexivity. Qed.

(** C9. When [Lats] or [Lons] is shorter than [Ids], [unpackNodes] does
    not return: it panics with an index out of range. The panic is not
    caught on the way up: [getCoordsPacked] on a key that holds such a
    record, [getBunch] on a bunch that has to be loaded from it, and
    [GetCoord] on an identifier of that bunch all end in the same
    panic. *)
Theorem C9_mismatched_lengths_panic (deltaCoords : DeltaCoords) :
  (length (Lats deltaCoords) < length (Ids deltaCoords)
   ∨ length (Lons deltaCoords) < length (Ids deltaCoords))%nat →
  (∀ buf, unpackNodes deltaCoords buf = Panic IndexOutOfRange)
  ∧ (∀ bunchId key buf p,
       keyBuf bunchId = Ok key →
       db (cache p) !! key = Some deltaCoords →
       getCoordsPacked bunchId buf p = Panic IndexOutOfRange
       ∧ (table p !! bunchId = None →
          getBunch bunchId p = Panic IndexOutOfRange
          ∧ ∀ id, getBunchId id = bunchId →
                  GetCoord id p = Panic IndexOutOfRange)).
Proof.
  intros Hlen.
  assert (∀ buf, unpackNodes deltaCoords buf = Panic IndexOutOfRange) as Hun.
  { intros buf. rewrite unpackNodes_unpack3. by apply unpack3_mismatch. }
  split; [exact Hun|].
  intros bunchId key buf p Hkey Hdb.
  assert (∀ buf p', cache p' = cache p →
            getCoordsPacked bunchId buf p' = Panic IndexOutOfRange) as Hget.
  { intros buf' p' Hc. unfold getCoordsPacked. rewrite Hkey. simpl.
    rewrite Hc, Hdb. apply Hun. }
  split; [by apply Hget|].
  intros Hmiss.
  assert (getBunch bunchId p = Panic IndexOutOfRange) as Hgb.
  { unfold getBunch. rewrite Hmiss.
    destruct (freeNodes (set_lruList (bunchId :: lruList p) p));
      rewrite Hget; done. }
  split; [exact Hgb|].
  intros id <-. unfold GetCoord. by rewrite Hgb.
Qed.

Lemma C9_mismatched_lengths_panic_witness :
  let deltaCoords := {| Ids := [1; 2]; Lats := [1]; Lons := [1; 2] |} in
  let p := NewDeltaCoordsCache {[ [0; 0; 0; 0; 0; 0; 0; 0] := deltaCoords ]} in
  unpackNodes deltaCoords [] = Panic IndexOutOfRange
  ∧ getCoordsPacked 0 [] p = Panic IndexOutOfRange
  ∧ GetCoord 1 p = Panic IndexOutOfRange.
Proof.
  intros deltaCoords p.
  destruct (C9_mismatched_lengths_panic deltaCoords) as [Hun Hget].
  { left. simpl. lia. }
  destruct (Hget 0 [0; 0; 0; 0; 0; 0; 0; 0] [] p) as [Hg Hb];
    [reflexivity | reflexivity |].
  destruct Hb as [_ Hc]; [reflexivity|].
  split; [apply Hun|]. split; [exact Hg|]. apply Hc. reflexivity.
Defined.

(** ** C8: loading from the store *)

(** C8, as stated, fails: bunch id [2^55] has no persisted record in the
    empty store, and [getCoordsPacked] panics, because the varint of the
    id does not fit the 8-byte key buffer. *)
Lemma C8_counterexample :
  db (cache fresh) = ∅
  ∧ getCoordsPacked (2 ^ 55) [] fresh = Panic IndexOutOfRange.
Proof. split; reflexivity. Qed.

(** C8, amended. For every bunch id with [-2^55 <= bunchId < 2^55] the
    storage key exists, and when the store holds nothing under that key
    [getCoordsPacked] returns the empty sequence, whatever the buffer
    and the rest of the state. *)
Theorem C8_absent_key_loads_empty (bunchId : Z) (buf : list Node)
    (p : DeltaCoordsCache) :
  key_range bunchId →
  ∃ key, keyBuf bunchId = Ok key
         ∧ (db (cache p) !! key = None →
            getCoordsPacked bunchId buf p = Ok []).
Proof.
  intros Hr. destruct (keyBuf_returns bunchId Hr) as [key Hkey].
  exists key. split; [done|]. intros Hnone.
  unfold getCoordsPacked. rewrite Hkey. simpl. by rewrite Hnone.
Qed.

Lemma C8_absent_key_loads_empty_witness :
  ∃ key, keyBuf 3 = Ok key
         ∧ (db (cache fresh) !! key = None → getCoordsPacked 3 [] fresh = Ok []).
Proof. apply (C8_absent_key_loads_empty 3 [] fresh). unfold key_range. lia. Defined.

(** ** C7, C10: the guards of [FillWay] and [PutCoords] *)

(** C7, as stated, fails: a way that is present and whose reference
    list is nil is answered [true], with an empty result. *)
Lemma C7_counterexample :
  FillWay (Some {| Refs := []; Nodes := [] |}) fresh
  = Ok (fresh, Some {| Refs := []; Nodes := [] |}, true).
Proof. reflexivity. Qed.

(** C7, amended. [FillWay] answers [false] for the nil way and leaves
    the cache as it is; for a way that is present and has a nil or empty
    reference list it answers [true] and sets [Nodes] to the empty
    sequence, again without touching the cache. *)
Theorem C7_nil_way_fails_nil_refs_succeed (self : DeltaCoordsCache)
    (nodes : list Node) :
  FillWay None self = Ok (self, None, false)
  ∧ FillWay (Some {| Refs := []; Nodes := nodes |}) self
    = Ok (self, Some {| Refs := []; Nodes := [] |}, true).
Proof. split; reflexivity. Qed.

(** C10. On the empty input [PutCoords] panics with an index out of
    range at [nodes[0]], before the cache is touched; hence a call that
    returns had a non-empty input. *)
Theorem C10_PutCoords_empty_input_panics (self : DeltaCoordsCache) :
  PutCoords [] self = Panic IndexOutOfRange
  ∧ (∀ nodes self', PutCoords nodes self = Ok self' → nodes ≠ []).
Proof.
  split; [reflexivity|]. intros nodes self' H ->. discriminate H.
Qed.

Lemma C10_PutCoords_empty_input_panics_witness :
  PutCoords [] fresh = Panic IndexOutOfRange ∧ [mkNode 1 10 20] ≠ [].
Proof.
  destruct (C10_PutCoords_empty_input_panics fresh) as [Hp Hne].
  split; [exact Hp|].
  refine (Hne [mkNode 1 10 20] _ _). vm_compute. reflexivity.
Defined.

(** ** [FillWay] along its lookups *)

Lemma GetCoord_found_Id id self self' nd :
  GetCoord id self = Ok (self', (nd, true)) → Id nd = id.
Proof.
  unfold GetCoord. intros H. inv_bind H. destruct a as [self1 bunch].
  destruct (coords bunch !! _) as [nd'|]; [|by simplify_eq].
  destruct (Id nd' =? id) eqn:Heq; simplify_eq. by apply Z.eqb_eq.
Qed.

Lemma FillWay_loop_resolves self refs nds self' :
  resolves self refs nds self' →
  ∀ (i : nat) (pre post : list Node),
    length pre = i → length post = length refs →
    FillWay_loop refs i (pre ++ post) self = Ok (self', pre ++ nds, true).
Proof.
  induction 1 as [self|self id refs nd self1 nds self2 Hget _ IH];
    intros i pre post Hpre Hpost.
  - destruct post; [|done]. done.
  - destruct post as [|p post]; [done|]. simpl. rewrite Hget. simpl.
    subst i. rewrite <- (Nat.add_0_r (length pre)) at 2.
    rewrite insert_app_r. simpl.
    rewrite (cons_middle nd pre post), (cons_middle nd pre nds), !app_assoc.
    apply IH; [rewrite length_app; simpl; lia | by injection Hpost].
Qed.

Lemma FillWay_loop_misses self refs :
  misses self refs →
  ∀ (i : nat) (nodes : list Node),
    ∃ self' nodes', FillWay_loop refs i nodes self = Ok (self', nodes', false).
Proof.
  induction 1 as [self id refs self1 nd Hget|self id refs self1 nd Hget _ IH];
    intros i nodes; simpl; rewrite Hget; simpl; eauto.
Qed.

Lemma resolves_length self refs nds self' :
  resolves self refs nds self' → length nds = length refs.
Proof. induction 1; simpl; congruence. Qed.

Lemma resolves_lookup self refs nds self' (i : nat) id :
  resolves self refs nds self' → refs !! i = Some id →
  ∃ nd, nds !! i = Some nd ∧ Id nd = id.
Proof.
  intros H. revert i. induction H as [|self id' refs nd self1 nds self2 Hget _ IH];
    intros i Hi; [done|].
  destruct i as [|i]; simpl in *.
  - simplify_eq. eauto using GetCoord_found_Id.
  - by apply IH.
Qed.


(** ** The LRU manager *)

Lemma flush_putCoordsPacked b bunch self :
  (if needsWrite bunch then putCoordsPacked b (coords bunch) self else Ok self)
  = do c <- flush b bunch (cache self); Ok (set_cache c self).
Proof.
  unfold flush, putCoordsPacked. destruct self as [c l t f k].
  destruct (needsWrite bunch); [|done].
  destruct (coords bunch); [done|].
  destruct (keyBuf b); done.
Qed.

Lemma CheckCapacity_body_eq b back' self :
  CheckCapacity_body b back' self
  = match table self !! b with
    | None => Panic NilDereference
    | Some bunch =>
        do c <- flush b bunch (cache self);
        Ok {| cache := c; lruList := rev back';
              table := delete b (table self);
              freeNodes := coords bunch :: freeNodes self;
              capacity := capacity self |}
    end.
Proof.
  unfold CheckCapacity_body. simpl.
  destruct (table self !! b) as [bunch|]; [|done].
  rewrite flush_putCoordsPacked. simpl.
  destruct (flush b bunch (cache self)); done.
Qed.

Lemma lru_ok_size self : lru_ok self → size (table self) = length (lruList self).
Proof.
  intros [Hnd Hdom].
  rewrite <- (size_dom (D := gset Z)), <- (size_list_to_set (C := gset Z)) by done.
  f_equal. apply set_eq. intros b.
  rewrite elem_of_dom, elem_of_list_to_set. symmetry. apply Hdom.
Qed.

Lemma lru_ok_snoc_delete (l : list Z) (b : Z) (t : gmap Z CoordsBunch) :
  NoDup (l ++ [b]) → (∀ x, x ∈ l ++ [b] ↔ is_Some (t !! x)) →
  NoDup l ∧ (∀ x, x ∈ l ↔ is_Some (delete b t !! x)).
Proof.
  intros Hnd Hdom. apply NoDup_app in Hnd as (Hl & Hnot & _).
  split; [done|]. intros x. rewrite lookup_delete_is_Some, <- Hdom.
  rewrite elem_of_app, list_elem_of_singleton. split.
  - intros Hx. split; [|by left]. intros ->. apply (Hnot x Hx). by left.
  - intros [Hne [Hx| ->]]; done.
Qed.

(** The loop of [CheckCapacity] cuts the recency list down to its first
    [capacity] elements and keeps the table entries of these. *)
Lemma CheckCapacity_loop_lru back self self' :
  lruList self = rev back → lru_ok self →
  CheckCapacity_loop back self = Ok self' →
  lru_ok self'
  ∧ lruList self' = take (Z.to_nat (capacity self)) (lruList self)
  ∧ capacity self' = capacity self
  ∧ Z.of_nat (size (table self')) ≤ capacity self
  ∧ (∀ x, x ∈ lruList self' → table self' !! x = table self !! x).
Proof.
  revert self. induction back as [|b back IH]; intros self Hl Hok Hloop.
  - simpl in Hloop. destruct (capacity self <? _) eqn:Hc; [done|].
    simplify_eq. apply Z.ltb_ge in Hc.
    rewrite take_ge by (rewrite <- lru_ok_size by done; lia). done.
  - simpl in Hloop. destruct (capacity self <? _) eqn:Hc.
    + apply Z.ltb_lt in Hc. inv_bind Hloop.
      rewrite CheckCapacity_body_eq in Ha.
      destruct (table self !! b) as [bunch|] eqn:Hb; [|done].
      inv_bind Ha. simplify_eq.
      simpl in Hl. destruct Hok as [Hnd Hdom]. rewrite Hl in Hnd, Hdom.
      destruct (lru_ok_snoc_delete _ _ _ Hnd Hdom) as [Hnd' Hdom'].
      apply IH in Hloop as (Hok' & Hlru & Hcap & Hsize & Htab);
        [|done|by split].
      simpl in *. split; [done|]. rewrite Hl.
      assert (Z.to_nat (capacity self) ≤ length (rev back))%nat as Hle.
      { assert (size (table self) = length (lruList self)) as Hs.
        { apply lru_ok_size. split; by rewrite Hl. }
        rewrite Hl, length_app in Hs. simpl in Hs. lia. }
      rewrite take_app_le by done.
      repeat split; try done.
      intros x Hx. rewrite Htab by done. apply lookup_delete_ne.
      intros <-. rewrite Hlru in Hx. apply elem_of_take in Hx as (i & Hi & _).
      apply list_elem_of_lookup_2 in Hi.
      apply NoDup_app in Hnd as (_ & Hnot & _). apply (Hnot b Hi). by left.
    + simplify_eq. apply Z.ltb_ge in Hc.
      rewrite take_ge by (rewrite <- lru_ok_size by done; lia). done.
Qed.

Lemma CheckCapacity_lru self self' :
  lru_ok self → CheckCapacity self = Ok self' →
  lru_ok self'
  ∧ lruList self' = take (Z.to_nat (capacity self)) (lruList self)
  ∧ capacity self' = capacity self
  ∧ Z.of_nat (size (table self')) ≤ capacity self
  ∧ (∀ x, x ∈ lruList self' → table self' !! x = table self !! x).
Proof.
  intros Hok H. eapply CheckCapacity_loop_lru; [|done|exact H].
  by rewrite rev_involutive.
Qed.

Lemma getCoordsPacked_cache b buf p p' :
  cache p = cache p' → getCoordsPacked b buf p = getCoordsPacked b [] p'.
Proof. unfold getCoordsPacked, unpackNodes. by intros ->. Qed.

Lemma getBunch_eq b self :
  getBunch b self
  = match table self !! b with
    | None =>
        do nodes <- getCoordsPacked b [] self;
        let bunch := {| bunch_id := b; coords := nodes; needsWrite := false |} in
        do self' <- CheckCapacity
                      {| cache := cache self; lruList := b :: lruList self;
                         table := <[b := bunch]> (table self);
                         freeNodes := tail (freeNodes self);
                         capacity := capacity self |};
        Ok (self', bunch)
    | Some bunch =>
        do self' <- CheckCapacity
                      {| cache := cache self;
                         lruList := MoveToFront b (lruList self);
                         table := table self;
                         freeNodes := freeNodes self;
                         capacity := capacity self |};
        Ok (self', bunch)
    end.
Proof.
  unfold getBunch. destruct (table self !! b) as [bunch|]; [done|].
  destruct self as [c l t f k]. simpl.
  destruct f as [|buf f]; simpl;
    (erewrite getCoordsPacked_cache by reflexivity);
    unfold getCoordsPacked at 1; simpl; done.
Qed.

Lemma filter_ne_id (b : Z) (l : list Z) : b ∉ l → filter (λ x, x ≠ b) l = l.
Proof.
  induction l as [|x l IH]; intros Hb; [done|].
  apply not_elem_of_cons in Hb as [Hne Hb].
  rewrite filter_cons_True by done. by rewrite IH.
Qed.

Lemma lru_ok_insert b bunch self :
  lru_ok self → table self !! b = None →
  lru_ok {| cache := cache self; lruList := b :: lruList self;
            table := <[b := bunch]> (table self);
            freeNodes := tail (freeNodes self); capacity := capacity self |}.
Proof.
  intros [Hnd Hdom] Hb. split; simpl.
  - apply NoDup_cons. split; [|done].
    rewrite Hdom, Hb. by intros [? ?].
  - intros x. rewrite elem_of_cons, lookup_insert_is_Some, Hdom.
    destruct (decide (b = x)) as [->|]; naive_solver.
Qed.

Lemma lru_ok_MoveToFront b bunch self :
  lru_ok self → table self !! b = Some bunch →
  MoveToFront b (lruList self) = b :: filter (λ x, x ≠ b) (lruList self)
  ∧ lru_ok {| cache := cache self; lruList := MoveToFront b (lruList self);
              table := table self;
              freeNodes := freeNodes self; capacity := capacity self |}.
Proof.
  intros [Hnd Hdom] Hb.
  assert (b ∈ lruList self) as Hin by (apply Hdom; eauto).
  unfold MoveToFront. rewrite decide_True by done.
  split; [done|]. split; simpl.
  - apply NoDup_cons. split; [|by apply NoDup_filter].
    rewrite list_elem_of_filter. naive_solver.
  - intros x. rewrite elem_of_cons, list_elem_of_filter, <- Hdom.
    destruct (decide (x = b)) as [->|]; naive_solver.
Qed.

(** [getBunch] moves the bunch to the front of the recency list and
    keeps the first [capacity] bunches of the list resident, with the
    table entries they had. *)
Lemma getBunch_lru b self self' bunch :
  lru_ok self → getBunch b self = Ok (self', bunch) →
  lru_ok self'
  ∧ lruList self'
    = take (Z.to_nat (capacity self)) (b :: filter (λ x, x ≠ b) (lruList self))
  ∧ capacity self' = capacity self
  ∧ Z.of_nat (size (table self')) ≤ capacity self
  ∧ (∀ x, x ∈ lruList self' → x ≠ b → table self' !! x = table self !! x)
  ∧ (b ∈ lruList self' → table self' !! b = Some bunch).
Proof.
  intros Hok H. rewrite getBunch_eq in H.
  destruct (table self !! b) as [bunch0|] eqn:Hb.
  - inv_bind H. simplify_eq.
    destruct (lru_ok_MoveToFront b bunch self Hok Hb) as [Hmv Hok1].
    apply CheckCapacity_lru in Ha as (Hok' & Hl & Hc & Hs & Ht); [|done].
    simpl in *. rewrite Hmv in Hl.
    repeat split; try done; try apply Hok'.
    + intros x Hx _. by apply Ht.
    + intros Hx. by rewrite Ht.
  - inv_bind H. inv_bind H. simplify_eq.
    pose proof (lru_ok_insert b {| bunch_id := b; coords := a; needsWrite := false |}
                  self Hok Hb) as Hok1.
    apply CheckCapacity_lru in Ha0 as (Hok' & Hl & Hc & Hs & Ht); [|done].
    simpl in *.
    assert (b ∉ lruList self) as Hnin.
    { destruct Hok as [_ Hdom]. rewrite Hdom, Hb. by intros [? ?]. }
    rewrite filter_ne_id by done.
    repeat split; try done; try apply Hok'.
    + intros x Hx Hne. rewrite Ht by done. by apply lookup_insert_ne.
    + intros Hx. rewrite Ht by done. apply lookup_insert_eq.
Qed.

Lemma packNodes_loop_length nodes lastId lastLon lastLat ids lons lats :
  packNodes_loop nodes lastId lastLon lastLat = (ids, lons, lats) →
  length ids = length nodes ∧ length lons = length nodes
  ∧ length lats = length nodes.
Proof.
  revert lastId lastLon lastLat ids lons lats.
  induction nodes as [|nd nodes IH]; intros lastId lastLon lastLat ids lons lats H;
    simpl in H.
  - by simplify_eq.
  - destruct (packNodes_loop nodes _ _ _) as [[ids' lons'] lats'] eqn:Hrest.
    simplify_eq. apply IH in Hrest as (? & ? & ?). simpl. lia.
Qed.

Lemma packNodes_length nodes :
  length (Ids (packNodes nodes)) = length nodes
  ∧ length (Lats (packNodes nodes)) = length nodes
  ∧ length (Lons (packNodes nodes)) = length nodes.
Proof.
  unfold packNodes.
  destruct (packNodes_loop nodes 0 0 0) as [[ids lons] lats] eqn:H.
  apply packNodes_loop_length in H as (? & ? & ?). done.
Qed.

Lemma flush_returns b bunch c :
  key_ok b → ∃ c', flush b bunch c = Ok c'.
Proof.
  intros [_ [key Hkey]]. unfold flush.
  destruct (needsWrite bunch); [|eauto].
  destruct (coords bunch); [eauto|]. rewrite Hkey. simpl. eauto.
Qed.

Lemma flush_store_ok b bunch c c' :
  flush b bunch c = Ok c' → store_ok c → store_ok c'.
Proof.
  unfold flush. intros H Hok.
  destruct (needsWrite bunch); [|by simplify_eq].
  destruct (coords bunch) as [|nd nodes] eqn:Hc; [by simplify_eq|].
  inv_bind H. simplify_eq. intros key dc. simpl.
  rewrite lookup_insert. case_decide; [|by apply Hok].
  intros [= <-]. destruct (packNodes_length (nd :: nodes)) as (-> & -> & ->). done.
Qed.

Lemma getCoordsPacked_returns b buf p :
  key_ok b → store_ok (cache p) → ∃ nodes, getCoordsPacked b buf p = Ok nodes.
Proof.
  intros [_ [key Hkey]] Hst. unfold getCoordsPacked. rewrite Hkey. simpl.
  destruct (db (cache p) !! key) as [dc|] eqn:Hdb; [|eauto].
  rewrite unpackNodes_unpack3. destruct (Hst key dc Hdb) as [H1 H2].
  destruct (unpack3_returns (Ids dc) (Lats dc) (Lons dc) 0 0 0 H1 H2)
    as (nodes & -> & _). eauto.
Qed.

Lemma CheckCapacity_loop_mgr back self :
  lruList self = rev back → mgr_ok self →
  ∃ self', CheckCapacity_loop back self = Ok self' ∧ mgr_ok self'.
Proof.
  revert self. induction back as [|b back IH]; intros self Hl (Hok & Hk & Hst & Hc).
  - simpl. destruct (capacity self <? _) eqn:Hlt; [|by eexists].
    apply Z.ltb_lt in Hlt. rewrite lru_ok_size, Hl in Hlt by done.
    simpl in Hlt. lia.
  - simpl. destruct (capacity self <? _) eqn:Hlt; [|by eexists].
    rewrite CheckCapacity_body_eq. simpl in Hl.
    destruct Hok as [Hnd Hdom].
    assert (is_Some (table self !! b)) as [bunch Hb].
    { apply Hdom. rewrite Hl, elem_of_app. right. by left. }
    rewrite Hb. destruct (flush_returns b bunch (cache self)) as [c Hfl];
      [by eapply Hk|].
    rewrite Hfl. simpl. apply IH; [done|].
    rewrite Hl in Hnd, Hdom.
    destruct (lru_ok_snoc_delete _ _ _ Hnd Hdom) as [Hnd' Hdom'].
    split; [by split|]. split; [|split; [by eapply flush_store_ok|done]].
    intros x bx Hx. simpl in Hx.
    apply lookup_delete_Some in Hx as [_ Hx]. by eapply Hk.
Qed.

Lemma getBunch_mgr b self :
  mgr_ok self → key_ok b →
  ∃ self' bunch, getBunch b self = Ok (self', bunch) ∧ mgr_ok self'.
Proof.
  intros (Hok & Hk & Hst & Hc) Hb. rewrite getBunch_eq.
  destruct (table self !! b) as [bunch|] eqn:Hlook.
  - destruct (lru_ok_MoveToFront b bunch self Hok Hlook) as [_ Hok1].
    unfold CheckCapacity.
    match goal with |- context [CheckCapacity_loop ?l ?s] =>
      destruct (CheckCapacity_loop_mgr l s) as (self' & Hloop & Hm) end.
    + by rewrite rev_involutive.
    + by split.
    + rewrite Hloop. simpl. eauto.
  - destruct (getCoordsPacked_returns b [] self Hb Hst) as [nodes ->]. simpl.
    set (bunch := {| bunch_id := b; coords := nodes; needsWrite := false |}).
    pose proof (lru_ok_insert b bunch self Hok Hlook) as Hok1.
    unfold CheckCapacity.
    match goal with |- context [CheckCapacity_loop ?l ?s] =>
      destruct (CheckCapacity_loop_mgr l s) as (self' & Hloop & Hm) end.
    + by rewrite rev_involutive.
    + split; [exact Hok1|]. split; [|by split].
      intros x bx. simpl. rewrite lookup_insert. case_decide; [by intros; subst|].
      by apply Hk.
    + rewrite Hloop. simpl. eauto.
Qed.

Lemma key_range_key_ok b : key_range b → key_ok b.
Proof.
  intros Hr. split; [unfold key_range, is_int64 in *; lia|].
  by apply keyBuf_returns.
Qed.

Lemma mgr_ok_emptyCache store cap :
  (∀ key dc, store !! key = Some dc →
     (length (Ids dc) ≤ length (Lats dc) ∧ length (Ids dc) ≤ length (Lons dc))%nat) →
  0 ≤ cap → mgr_ok (emptyCache store cap).
Proof.
  intros Hst Hc. split; [|split; [|split; [exact Hst|exact Hc]]].
  - split; [constructor|]. intros b. simpl. rewrite lookup_empty.
    split; [by intros ?%elem_of_nil | by intros [? ?]].
  - intros b bunch. simpl. by rewrite lookup_empty.
Qed.

Lemma elem_of_rev {A : Type} (x : A) (l : list A) : x ∈ rev l ↔ x ∈ l.
Proof. by rewrite !list_elem_of_In, <- in_rev. Qed.

Lemma acquire_snoc bs b self :
  acquire (bs ++ [b]) self
  = do s <- acquire bs self; do (s', _) <- getBunch b s; Ok s'.
Proof.
  revert self. induction bs as [|x bs IH]; intros self; simpl.
  - destruct (getBunch b self) as [[s' bunch]|]; done.
  - destruct (getBunch x self) as [[s bunch]|]; simpl; [apply IH|done].
Qed.

Lemma acquire_mgr bs self :
  mgr_ok self → Forall key_ok bs →
  ∃ self', acquire bs self = Ok self' ∧ mgr_ok self'.
Proof.
  intros Hm Hk. revert self Hm.
  induction Hk as [|b bs Hb _ IH]; intros self Hm; simpl; [eauto|].
  destruct (getBunch_mgr b self Hm Hb) as (s & bunch & -> & Hs). simpl.
  by apply IH.
Qed.

(** After acquiring distinct bunches, no more of them than the capacity,
    the recency list starts with these bunches, the last acquired
    first. *)
Lemma acquire_front bs self self' :
  lru_ok self → NoDup bs → Z.of_nat (length bs) ≤ capacity self →
  acquire bs self = Ok self' →
  lru_ok self' ∧ capacity self' = capacity self
  ∧ ∃ rest, lruList self' = rev bs ++ rest.
Proof.
  revert self'. induction bs as [|b bs IH] using rev_ind;
    intros self' Hok Hnd Hlen Hacq.
  - simpl in Hacq. simplify_eq. eauto.
  - rewrite acquire_snoc in Hacq. inv_bind Hacq. inv_bind Hacq.
    destruct a0 as [s' bunch]. simplify_eq.
    apply NoDup_app in Hnd as (Hnd & Hnot & _).
    rewrite length_app in Hlen. simpl in Hlen.
    apply IH in Ha as (Hoks & Hcap & rest & Hl); [|done..|lia].
    apply getBunch_lru in Ha0 as (Hok' & Hl' & Hcap' & _); [|done].
    split; [done|]. split; [congruence|].
    rewrite Hl, filter_app in Hl'.
    rewrite filter_ne_id in Hl'.
    2:{ rewrite elem_of_rev. intros Hb. apply (Hnot b Hb). by left. }
    rewrite rev_unit. rewrite Hl'.
    exists (take (Z.to_nat (capacity a) - length (b :: rev bs))
              (filter (λ x, x ≠ b) rest)).
    rewrite (app_comm_cons (rev bs) _ b), take_app.
    f_equal. apply take_ge. simpl. rewrite length_rev. lia.
Qed.

(** Whatever the state, the loop of [CheckCapacity] only ends with no
    more resident bunches than the capacity, which it does not change. *)
Lemma CheckCapacity_loop_bound back self self' :
  CheckCapacity_loop back self = Ok self' →
  capacity self' = capacity self
  ∧ Z.of_nat (size (table self')) ≤ capacity self.
Proof.
  revert self. induction back as [|b back IH]; intros self H; simpl in H.
  - destruct (Z.ltb_spec (capacity self) (Z.of_nat (size (table self))));
      [done|]. by simplify_eq.
  - destruct (Z.ltb_spec (capacity self) (Z.of_nat (size (table self))));
      [|by simplify_eq].
    inv_bind H. rewrite CheckCapacity_body_eq in Ha.
    destruct (table self !! b) as [bunch|]; [|done].
    inv_bind Ha. simplify_eq. by apply IH in H.
Qed.

Lemma getBunch_bound b self self' bunch :
  getBunch b self = Ok (self', bunch) →
  capacity self' = capacity self
  ∧ Z.of_nat (size (table self')) ≤ capacity self.
Proof.
  intros H. rewrite getBunch_eq in H.
  destruct (table self !! b) as [bunch0|].
  - inv_bind H. simplify_eq. by apply CheckCapacity_loop_bound in Ha.
  - inv_bind H. inv_bind H. simplify_eq.
    by apply CheckCapacity_loop_bound in Ha0.
Qed.

(** C3. (1) From any state at all, a call of [getBunch] that returns
    leaves at most [capacity] bunches resident. (2) From a state the
    manager can run in, [getBunch] returns; the recency list becomes
    the accessed bunch followed by the others in their previous order,
    cut to the first [capacity] entries; the resident bunches are
    exactly those on the list. Only the access order enters: neither
    the size nor the dirty flag of a bunch. (3) Acquiring [C + 1]
    distinct bunches [b1 .. b(C+1)] in this order, with [C] the
    capacity, leaves [b(C+1) .. b2] on the recency list: [b1], the
    least recently used, has been evicted and the [C] others are
    resident. *)
Theorem C3_LRU_eviction_order :
  (∀ self b self' bunch,
     getBunch b self = Ok (self', bunch) →
     capacity self' = capacity self
     ∧ Z.of_nat (size (table self')) ≤ capacity self)
  ∧ (∀ self b,
     mgr_ok self → key_ok b →
     ∃ self' bunch,
       getBunch b self = Ok (self', bunch)
       ∧ lruList self'
         = take (Z.to_nat (capacity self))
             (b :: filter (λ x, x ≠ b) (lruList self))
       ∧ (∀ x, is_Some (table self' !! x) ↔ x ∈ lruList self')
       ∧ capacity self' = capacity self
       ∧ Z.of_nat (size (table self')) ≤ capacity self)
  ∧ (∀ self b1 bs,
       mgr_ok self → Forall key_ok (b1 :: bs) → NoDup (b1 :: bs) →
       Z.of_nat (length (b1 :: bs)) = capacity self + 1 →
       ∃ self',
         acquire (b1 :: bs) self = Ok self'
         ∧ lruList self' = rev bs
         ∧ table self' !! b1 = None
         ∧ (∀ b, b ∈ bs → is_Some (table self' !! b))
         ∧ size (table self') = length bs).
Proof.
  split; [intros self b self' bunch; apply getBunch_bound|]. split.
  - intros self b Hm Hb.
    destruct (getBunch_mgr b self Hm Hb) as (self' & bunch & Hget & _).
    exists self', bunch. split; [done|].
    destruct Hm as (Hok & _).
    apply getBunch_lru in Hget as (Hok' & Hl & Hc & Hs & _); [|done].
    repeat split; try done; apply Hok'.
  - intros self b1 bs Hm Hk Hnd Hlen.
    destruct (acquire_mgr (b1 :: bs) self Hm Hk) as (self' & Hacq & _).
    exists self'. split; [done|].
    assert (∃ pre blast, b1 :: bs = pre ++ [blast]) as (pre & blast & Hsplit).
    { destruct (exists_last (l := b1 :: bs)) as (pre & blast & ->); [done|eauto]. }
    rewrite Hsplit in Hacq, Hnd, Hlen. rewrite acquire_snoc in Hacq.
    inv_bind Hacq. inv_bind Hacq. destruct a0 as [s' bunch]. simplify_eq.
    destruct Hm as (Hok & _).
    apply NoDup_app in Hnd as (Hndp & Hnot & _).
    rewrite length_app in Hlen. simpl in Hlen.
    apply acquire_front in Ha as (Hoks & Hcap & rest & Hl); [|done..|lia].
    apply getBunch_lru in Ha0 as (Hok' & Hl' & Hcap' & _); [|done].
    rewrite Hl, filter_app in Hl'.
    rewrite filter_ne_id in Hl'.
    2:{ rewrite elem_of_rev. intros Hb. apply (Hnot blast Hb). by left. }
    assert (lruList self' = rev bs) as Hrev.
    { rewrite Hl', (app_comm_cons (rev pre) _ blast).
      rewrite take_app_le by (simpl; rewrite length_rev; lia).
      assert (blast :: rev pre = rev bs ++ [b1]) as ->.
      { change (rev bs ++ [b1]) with (rev (b1 :: bs)).
        by rewrite Hsplit, rev_unit. }
      apply take_app_length'.
      assert (length (b1 :: bs) = length (pre ++ [blast])) as Hll by congruence.
      rewrite length_app in Hll. simpl in Hll. rewrite length_rev. lia. }
    assert (NoDup (b1 :: bs)) as Hnd1.
    { rewrite Hsplit. apply NoDup_app. repeat split; try done.
      apply NoDup_singleton. }
    apply NoDup_cons in Hnd1 as [Hb1 _].
    destruct Hok' as [Hnd' Hdom'].
    split; [done|]. split; [|split].
    + apply eq_None_not_Some. rewrite <- Hdom', Hrev.
      by rewrite elem_of_rev.
    + intros b Hb. apply Hdom'. rewrite Hrev.
      by rewrite elem_of_rev.
    + rewrite lru_ok_size by done. by rewrite Hrev, length_rev.
Qed.

Lemma C3_LRU_eviction_order_witness :
  ∃ self', acquire [0; 1; 2] (emptyCache ∅ 2) = Ok self'
           ∧ lruList self' = [2; 1] ∧ table self' !! 0 = None.
Proof.
  destruct C3_LRU_eviction_order as (_ & _ & HB).
  destruct (HB (emptyCache ∅ 2) 0 [1; 2]) as (self' & Hacq & Hl & Hnone & _).
  - apply mgr_ok_emptyCache; [intros key dc; by rewrite lookup_empty | lia].
  - repeat constructor; apply key_range_key_ok; unfold key_range; lia.
  - apply (bool_decide_unpack _). reflexivity.
  - reflexivity.
  - eauto.
Defined.

(** ** C4: writing dirty bunches back *)

Lemma Close_loop_flushAll entries self :
  Close_loop entries self
  = do c <- flushAll entries (cache self); Ok (set_cache c self).
Proof.
  revert self. induction entries as [|[b bunch] entries IH]; intros self; simpl.
  - by destruct self.
  - rewrite flush_putCoordsPacked.
    destruct (flush b bunch (cache self)) as [c|]; simpl; [|done].
    rewrite IH. simpl. destruct (flushAll entries c); done.
Qed.

(** What [flushAll] does to the store and to the log of writes. *)
Lemma flushAll_spec entries c c' :
  NoDup entries.*1 → Forall key_ok entries.*1 →
  flushAll entries c = Ok c' →
  opened c' = opened c
  ∧ ∃ new,
    puts c' = new ++ puts c
    ∧ (∀ key dc, (key, dc) ∈ new →
         ∃ e bunch, (e, bunch) ∈ entries ∧ needsWrite bunch = true
                    ∧ coords bunch ≠ [] ∧ keyBuf e = Ok key
                    ∧ dc = packNodes (coords bunch))
    ∧ (∀ e bunch key, (e, bunch) ∈ entries → needsWrite bunch = true →
         coords bunch ≠ [] → keyBuf e = Ok key →
         (key, packNodes (coords bunch)) ∈ new
         ∧ db c' !! key = Some (packNodes (coords bunch)))
    ∧ (∀ key, key ∉ new.*1 → db c' !! key = db c !! key).
Proof.
  revert c. induction entries as [|[b bunch] entries IH]; intros c Hnd Hk H.
  - simpl in H. simplify_eq. split; [done|]. exists []. split; [done|].
    split; [by intros ?? ?%elem_of_nil|].
    split; [by intros ??? ?%elem_of_nil|done].
  - simpl in H, Hnd, Hk. inv_bind H. rename a into c1.
    apply NoDup_cons in Hnd as [Hb Hnd]. apply Forall_cons in Hk as [Hkb Hk].
    destruct (IH c1 Hnd Hk H) as (Hop & new & Hputs & Hsub & Hwr & Hkeep).
    assert (∀ e bunch' key, (e, bunch') ∈ entries → keyBuf e = Ok key →
                            keyBuf b ≠ Ok key) as Hfresh.
    { intros e bunch' key He Hke Hkb'.
      assert (e ∈ entries.*1) as Hin by (apply list_elem_of_fmap; by exists (e, bunch')).
      assert (b = e); [|by subst].
      eapply keyBuf_inj; [apply Hkb| |done..].
      rewrite Forall_forall in Hk. by apply Hk. }
    unfold flush in Ha.
    destruct (needsWrite bunch) eqn:Hdirty;
      [destruct (coords bunch) as [|nd nodes] eqn:Hcoords|].
    + simplify_eq. split; [done|]. exists new. split; [done|].
      split; [|split; [|done]].
      * intros key dc Hin. destruct (Hsub key dc Hin) as (e & bu & ? & ?).
        exists e, bu. split; [by right|done].
      * intros e bu key [[= -> ->]|He]%elem_of_cons Hd Hne Hke; [done|eauto].
    + inv_bind Ha. simplify_eq. rename a into kb.
      split; [done|]. exists (new ++ [(kb, packNodes (nd :: nodes))]).
      simpl in Hputs. split; [by rewrite Hputs, <- app_assoc|].
      split; [|split].
      * intros key dc [Hin|Hin]%elem_of_app.
        -- destruct (Hsub key dc Hin) as (e & bu & ? & ?).
           exists e, bu. split; [by right|done].
        -- apply list_elem_of_singleton in Hin as [= -> ->].
           exists b, bunch. rewrite Hcoords. split; [by left|done].
      * intros e bu key [[= -> ->]|He]%elem_of_cons Hd Hne Hke.
        -- rewrite Hcoords. rewrite Hke in Ha0. injection Ha0 as ->.
           split; [apply elem_of_app; right; by left|].
           rewrite Hkeep; [apply lookup_insert_eq|].
           intros ((k' & dc) & -> & Hin)%list_elem_of_fmap. simpl in *.
           destruct (Hsub _ _ Hin) as (e & bu & He & _ & _ & Hke' & _).
           by eapply Hfresh.
        -- destruct (Hwr e bu key He Hd Hne Hke) as [Hin Hdb].
           split; [apply elem_of_app; by left|done].
      * intros key Hkey. rewrite fmap_app, not_elem_of_app in Hkey.
        destruct Hkey as [Hk1 Hk2]. rewrite Hkeep by done. simpl.
        apply lookup_insert_ne. intros ->. apply Hk2. by left.
    + simplify_eq. split; [done|]. exists new. split; [done|].
      split; [|split; [|done]].
      * intros key dc Hin. destruct (Hsub key dc Hin) as (e & bu & ? & ?).
        exists e, bu. split; [by right|done].
      * intros e bu key [[= -> ->]|He]%elem_of_cons Hd Hne Hke; [congruence|eauto].
Qed.

Lemma flushAll_returns entries c :
  Forall key_ok entries.*1 → ∃ c', flushAll entries c = Ok c'.
Proof.
  revert c. induction entries as [|[b bunch] entries IH]; intros c Hk; simpl.
  - eauto.
  - simpl in Hk. apply Forall_cons in Hk as [Hb Hk].
    destruct (flush_returns b bunch c Hb) as [c1 ->]. simpl. by apply IH.
Qed.

(** The writes of [flushAll] over entries of a table [t]: every write
    is the record of a dirty bunch of [t]; a dirty bunch among the
    entries is written and the store holds its record afterwards; the
    key of a clean bunch of [t] is not written. *)
Lemma flushAll_table entries (t : gmap Z CoordsBunch) c c' :
  (∀ e bu, (e, bu) ∈ entries → t !! e = Some bu) →
  NoDup entries.*1 →
  (∀ e bu, t !! e = Some bu → key_ok e) →
  (∀ e bu, t !! e = Some bu → needsWrite bu = true → coords bu ≠ []) →
  flushAll entries c = Ok c' →
  opened c' = opened c
  ∧ ∃ new,
    puts c' = new ++ puts c
    ∧ (∀ key dc, (key, dc) ∈ new →
         ∃ e bunch, t !! e = Some bunch ∧ needsWrite bunch = true
                    ∧ keyBuf e = Ok key ∧ dc = packNodes (coords bunch))
    ∧ (∀ e bunch, t !! e = Some bunch →
         ∃ key, keyBuf e = Ok key
                ∧ (needsWrite bunch = true → (e, bunch) ∈ entries →
                   (key, packNodes (coords bunch)) ∈ new
                   ∧ db c' !! key = Some (packNodes (coords bunch)))
                ∧ (needsWrite bunch = false → key ∉ new.*1)).
Proof.
  intros Hent Hnd Hkeys Hdirty Hfl.
  assert (Forall key_ok entries.*1) as Hk.
  { apply Forall_forall. intros e ((e' & bu) & -> & Hin)%list_elem_of_fmap.
    eapply Hkeys, Hent, Hin. }
  destruct (flushAll_spec entries c c' Hnd Hk Hfl)
    as (Hop & new & Hputs & Hsub & Hwr & _).
  split; [done|]. exists new. split; [done|]. split.
  - intros key dc Hin.
    destruct (Hsub key dc Hin) as (e & bu & He & Hd & _ & Hke & Hdc).
    exists e, bu. by rewrite (Hent e bu He).
  - intros e bunch He. destruct (Hkeys e bunch He) as [Hint [key Hkey]].
    exists key. split; [done|]. split.
    + intros Hd Hin. apply (Hwr e bunch key Hin Hd); [|done].
      by eapply Hdirty.
    + intros Hclean ((k' & dc) & -> & Hin)%list_elem_of_fmap. simpl in *.
      destruct (Hsub _ _ Hin) as (e' & bu' & He' & Hd' & _ & Hke' & _).
      assert (e' = e) as ->.
      { eapply keyBuf_inj; [|done|exact Hke'|exact Hkey].
        eapply Hkeys, Hent, He'. }
      apply Hent in He'. congruence.
Qed.

(** The loop of [CheckCapacity] flushes the bunches it evicts, from the
    back of the recency list on. *)
Lemma CheckCapacity_loop_flushAll back self self' :
  lruList self = rev back → lru_ok self →
  CheckCapacity_loop back self = Ok self' →
  ∃ evs : list (Z * CoordsBunch),
    back = evs.*1 ++ rev (lruList self')
    ∧ (∀ e bu, (e, bu) ∈ evs → table self !! e = Some bu)
    ∧ flushAll evs (cache self) = Ok (cache self').
Proof.
  revert self. induction back as [|b back IH]; intros self Hl Hok Hloop.
  - simpl in Hloop. destruct (capacity self <? _); [done|]. simplify_eq.
    exists []. rewrite Hl. split; [done|]. split; [|done].
    by intros ?? ?%elem_of_nil.
  - simpl in Hloop. destruct (capacity self <? _) eqn:Hc.
    + inv_bind Hloop. rewrite CheckCapacity_body_eq in Ha.
      destruct (table self !! b) as [bunch|] eqn:Hb; [|done].
      inv_bind Ha. simplify_eq. rename a0 into c1.
      simpl in Hl. destruct Hok as [Hnd Hdom]. rewrite Hl in Hnd, Hdom.
      destruct (lru_ok_snoc_delete _ _ _ Hnd Hdom) as [Hnd' Hdom'].
      apply IH in Hloop as (evs & Hback & Hent & Hfl); [|done|by split].
      simpl in *. exists ((b, bunch) :: evs).
      split; [by rewrite fmap_cons, <- app_comm_cons, <- Hback|]. split.
      * intros e bu [[= -> ->]|He]%elem_of_cons; [done|].
        apply Hent in He. by apply lookup_delete_Some in He as [_ ?].
      * simpl. by rewrite Ha0.
    + simplify_eq. exists []. rewrite Hl, rev_involutive.
      split; [done|]. split; [|done]. by intros ?? ?%elem_of_nil.
Qed.

(** C4. (1) [CheckCapacity], from a state of the manager in which dirty
    bunches hold records, returns; every write it issues is the record
    of a dirty resident bunch; a dirty bunch it evicts is written, and
    the store holds its record afterwards; the key of a clean bunch is
    not written. (2) The same for [Close] and every resident bunch;
    [Close] leaves the table as it is and closes the store. *)
Theorem C4_dirty_written_clean_untouched :
  (∀ self,
     mgr_ok self → dirty_ok self →
     ∃ self' new,
       CheckCapacity self = Ok self'
       ∧ puts (cache self') = new ++ puts (cache self)
       ∧ (∀ key dc, (key, dc) ∈ new →
            ∃ e bunch, table self !! e = Some bunch ∧ needsWrite bunch = true
                       ∧ keyBuf e = Ok key ∧ dc = packNodes (coords bunch))
       ∧ (∀ e bunch, table self !! e = Some bunch →
            ∃ key, keyBuf e = Ok key
                   ∧ (needsWrite bunch = true → table self' !! e = None →
                      (key, packNodes (coords bunch)) ∈ new
                      ∧ db (cache self') !! key = Some (packNodes (coords bunch)))
                   ∧ (needsWrite bunch = false → key ∉ new.*1)))
  ∧ (∀ self,
       keys_ok self → dirty_ok self →
       ∃ self' new,
         Close self = Ok self'
         ∧ table self' = table self
         ∧ opened (cache self') = false
         ∧ puts (cache self') = new ++ puts (cache self)
         ∧ (∀ key dc, (key, dc) ∈ new →
              ∃ e bunch, table self !! e = Some bunch ∧ needsWrite bunch = true
                         ∧ keyBuf e = Ok key ∧ dc = packNodes (coords bunch))
         ∧ (∀ e bunch, table self !! e = Some bunch →
              ∃ key, keyBuf e = Ok key
                     ∧ (needsWrite bunch = true →
                        (key, packNodes (coords bunch)) ∈ new
                        ∧ db (cache self') !! key = Some (packNodes (coords bunch)))
                     ∧ (needsWrite bunch = false → key ∉ new.*1))).
Proof.
  split.
  - intros self Hm Hdirty.
    destruct (CheckCapacity_loop_mgr (rev (lruList self)) self)
      as (self' & Hloop & _); [by rewrite rev_involutive|done|].
    destruct Hm as (Hok & Hkeys & _).
    destruct (CheckCapacity_loop_flushAll _ _ _ (eq_sym (rev_involutive _)) Hok Hloop)
      as (evs & Hback & Hent & Hfl).
    pose proof (CheckCapacity_loop_lru _ _ _ (eq_sym (rev_involutive _)) Hok Hloop)
      as ([_ Hdom'] & _).
    assert (NoDup evs.*1) as Hnd.
    { destruct Hok as [Hnd _]. apply NoDup_ListNoDup, NoDup_rev in Hnd.
      apply NoDup_ListNoDup in Hnd. rewrite Hback in Hnd.
      by apply NoDup_app in Hnd as (? & _). }
    destruct (flushAll_table evs (table self) _ _ Hent Hnd Hkeys Hdirty Hfl)
      as (_ & new & Hputs & Hsub & Hall).
    exists self', new. split; [done|]. split; [done|]. split; [done|].
    intros e bunch He. destruct (Hall e bunch He) as (key & Hkey & Hwr & Hcl).
    exists key. split; [done|]. split; [|done].
    intros Hd Hev. apply Hwr; [done|].
    assert (e ∈ evs.*1) as ((e' & bu) & -> & Hin)%list_elem_of_fmap.
    { assert (e ∈ rev (lruList self)) as Hin.
      { apply elem_of_rev. apply Hok. eauto. }
      rewrite Hback in Hin. apply elem_of_app in Hin as [Hin|Hin]; [done|].
      apply elem_of_rev, Hdom' in Hin. rewrite Hev in Hin. by destruct Hin. }
    simpl in *. rewrite (Hent _ _ Hin) in He. by simplify_eq.
  - intros self Hkeys Hdirty. unfold Close. rewrite Close_loop_flushAll.
    assert (∀ e bu, (e, bu) ∈ map_to_list (table self) → table self !! e = Some bu)
      as Hent by (intros e bu; apply elem_of_map_to_list).
    destruct (flushAll_returns (map_to_list (table self)) (cache self)) as [c' Hfl].
    { apply Forall_forall. intros e ((e' & bu) & -> & Hin)%list_elem_of_fmap.
      eapply Hkeys, Hent, Hin. }
    rewrite Hfl. simpl.
    destruct (flushAll_table _ (table self) _ _ Hent
                (NoDup_fst_map_to_list _) Hkeys Hdirty Hfl)
      as (_ & new & Hputs & Hsub & Hall).
    eexists _, new. split; [done|]. simpl.
    split; [done|]. split; [done|]. split; [done|]. split; [done|].
    intros e bunch He. destruct (Hall e bunch He) as (key & Hkey & Hwr & Hcl).
    exists key. split; [done|]. split; [|done].
    intros Hd. apply Hwr; [done|]. by apply elem_of_map_to_list.
Qed.

(** Checking the state predicates on a concrete state, from the list of
    its table entries. *)
Lemma lru_ok_by_dom self :
  NoDup (lruList self) → dom (table self) = list_to_set (lruList self) →
  lru_ok self.
Proof.
  intros Hnd Hdom. split; [done|]. intros b.
  by rewrite <- elem_of_dom, Hdom, elem_of_list_to_set.
Qed.

Lemma keys_ok_by_list self :
  Forall (λ eb, key_range eb.1) (map_to_list (table self)) → keys_ok self.
Proof.
  intros Hall b bunch Hb. apply key_range_key_ok.
  rewrite Forall_forall in Hall. by apply (Hall (b, bunch)), elem_of_map_to_list.
Qed.

Lemma dirty_ok_by_list self :
  Forall (λ eb, coords eb.2 ≠ []) (map_to_list (table self)) → dirty_ok self.
Proof.
  intros Hall b bunch Hb _.
  rewrite Forall_forall in Hall. by apply (Hall (b, bunch)), elem_of_map_to_list.
Qed.

Lemma demo_table :
  map_to_list (table demo)
  = [(2, {| bunch_id := 2; coords := [mkNode 130 12 22]; needsWrite := true |});
     (1, {| bunch_id := 1; coords := [mkNode 65 11 21]; needsWrite := true |});
     (0, {| bunch_id := 0; coords := [mkNode 1 10 20]; needsWrite := true |})].
Proof. vm_compute. reflexivity. Qed.

Lemma demo_keys_ok : keys_ok demo.
Proof.
  apply keys_ok_by_list. rewrite demo_table.
  repeat constructor; unfold key_range; simpl; lia.
Qed.

Lemma demo_dirty_ok : dirty_ok demo.
Proof. apply dirty_ok_by_list. rewrite demo_table. by repeat constructor. Qed.

Lemma demo_lru_ok : lru_ok demo.
Proof.
  apply lru_ok_by_dom.
  - apply (bool_decide_unpack _). vm_compute. reflexivity.
  - vm_compute. reflexivity.
Qed.

Lemma C4_dirty_written_clean_untouched_witness :
  (∃ self' new, CheckCapacity demo_over = Ok self'
                ∧ puts (cache self') = new ++ puts (cache demo_over)
                ∧ ([0; 0; 0; 0; 0; 0; 0; 0], packNodes [mkNode 1 10 20]) ∈ new)
  ∧ (∃ self' new, Close demo = Ok self'
                  ∧ puts (cache self') = new ++ puts (cache demo)
                  ∧ ([2; 0; 0; 0; 0; 0; 0; 0], packNodes [mkNode 65 11 21]) ∈ new).
Proof.
  destruct C4_dirty_written_clean_untouched as [Hevict Hclose]. split.
  - destruct (Hevict demo_over) as (self' & new & Hcc & Hputs & _ & Hall).
    { split; [exact demo_lru_ok|]. split; [exact demo_keys_ok|].
      split; [|simpl; lia]. intros key dc. vm_compute. discriminate. }
    { exact demo_dirty_ok. }
    exists self', new. split; [done|]. split; [done|].
    destruct (Hall 0 {| bunch_id := 0; coords := [mkNode 1 10 20];
                        needsWrite := true |}) as (key & Hkey & Hwr & _);
      [reflexivity|].
    injection Hkey as <-. apply Hwr; [done|].
    assert (CheckCapacity demo_over
            = Ok {| cache := cache self'; lruList := [2; 1];
                    table := delete 0 (table demo);
                    freeNodes := [[mkNode 1 10 20]]; capacity := 2 |}) as Heq.
    { rewrite Hcc. f_equal. vm_compute in Hcc. by injection Hcc as <-. }
    rewrite Hcc in Heq. injection Heq as ->. reflexivity.
  - destruct (Hclose demo demo_keys_ok demo_dirty_ok)
      as (self' & new & Hcl & _ & _ & Hputs & _ & Hall).
    exists self', new. split; [done|]. split; [done|].
    destruct (Hall 1 {| bunch_id := 1; coords := [mkNode 65 11 21];
                        needsWrite := true |}) as (key & Hkey & Hwr & _);
      [reflexivity|].
    injection Hkey as <-. by apply Hwr.
Defined.

(** ** The records a state presents *)

Lemma WF_mgr_ok self : WF self → mgr_ok self.
Proof. intros (? & (? & ? & _) & ?). split; [done|]. split; [done|]. by split. Qed.

Lemma unpack3_int64 ids dLats dLons lastId lastLon lastLat nodes :
  unpack3 ids dLats dLons lastId lastLon lastLat = Ok nodes →
  Forall (λ nd, is_int64 (Id nd)) nodes.
Proof.
  revert dLats dLons lastId lastLon lastLat nodes.
  induction ids as [|d ids IH]; intros dLats dLons lastId lastLon lastLat nodes H.
  - simpl in H. simplify_eq. constructor.
  - simpl in H. destruct dLats as [|dlat dLats]; [done|].
    destruct dLons as [|dlon dLons]; [done|].
    inv_bind H. simplify_eq. constructor; [apply int64_range|].
    eapply IH, Ha.
Qed.

Lemma getCoordsPacked_int64 b buf p nodes :
  getCoordsPacked b buf p = Ok nodes → Forall (λ nd, is_int64 (Id nd)) nodes.
Proof.
  unfold getCoordsPacked. intros H. inv_bind H.
  destruct (db (cache p) !! a) as [dc|]; [|simplify_eq; constructor].
  rewrite unpackNodes_unpack3 in H. eapply unpack3_int64, H.
Qed.

Lemma fmap_Id_swapLL (l : list Node) : Id <$> (swapLL <$> l) = Id <$> l.
Proof. rewrite <- list_fmap_compose. by apply list_fmap_ext. Qed.

(** Flushing bunch [b] leaves what the store holds for another bunch. *)
Lemma flush_other b bunch c c1 b' :
  flush b bunch c = Ok c1 → key_ok b → is_int64 b' → b' ≠ b →
  ∀ p p1, cache p = c → cache p1 = c1 →
          getCoordsPacked b' [] p1 = getCoordsPacked b' [] p.
Proof.
  intros Hfl [Hb _] Hb' Hne p p1 Hp Hp1. unfold getCoordsPacked.
  destruct (keyBuf b') as [key'|] eqn:Hkey'; [simpl|done].
  rewrite Hp, Hp1. unfold flush in Hfl.
  assert (db c1 !! key' = db c !! key') as ->; [|done].
  destruct (needsWrite bunch); [|by injection Hfl as ->].
  destruct (coords bunch); [by injection Hfl as ->|].
  inv_bind Hfl. injection Hfl as <-. simpl.
  apply lookup_insert_ne. intros ->.
  apply Hne. by eapply keyBuf_inj.
Qed.

(** Flushing bunch [b] leaves the identifiers the cache presents for
    [b] itself: a clean bunch agrees with the store, and a dirty bunch
    is decoded with the identifiers it was encoded with. *)
Lemma flush_same b bunch c c1 :
  flush b bunch c = Ok c1 →
  (needsWrite bunch = true → coords bunch ≠ []) →
  Forall (λ nd, is_int64 (Id nd)) (coords bunch) →
  ∀ p p1, cache p = c → cache p1 = c1 →
          (needsWrite bunch = false → getCoordsPacked b [] p = Ok (coords bunch)) →
          rmap (fmap Id) (getCoordsPacked b [] p1) = Ok (Id <$> coords bunch).
Proof.
  intros Hfl Hdirty Hint p p1 <- <- Hclean. unfold flush in Hfl.
  destruct (needsWrite bunch) eqn:Hd.
  - destruct (coords bunch) as [|nd nodes] eqn:Hc; [by destruct Hdirty|].
    inv_bind Hfl. injection Hfl as Hc1. unfold getCoordsPacked.
    rewrite Ha, <- Hc1. simpl bind. simpl db. rewrite lookup_insert_eq.
    rewrite unpackNodes_packNodes by done. unfold rmap. simpl bind. f_equal.
    exact (fmap_Id_swapLL (nd :: nodes)).
  - injection Hfl as Hc1. rewrite (getCoordsPacked_cache b [] p1 p) by done.
    by rewrite Hclean.
Qed.

Lemma CheckCapacity_body_stored b back' self self1 :
  data_ok self → CheckCapacity_body b back' self = Ok self1 →
  data_ok self1 ∧ ∀ b', is_int64 b' → storedIds self1 b' = storedIds self b'.
Proof.
  intros (Hk & Hst & Hd & Hcl & Hint) H. rewrite CheckCapacity_body_eq in H.
  destruct (table self !! b) as [bunch|] eqn:Hb; [|done].
  inv_bind H. simplify_eq. rename a into c1.
  assert (∀ b' bu, delete b (table self) !! b' = Some bu →
                   b ≠ b' ∧ table self !! b' = Some bu) as Hdel.
  { intros b' bu. by rewrite lookup_delete_Some. }
  split; [split; [|split; [|split; [|split]]]|].
  - intros b' bu Hb'. simpl in Hb'. apply Hdel in Hb' as [_ Hb']. by eapply Hk.
  - by eapply flush_store_ok.
  - intros b' bu Hb'. simpl in Hb'. apply Hdel in Hb' as [_ Hb']. by eapply Hd.
  - intros b' bu Hb' Hclean. simpl in Hb'. apply Hdel in Hb' as [Hne Hb'].
    erewrite (flush_other b bunch _ c1 b' Ha); eauto.
    apply (Hk _ _ Hb').
  - intros b' bu Hb'. simpl in Hb'. apply Hdel in Hb' as [_ Hb']. by eapply Hint.
  - intros b' Hb'. unfold storedIds, stored. simpl.
    destruct (decide (b' = b)) as [->|Hne].
    + rewrite lookup_delete_eq, Hb. simpl.
      eapply (flush_same b bunch _ c1 Ha); eauto.
    + rewrite lookup_delete_ne by done.
      destruct (table self !! b'); [done|].
      erewrite (flush_other b bunch _ c1 b' Ha); eauto.
Qed.

Lemma CheckCapacity_loop_stored back self self' :
  data_ok self → CheckCapacity_loop back self = Ok self' →
  data_ok self' ∧ ∀ b', is_int64 b' → storedIds self' b' = storedIds self b'.
Proof.
  revert self. induction back as [|b back IH]; intros self Hd H; simpl in H.
  - destruct (capacity self <? _); [done|]. by simplify_eq.
  - destruct (capacity self <? _); [|by simplify_eq].
    inv_bind H. apply CheckCapacity_body_stored in Ha as [Hd1 Hs1]; [|done].
    apply IH in H as [Hd' Hs']; [|done]. split; [done|].
    intros b' Hb'. rewrite Hs' by done. by apply Hs1.
Qed.

(** [getBunch] keeps the state well-formed and leaves the identifiers
    the cache presents for every bunch; the bunch it returns holds the
    records the cache presented for it before the call. *)
Lemma getBunch_stored b self self' bunch :
  data_ok self → is_int64 b → getBunch b self = Ok (self', bunch) →
  data_ok self'
  ∧ (∀ b', is_int64 b' → storedIds self' b' = storedIds self b')
  ∧ stored self b = Ok (coords bunch)
  ∧ Forall (λ nd, is_int64 (Id nd)) (coords bunch)
  ∧ key_ok b.
Proof.
  intros Hd Hb H. rewrite getBunch_eq in H. unfold stored.
  destruct (table self !! b) as [bunch0|] eqn:Hlook.
  - inv_bind H. simplify_eq.
    apply CheckCapacity_loop_stored in Ha as [Hd' Hs']; [|done].
    destruct Hd as (Hk & _ & _ & _ & Hint).
    split; [done|]. split; [done|]. split; [done|]. split; [by eapply Hint|].
    by eapply Hk.
  - inv_bind H. rename a into nodes. inv_bind H. simplify_eq.
    assert (key_ok b) as Hkb.
    { split; [done|]. unfold getCoordsPacked in Ha.
      destruct (keyBuf b); [eauto|done]. }
    pose proof (getCoordsPacked_int64 _ _ _ _ Ha) as Hnodes.
    apply CheckCapacity_loop_stored in Ha0 as [Hd' Hs'].
    + split; [done|]. split; [|done].
      intros b' Hb'. rewrite Hs' by done. unfold storedIds, stored. simpl.
      destruct (decide (b' = b)) as [->|Hne].
      * rewrite lookup_insert_eq, Hlook. simpl.
        erewrite getCoordsPacked_cache, Ha; done.
      * rewrite lookup_insert_ne by done. by destruct (table self !! b').
    + destruct Hd as (Hk & Hst & Hdi & Hcl & Hint).
      split; [|split; [done|split; [|split]]].
      * intros x bx. simpl. rewrite lookup_insert. case_decide; [by intros; subst|].
        by apply Hk.
      * intros x bx. simpl. rewrite lookup_insert.
        case_decide; [by intros [= <-]|]. by apply Hdi.
      * intros x bx. simpl. rewrite lookup_insert. case_decide.
        -- intros [= <-] _. subst. simpl.
           erewrite getCoordsPacked_cache, Ha; done.
        -- intros Hx Hclean. erewrite getCoordsPacked_cache; [by apply Hcl|done].
      * intros x bx. simpl. rewrite lookup_insert.
        case_decide; [by intros [= <-]|]. by apply Hint.
Qed.

(** ** Sorting and searching *)

Lemma sift_Permutation x before : sift x before ≡ₚ x :: before.
Proof.
  induction before as [|y before IH]; simpl; [done|].
  destruct (Less x y); [|done]. rewrite IH. apply perm_swap.
Qed.

Lemma sift_descending x before : descending before → descending (sift x before).
Proof.
  unfold descending. induction 1 as [|y before Hs IH Hall]; simpl.
  - repeat constructor.
  - unfold Less. destruct (Z.ltb_spec (Id x) (Id y)).
    + constructor; [done|]. rewrite sift_Permutation.
      constructor; [simpl; lia|done].
    + constructor; [by constructor|].
      constructor; [simpl; lia|]. eapply Forall_impl; [exact Hall|].
      simpl. intros z Hz. lia.
Qed.

Lemma fold_sift s acc :
  descending acc →
  descending (fold_left (λ before x, sift x before) s acc)
  ∧ fold_left (λ before x, sift x before) s acc ≡ₚ s ++ acc.
Proof.
  revert acc. induction s as [|x s IH]; intros acc Hacc; simpl; [done|].
  destruct (IH (sift x acc) (sift_descending x acc Hacc)) as [Hd Hp].
  split; [done|]. rewrite Hp, sift_Permutation. by rewrite Permutation_middle.
Qed.

Lemma sort_Sort_Permutation s : sort_Sort s ≡ₚ s.
Proof.
  unfold sort_Sort. rewrite <- Permutation_rev.
  destruct (fold_sift s []) as [_ Hp]; [constructor|].
  by rewrite Hp, app_nil_r.
Qed.

Lemma descending_rev l : descending l → sortedIds (Id <$> rev l).
Proof.
  unfold descending, sortedIds. induction 1 as [|x l Hs IH Hall]; simpl.
  - constructor.
  - rewrite fmap_app. apply StronglySorted_app_2; [|done|repeat constructor].
    intros i j Hi Hj. apply list_elem_of_singleton in Hj as ->.
    apply list_elem_of_fmap in Hi as (y & -> & Hy).
    rewrite elem_of_rev in Hy. rewrite Forall_forall in Hall. by apply Hall.
Qed.

Lemma sort_Sort_sorted s : sortedIds (Id <$> sort_Sort s).
Proof.
  unfold sort_Sort. apply descending_rev.
  apply (fold_sift s []). constructor.
Qed.

(** [Search] returns the least index at which a monotone predicate
    holds, or [n] when there is none. *)
Lemma Search_loop_spec (n : nat) (f : nat → bool) :
  (∀ i j : nat, (i ≤ j < n)%nat → f i = true → f j = true) →
  ∀ (rounds i j : nat),
    (i ≤ j ≤ n)%nat → (j - i ≤ rounds)%nat →
    (∀ k : nat, (k < i)%nat → f k = false) →
    (∀ k : nat, (j ≤ k < n)%nat → f k = true) →
    let r := Search_loop rounds f i j in
    (r ≤ n)%nat ∧ (∀ k : nat, (k < r)%nat → f k = false)
    ∧ (∀ k : nat, (r ≤ k < n)%nat → f k = true).
Proof.
  intros Hmono. induction rounds as [|rounds IH]; intros i j Hij Hr Hlo Hhi;
    cbn [Search_loop]; cbv zeta.
  - assert (i = j) as -> by lia. split; [lia|]. by split.
  - destruct (Nat.ltb_spec i j) as [Hlt|Hge].
    + pose proof (Nat.div_mod_eq (i + j) 2) as Hdm.
      pose proof (Nat.mod_upper_bound (i + j) 2 ltac:(lia)) as Hmod.
      set (h := ((i + j) / 2)%nat) in *.
      assert (i ≤ h < j)%nat as Hh by lia.
      destruct (f h) eqn:Hfh; cbn [negb].
      * apply IH; [lia|lia|done|].
        intros k Hk. apply (Hmono h k); [lia|done].
      * apply IH; [lia|lia| |done].
        intros k Hk. destruct (f k) eqn:Hfk; [|done].
        rewrite (Hmono k h) in Hfh; [done|lia|done].
    + assert (i = j) as -> by lia. split; [lia|]. by split.
Qed.

Lemma Search_spec (n : nat) (f : nat → bool) :
  (∀ i j : nat, (i ≤ j < n)%nat → f i = true → f j = true) →
  (Search n f ≤ n)%nat
  ∧ (∀ k : nat, (k < Search n f)%nat → f k = false)
  ∧ (∀ k : nat, (Search n f ≤ k < n)%nat → f k = true).
Proof.
  intros Hmono. unfold Search.
  apply (Search_loop_spec n f Hmono n 0%nat n); [lia|lia| |].
  - intros k Hk. lia.
  - intros k Hk. lia.
Qed.

(** ** [GetCoord] *)

Lemma GetCoord_eq id self :
  GetCoord id self
  = do (self', bunch) <- getBunch (getBunchId id) self;
    Ok (self', findCoord id (coords bunch)).
Proof.
  unfold GetCoord, findCoord.
  destruct (getBunch (getBunchId id) self) as [[self' bunch]|]; [simpl|done].
  destruct (coords bunch !! _) as [nd|]; [|done].
  by destruct (Id nd =? id).
Qed.

Lemma findCoord_found id coords nd :
  findCoord id coords = (nd, true) → nd ∈ coords ∧ Id nd = id.
Proof.
  unfold findCoord. destruct (coords !! _) as [m|] eqn:Hm; [|done].
  destruct (Z.eqb_spec (Id m) id); [|done]. intros [= <-].
  split; [|done]. by eapply list_elem_of_lookup_2.
Qed.

Lemma findCoord_not_found id coords nd :
  findCoord id coords = (nd, false) → nd = zeroNode.
Proof.
  unfold findCoord. destruct (coords !! _) as [m|]; [|by intros [= <-]].
  destruct (Id m =? id); [done|by intros [= <-]].
Qed.

Lemma sortedIds_lookup_le (ids : list Z) (i j : nat) (a b : Z) :
  sortedIds ids → (i ≤ j)%nat → ids !! i = Some a → ids !! j = Some b → a ≤ b.
Proof.
  unfold sortedIds. intros Hs. revert i j.
  induction Hs as [|x ids Hs IH Hall]; intros i j Hij Hi Hj; [done|].
  destruct i as [|i], j as [|j]; simpl in *; try lia.
  - simplify_eq. lia.
  - simplify_eq. rewrite Forall_forall in Hall.
    apply Hall. by eapply list_elem_of_lookup_2.
  - apply (IH i j); [lia|done..].
Qed.

(** On a sequence in ascending order of identifiers the search finds a
    record of an identifier that occurs. *)
Lemma findCoord_sorted id coords :
  sortedIds (Id <$> coords) → id ∈ Id <$> coords →
  ∃ nd, findCoord id coords = (nd, true) ∧ nd ∈ coords ∧ Id nd = id.
Proof.
  intros Hs Hin. apply list_elem_of_fmap in Hin as (n & -> & Hn).
  apply list_elem_of_lookup_1 in Hn as [k Hk].
  set (f := λ i : nat, Id (nth i coords zeroNode) >=? Id n).
  assert (∀ (i : nat) m, coords !! i = Some m → f i = (Id n <=? Id m)) as Hf.
  { intros i m Hi. unfold f. rewrite (nth_lookup_Some _ _ _ _ Hi).
    rewrite Z.geb_leb. done. }
  destruct (Search_spec (length coords) f) as (Hle & Hlo & Hhi).
  { intros i j Hij Hfi.
    destruct (lookup_lt_is_Some_2 coords i ltac:(lia)) as [mi Hmi].
    destruct (lookup_lt_is_Some_2 coords j ltac:(lia)) as [mj Hmj].
    rewrite (Hf _ _ Hmi) in Hfi. rewrite (Hf _ _ Hmj).
    apply Z.leb_le in Hfi. apply Z.leb_le.
    pose proof (sortedIds_lookup_le (Id <$> coords) i j (Id mi) (Id mj) Hs
                  ltac:(lia)) as Hle'.
    rewrite !list_lookup_fmap, Hmi, Hmj in Hle'. specialize (Hle' eq_refl eq_refl).
    lia. }
  pose proof (lookup_lt_Some _ _ _ Hk) as Hklt.
  assert (Search (length coords) f ≤ k)%nat as Hrk.
  { destruct (Nat.le_gt_cases (Search (length coords) f) k) as [|Hgt]; [done|].
    apply Hlo in Hgt. rewrite (Hf _ _ Hk) in Hgt.
    apply Z.leb_gt in Hgt. lia. }
  destruct (lookup_lt_is_Some_2 coords (Search (length coords) f) ltac:(lia))
    as [m Hm].
  assert (Id n ≤ Id m) as H1.
  { specialize (Hhi (Search (length coords) f) ltac:(lia)).
    rewrite (Hf _ _ Hm) in Hhi. by apply Z.leb_le. }
  assert (Id m ≤ Id n) as H2.
  { pose proof (sortedIds_lookup_le (Id <$> coords) _ k (Id m) (Id n) Hs Hrk) as H.
    rewrite !list_lookup_fmap, Hm, Hk in H. by apply H. }
  exists m. unfold findCoord. fold f. rewrite Hm.
  destruct (Z.eqb_spec (Id m) (Id n)); [|lia].
  split; [done|]. split; [by eapply list_elem_of_lookup_2|done].
Qed.

Lemma findCoord_absent id coords :
  id ∉ Id <$> coords → findCoord id coords = (zeroNode, false).
Proof.
  intros Hnin. destruct (findCoord id coords) as [nd [|]] eqn:Hf.
  - apply findCoord_found in Hf as [Hin <-]. destruct Hnin.
    apply list_elem_of_fmap. eauto.
  - by apply findCoord_not_found in Hf as ->.
Qed.

(** With one record per identifier, the record found is the record of
    that identifier. *)
Lemma findCoord_unique nd coords :
  sortedIds (Id <$> coords) → NoDup (Id <$> coords) → nd ∈ coords →
  findCoord (Id nd) coords = (nd, true).
Proof.
  intros Hs Hnd Hin.
  destruct (findCoord_sorted (Id nd) coords Hs) as (m & Hf & Hm & Hid).
  { apply list_elem_of_fmap. eauto. }
  rewrite Hf. f_equal.
  apply list_elem_of_lookup_1 in Hm as [i Hi].
  apply list_elem_of_lookup_1 in Hin as [j Hj].
  assert (i = j) as ->; [|congruence].
  eapply NoDup_lookup; [exact Hnd| |]; rewrite list_lookup_fmap.
  - by rewrite Hi.
  - rewrite Hj. simpl. by rewrite Hid.
Qed.

(** ** [PutCoords] as a sequence of runs *)

Lemma bind_ret {A : Type} (m : result A) : (do a <- m; Ok a) = m.
Proof. by destruct m. Qed.

Lemma bind_assoc {A B C : Type} (m : result A) (f : A → result B)
    (g : B → result C) :
  bind (bind m f) g = bind m (λ a, bind (f a) g).
Proof. by destruct m. Qed.

Lemma slice_snoc {A : Type} (l : list A) (start i : nat) (x : A) :
  (start ≤ i)%nat → l !! i = Some x →
  slice l start (S i) = slice l start i ++ [x].
Proof.
  intros Hle Hi. unfold slice.
  rewrite (take_S_r _ _ _ Hi), drop_app_le; [done|].
  rewrite length_take. apply lookup_lt_Some in Hi. lia.
Qed.

Lemma slice_one {A : Type} (l : list A) (i : nat) (x : A) :
  l !! i = Some x → slice l i (S i) = [x].
Proof.
  intros Hi. rewrite (slice_snoc l i i x) by done. unfold slice.
  rewrite drop_ge; [done|]. rewrite length_take. lia.
Qed.

Lemma PutCoords_loop_runs rest nodes (i start : nat) cur self :
  (start ≤ i)%nat → drop i nodes = rest →
  (do (s, st, c) <- PutCoords_loop nodes rest i start cur self;
   putRun c (drop st nodes) s)
  = putRuns (runs_from cur (slice nodes start i) rest) self.
Proof.
  revert i start cur self.
  induction rest as [|nd rest IH]; intros i start cur self Hle Hdrop; simpl.
  - rewrite bind_ret. f_equal. unfold slice.
    rewrite take_ge; [done|].
    destruct (Nat.le_gt_cases (length nodes) i) as [|Hlt]; [done|].
    apply (f_equal length) in Hdrop. rewrite length_drop in Hdrop.
    simpl in Hdrop. lia.
  - assert (nodes !! i = Some nd) as Hi.
    { rewrite <- (Nat.add_0_r i), <- lookup_drop, Hdrop. done. }
    assert (drop (S i) nodes = rest) as Hdrop'.
    { rewrite (drop_S _ _ _ Hi) in Hdrop. by injection Hdrop. }
    destruct (decide (getBunchId (Id nd) ≠ cur)).
    + rewrite bind_assoc. simpl.
      destruct (putRun cur (slice nodes start i) self) as [s1|]; [simpl|done].
      rewrite (IH (S i) i) by (done || lia). by rewrite (slice_one nodes i nd).
    + rewrite (IH (S i) start) by (done || lia).
      by rewrite (slice_snoc nodes start i nd).
Qed.

Lemma PutCoords_runs n0 rest self :
  PutCoords (n0 :: rest) self = putRuns (runs (n0 :: rest)) self.
Proof.
  unfold PutCoords. simpl.
  rewrite decide_False by (intros H; by apply H).
  pose proof (PutCoords_loop_runs rest (n0 :: rest) 1%nat 0%nat
                (getBunchId (Id n0)) self ltac:(lia) eq_refl) as H.
  unfold slice in H. simpl in H. rewrite take_0 in H.
  rewrite <- H. done.
Qed.

Lemma runs_from_concat cur acc rest :
  concat (runs_from cur acc rest).*2 = acc ++ rest.
Proof.
  revert cur acc. induction rest as [|nd rest IH]; intros cur acc; simpl.
  - by rewrite !app_nil_r.
  - destruct (decide (getBunchId (Id nd) ≠ cur)); simpl; rewrite IH.
    + done.
    + by rewrite <- app_assoc.
Qed.

Lemma runs_from_bunch cur acc rest :
  Forall (λ nd, getBunchId (Id nd) = cur) acc →
  Forall (λ r, Forall (λ nd, getBunchId (Id nd) = r.1) r.2)
    (runs_from cur acc rest).
Proof.
  revert cur acc. induction rest as [|nd rest IH]; intros cur acc Hacc; simpl.
  - by repeat constructor.
  - destruct (decide (getBunchId (Id nd) ≠ cur)) as [|Heq].
    + constructor; [done|]. apply IH. by repeat constructor.
    + apply IH. apply Forall_app. split; [done|].
      repeat constructor. by destruct (decide (getBunchId (Id nd) = cur)).
Qed.

Lemma runs_from_nonempty cur acc rest :
  acc ≠ [] → Forall (λ r, r.2 ≠ []) (runs_from cur acc rest).
Proof.
  revert cur acc. induction rest as [|nd rest IH]; intros cur acc Hacc; simpl.
  - by repeat constructor.
  - destruct (decide (getBunchId (Id nd) ≠ cur)).
    + constructor; [done|]. by apply IH.
    + apply IH. by destruct acc.
Qed.

(** ** Well-formed states *)

Lemma WF_getBunch b self self' bunch :
  WF self → is_int64 b → getBunch b self = Ok (self', bunch) → WF self'.
Proof.
  intros (Hok & Hd & Hc) Hb H.
  pose proof (getBunch_lru b self self' bunch Hok H) as (Hok' & _ & Hc' & _).
  pose proof (getBunch_stored b self self' bunch Hd Hb H) as (Hd' & _).
  split; [done|]. split; [done|]. by rewrite Hc'.
Qed.

(** What [putRun] does. The bunch is acquired, so the recency list
    changes as for [getBunch]. When the bunch is resident after the
    acquisition (always, with a capacity of at least one bunch), it
    holds the previous records and the run, sorted, and is dirty;
    otherwise it was evicted at once and the run is dropped. The other
    bunches present the identifiers they presented before. *)
Lemma putRun_spec b run self self' :
  WF self → is_int64 b → run ≠ [] → Forall (λ nd, is_int64 (Id nd)) run →
  putRun b run self = Ok self' →
  ∃ old,
    stored self b = Ok old
    ∧ WF self' ∧ capacity self' = capacity self
    ∧ lruList self'
      = take (Z.to_nat (capacity self)) (b :: filter (λ x, x ≠ b) (lruList self))
    ∧ (∀ x, x ∈ lruList self' → x ≠ b → table self' !! x = table self !! x)
    ∧ (∀ b', is_int64 b' → b' ≠ b → storedIds self' b' = storedIds self b')
    ∧ ((table self' !! b = None ∧ storedIds self' b = storedIds self b)
       ∨ (∃ bunch', table self' !! b = Some bunch'
                    ∧ coords bunch' = sort_Sort (old ++ run)
                    ∧ needsWrite bunch' = true))
    ∧ (1 ≤ capacity self → b ∈ lruList self').
Proof.
  intros (Hok & Hd & Hc) Hb Hrun Hint H. unfold putRun in H.
  inv_bind H. destruct a as [self1 bunch]. injection H as <-.
  pose proof (getBunch_lru b self self1 bunch Hok Ha)
    as (Hok1 & Hl1 & Hc1 & Hs1 & Htab1 & Hres1).
  pose proof (getBunch_stored b self self1 bunch Hd Hb Ha)
    as (Hd1 & Hids1 & Hold & Hintold & Hkb).
  set (bunch' := {| bunch_id := bunch_id bunch;
                    coords := sort_Sort (coords bunch ++ run);
                    needsWrite := true |}).
  exists (coords bunch). split; [done|].
  assert (∀ x, is_Some (alter (λ _, bunch') b (table self1) !! x)
               ↔ is_Some (table self1 !! x)) as Hdom.
  { intros x. apply lookup_alter_is_Some. }
  assert (∀ x, x ≠ b → alter (λ _, bunch') b (table self1) !! x
                       = table self1 !! x) as Hne.
  { intros x Hx. by apply lookup_alter_ne. }
  destruct Hd1 as (Hk1 & Hst1 & Hdi1 & Hcl1 & Hint1).
  split; [split; [|split; [split; [|split; [|split; [|split]]]|]]|].
  - destruct Hok1 as [Hnd1 Hdom1]. split; [done|]. intros x. simpl.
    by rewrite Hdom, Hdom1.
  - intros x bx Hx. simpl in Hx.
    assert (is_Some (table self1 !! x)) as [bx' Hx'] by (apply Hdom; eauto).
    by eapply Hk1.
  - done.
  - intros x bx Hx. simpl in Hx. destruct (decide (x = b)) as [->|Hxb].
    + rewrite lookup_alter_eq in Hx.
      destruct (table self1 !! b); [|done]. injection Hx as <-. intros _. simpl.
      intros Hnil. apply (f_equal length) in Hnil.
      rewrite sort_Sort_Permutation, length_app in Hnil.
      destruct run; [done|]. simpl in Hnil. lia.
    + rewrite Hne in Hx by done. by eapply Hdi1.
  - intros x bx Hx. simpl in Hx. destruct (decide (x = b)) as [->|Hxb].
    + rewrite lookup_alter_eq in Hx.
      destruct (table self1 !! b); [|done]. by injection Hx as <-.
    + rewrite Hne in Hx by done. intros Hclean.
      erewrite getCoordsPacked_cache; [by eapply Hcl1|done].
  - intros x bx Hx. simpl in Hx. destruct (decide (x = b)) as [->|Hxb].
    + rewrite lookup_alter_eq in Hx.
      destruct (table self1 !! b); [|done]. injection Hx as <-. simpl.
      rewrite sort_Sort_Permutation. apply Forall_app. by split.
    + rewrite Hne in Hx by done. by eapply Hint1.
  - simpl. by rewrite Hc1.
  - split; [done|]. split; [done|]. split; [|split; [|split]].
    + intros x Hx Hxb. simpl. rewrite Hne by done. by apply Htab1.
    + intros x Hx Hxb. rewrite <- Hids1 by done.
      unfold storedIds, stored. simpl. rewrite Hne by done.
      destruct (table self1 !! x); [done|].
      by erewrite getCoordsPacked_cache.
    + simpl. rewrite lookup_alter_eq.
      destruct (table self1 !! b) as [bu|] eqn:Hb1; simpl.
      * right. by exists bunch'.
      * left. split; [done|]. rewrite <- Hids1 by done.
        unfold storedIds, stored. simpl. rewrite lookup_alter_eq, Hb1. simpl.
        by erewrite getCoordsPacked_cache.
    + intros Hcap. simpl. rewrite Hl1.
      destruct (Z.to_nat (capacity self)) as [|n] eqn:Hn; [lia|].
      simpl. by left.
Qed.

Lemma putRun_returns b run self :
  WF self → key_ok b → ∃ self', putRun b run self = Ok self'.
Proof.
  intros Hwf Hb. unfold putRun.
  destruct (getBunch_mgr b self (WF_mgr_ok _ Hwf) Hb) as (self1 & bunch & -> & _).
  simpl. eauto.
Qed.

Lemma run_ok_int64 b run :
  run_ok (b, run) → Forall (λ nd, is_int64 (Id nd)) run.
Proof.
  intros (_ & _ & Hall). eapply Forall_impl; [exact Hall|]. by intros nd [? _].
Qed.

Lemma storedIds_resident self b bunch :
  table self !! b = Some bunch → storedIds self b = Ok (Id <$> coords bunch).
Proof. intros H. unfold storedIds, stored. by rewrite H. Qed.

Lemma storedIds_stored self b old :
  stored self b = Ok old → storedIds self b = Ok (Id <$> old).
Proof. intros H. unfold storedIds. by rewrite H. Qed.

Lemma putRun_sorted b run self self' :
  WF self → bunches_sorted self → run_ok (b, run) →
  putRun b run self = Ok self' →
  WF self' ∧ bunches_sorted self' ∧ capacity self' = capacity self.
Proof.
  intros Hwf Hs Hr H. pose proof (run_ok_int64 _ _ Hr) as Hint.
  destruct Hr as (Hne & Hb & _). simpl in *.
  destruct (putRun_spec b run self self' Hwf Hb Hne Hint H)
    as (old & Hold & Hwf' & Hcap & _ & _ & Hother & Hsame & _).
  split; [done|]. split; [|done]. intros b' ids Hb' Hids.
  destruct (decide (b' = b)) as [->|Hbb].
  - destruct Hsame as [[_ Heq]|(bunch' & Hlook & Hc & _)].
    + rewrite Heq in Hids. by eapply Hs.
    + rewrite (storedIds_resident _ _ _ Hlook), Hc in Hids.
      injection Hids as <-. apply sort_Sort_sorted.
  - rewrite Hother in Hids by done. by eapply Hs.
Qed.

Lemma putRun_unique b run later self self' :
  WF self → bunches_unique self → run_ok (b, run) →
  Forall (λ nd, is_int64 (Id nd)) later →
  NoDup (Id <$> run ++ later) → unseen self (run ++ later) →
  putRun b run self = Ok self' →
  bunches_unique self' ∧ unseen self' later.
Proof.
  intros Hwf Hu Hr Hlater Hnd Hun H. pose proof (run_ok_int64 _ _ Hr) as Hint.
  destruct Hr as (Hne & Hb & Hrun). simpl in *.
  destruct (putRun_spec b run self self' Hwf Hb Hne Hint H)
    as (old & Hold & Hwf' & Hcap & _ & _ & Hother & Hsame & _).
  apply storedIds_stored in Hold.
  rewrite fmap_app in Hnd. apply NoDup_app in Hnd as (Hndrun & Hdisj & Hndlater).
  assert (∀ bunch', coords bunch' = sort_Sort (old ++ run) →
                    Id <$> coords bunch' ≡ₚ (Id <$> old) ++ (Id <$> run)) as Hperm.
  { intros bunch' ->. by rewrite sort_Sort_Permutation, fmap_app. }
  split.
  - intros b' ids Hb' Hids. destruct (decide (b' = b)) as [->|Hbb].
    + destruct Hsame as [[_ Heq]|(bunch' & Hlook & Hc & _)].
      * rewrite Heq in Hids. by eapply Hu.
      * rewrite (storedIds_resident _ _ _ Hlook) in Hids. injection Hids as <-.
        rewrite (Hperm _ Hc). apply NoDup_app.
        split; [by eapply Hu|]. split; [|done].
        intros x Hx (nd & -> & Hin)%list_elem_of_fmap.
        rewrite Forall_forall in Hrun. destruct (Hrun nd Hin) as [_ Hbnd].
        eapply (Hun nd (Id <$> old)); [by apply elem_of_app; left| |done].
        by rewrite Hbnd.
    + rewrite Hother in Hids by done. by eapply Hu.
  - intros nd ids Hin Hids.
    assert (nd ∈ run ++ later) as Hin' by (apply elem_of_app; by right).
    assert (is_int64 (getBunchId (Id nd))) as Hbnd.
    { rewrite Forall_forall in Hlater. by apply getBunchId_int64, Hlater. }
    destruct (decide (getBunchId (Id nd) = b)) as [Heq|Hbb].
    + rewrite Heq in Hids.
      destruct Hsame as [[_ Hsame]|(bunch' & Hlook & Hc & _)].
      * rewrite Hsame in Hids. apply (Hun nd ids Hin'). by rewrite Heq.
      * rewrite (storedIds_resident _ _ _ Hlook) in Hids. injection Hids as <-.
        rewrite (Hperm _ Hc). apply not_elem_of_app. split.
        -- apply (Hun nd (Id <$> old) Hin'). by rewrite Heq.
        -- intros Hx. apply (Hdisj (Id nd) Hx).
           apply list_elem_of_fmap. eauto.
    + rewrite Hother in Hids by done. by apply (Hun nd ids Hin').
Qed.

Lemma putRuns_inv rs self self' :
  WF self → bunches_sorted self → Forall run_ok rs →
  putRuns rs self = Ok self' →
  WF self' ∧ bunches_sorted self' ∧ capacity self' = capacity self
  ∧ (bunches_unique self → NoDup (Id <$> concat rs.*2) →
     unseen self (concat rs.*2) → bunches_unique self').
Proof.
  intros Hwf Hs Hrs. revert self Hwf Hs.
  induction Hrs as [|[b run] rs Hr Hrs IH]; intros self Hwf Hs H; simpl in H.
  - by simplify_eq.
  - inv_bind H. rename a into self1.
    destruct (putRun_sorted b run self self1 Hwf Hs Hr Ha) as (Hwf1 & Hs1 & Hc1).
    destruct (IH self1 Hwf1 Hs1 H) as (Hwf' & Hs' & Hc' & Hu').
    split; [done|]. split; [done|]. split; [congruence|].
    intros Hu Hnd Hun. simpl in Hnd, Hun.
    destruct (putRun_unique b run (concat rs.*2) self self1 Hwf Hu Hr)
      as [Hu1 Hun1]; try done.
    + apply Forall_concat, Forall_fmap. eapply Forall_impl; [exact Hrs|].
      intros r Hrok. by apply (run_ok_int64 r.1 r.2); destruct r.
    + apply Hu'; [done| |done].
      rewrite fmap_app in Hnd. by apply NoDup_app in Hnd as (_ & _ & ?).
Qed.

Lemma putRuns_returns rs self :
  WF self → Forall (λ r, key_ok r.1 ∧ run_ok r) rs →
  ∃ self', putRuns rs self = Ok self'.
Proof.
  intros Hwf Hrs. revert self Hwf.
  induction Hrs as [|[b run] rs [Hk Hr] _ IH]; intros self Hwf; simpl; [eauto|].
  destruct (putRun_returns b run self Hwf Hk) as [self1 H1]. rewrite H1. simpl.
  apply IH. pose proof (run_ok_int64 _ _ Hr) as Hint.
  destruct Hr as (Hne & Hb & _).
  by destruct (putRun_spec b run self self1 Hwf Hb Hne Hint H1) as (_ & _ & ? & _).
Qed.

(** ** Bunches that stay resident *)

Lemma length_le_size (d : list Z) (T : gset Z) :
  NoDup d → (∀ x, x ∈ d → x ∈ T) → (length d ≤ size T)%nat.
Proof.
  intros Hnd Hsub. rewrite <- (size_list_to_set (C := gset Z) d) by done.
  apply subseteq_size. intros x Hx. apply Hsub. by apply elem_of_list_to_set in Hx.
Qed.

(** When the runs fall into no more bunches than the capacity, the
    bunches a [PutCoords] has touched are at the front of the recency
    list and are not evicted by the runs that follow: every record
    stored is in the resident bunch of its identifier at the end. *)
Lemma putRuns_resident rs (T : gset Z) :
  ∀ self self' (d rest : list Z) (done : list Node),
    WF self → 1 ≤ capacity self → Forall run_ok rs →
    Z.of_nat (size T) ≤ capacity self →
    (∀ r, r ∈ rs → r.1 ∈ T) → (∀ x, x ∈ d → x ∈ T) →
    lruList self = d ++ rest →
    (∀ nd, nd ∈ done →
       getBunchId (Id nd) ∈ d
       ∧ ∃ bunch, table self !! getBunchId (Id nd) = Some bunch
                  ∧ nd ∈ coords bunch) →
    putRuns rs self = Ok self' →
    ∀ nd, nd ∈ done ++ concat rs.*2 →
          ∃ bunch, table self' !! getBunchId (Id nd) = Some bunch
                   ∧ nd ∈ coords bunch.
Proof.
  induction rs as [|[b run] rs IH];
    intros self self' d rest done Hwf Hcap Hrs HT HrsT HdT Hl Hdone H; simpl in H.
  - simplify_eq. intros nd Hnd. simpl in Hnd. rewrite app_nil_r in Hnd.
    by apply Hdone.
  - inv_bind H. rename a into self1.
    apply Forall_cons in Hrs as [Hr Hrs].
    pose proof (run_ok_int64 _ _ Hr) as Hint.
    destruct Hr as (Hne & Hb & Hrun). simpl in *.
    destruct (putRun_spec b run self self1 Hwf Hb Hne Hint Ha)
      as (old & Hold & Hwf1 & Hc1 & Hl1 & Hkeep & _ & Hsame & Hfront).
    specialize (Hfront Hcap).
    assert (∃ bunch', table self1 !! b = Some bunch'
                      ∧ coords bunch' = sort_Sort (old ++ run))
      as (bunch' & Hlook' & Hcoords').
    { destruct Hsame as [[Hnone _]|(bunch' & ? & ? & _)]; [|eauto].
      destruct Hwf1 as ([_ Hdom1] & _). apply Hdom1 in Hfront.
      rewrite Hnone in Hfront. by destruct Hfront. }
    assert (NoDup (d ++ rest)) as Hnd.
    { destruct Hwf as ([Hnd _] & _). by rewrite <- Hl. }
    set (d1 := b :: filter (λ x, x ≠ b) d).
    assert (NoDup d1) as Hnd1.
    { apply NoDup_cons. split.
      - rewrite list_elem_of_filter. by intros [? _].
      - apply NoDup_filter. by apply NoDup_app in Hnd as (? & _). }
    assert (∀ x, x ∈ d1 → x ∈ T) as Hd1T.
    { intros x [->|Hx]%elem_of_cons.
      - apply (HrsT (b, run)). by left.
      - apply list_elem_of_filter in Hx as [_ Hx]. by apply HdT. }
    assert (lruList self1
            = d1 ++ take (Z.to_nat (capacity self) - length d1)
                      (filter (λ x, x ≠ b) rest)) as Hl1'.
    { rewrite Hl1, Hl, filter_app, (app_comm_cons _ _ b). fold d1.
      rewrite take_app. f_equal. apply take_ge.
      pose proof (length_le_size d1 T Hnd1 Hd1T). lia. }
    intros nd0 Hin0. simpl in Hin0. rewrite app_assoc in Hin0. revert nd0 Hin0.
    eapply (IH self1 self' d1 _ (done ++ run)); try done.
    + lia.
    + lia.
    + intros r Hr. apply HrsT. by right.
    + intros nd [Hin|Hin]%elem_of_app.
      * destruct (Hdone nd Hin) as (Hd & bunch & Hlook & Hmem).
        destruct (decide (getBunchId (Id nd) = b)) as [Heq|Hneq].
        -- rewrite Heq in *. split; [by left|].
           exists bunch'. split; [done|]. rewrite Hcoords'.
           rewrite sort_Sort_Permutation. apply elem_of_app. left.
           unfold stored in Hold. rewrite Hlook in Hold. by injection Hold as <-.
        -- assert (getBunchId (Id nd) ∈ d1) as Hd1.
           { right. by apply list_elem_of_filter. }
           split; [done|]. exists bunch. split; [|done].
           rewrite Hkeep; [done| |done]. rewrite Hl1'. apply elem_of_app. by left.
      * rewrite Forall_forall in Hrun. destruct (Hrun nd Hin) as [_ Heq].
        rewrite Heq. split; [by left|].
        exists bunch'. split; [done|]. rewrite Hcoords'.
        rewrite sort_Sort_Permutation. apply elem_of_app. by right.
Qed.

(** ** The runs of a well-formed input *)

Lemma id_ok_int64 id : key_range (getBunchId id) → is_int64 id.
Proof.
  unfold key_range, getBunchId, is_int64. intros H.
  pose proof (Z.quot_rem' id 64) as Hqr.
  pose proof (Z.rem_bound_abs id 64 ltac:(lia)) as Hr. lia.
Qed.

Lemma runs_from_ok cur acc rest :
  acc ≠ [] → is_int64 cur →
  Forall (λ nd, is_int64 (Id nd) ∧ getBunchId (Id nd) = cur) acc →
  Forall (λ nd, is_int64 (Id nd)) rest →
  Forall run_ok (runs_from cur acc rest).
Proof.
  intros Hacc Hcur Hall Hrest. revert cur acc Hacc Hcur Hall.
  induction Hrest as [|nd rest Hnd _ IH]; intros cur acc Hacc Hcur Hall; simpl.
  - constructor; [|constructor]. split; [done|]. by split.
  - destruct (decide (getBunchId (Id nd) ≠ cur)) as [|Heq].
    + constructor; [split; [done|by split]|].
      apply IH; [done|by apply getBunchId_int64|].
      constructor; [by split|constructor].
    + apply IH; [by destruct acc|done|]. apply Forall_app. split; [done|].
      constructor; [|constructor]. split; [done|].
      by destruct (decide (getBunchId (Id nd) = cur)).
Qed.

Lemma runs_ok nodes :
  Forall (λ nd, is_int64 (Id nd)) nodes → Forall run_ok (runs nodes).
Proof.
  intros Hall. destruct Hall as [|n0 rest Hn0 Hrest]; simpl; [constructor|].
  apply runs_from_ok; [done|by apply getBunchId_int64| |done].
  constructor; [by split|constructor].
Qed.

Lemma runs_concat nodes : concat (runs nodes).*2 = nodes.
Proof. destruct nodes as [|n0 rest]; [done|]. simpl. apply runs_from_concat. Qed.

Lemma elem_of_concat {A : Type} (x : A) (ls : list (list A)) :
  x ∈ concat ls ↔ ∃ l, l ∈ ls ∧ x ∈ l.
Proof.
  rewrite list_elem_of_In, in_concat. split; intros (l & Hl & Hx); exists l.
  - by rewrite !list_elem_of_In.
  - by rewrite <- !list_elem_of_In.
Qed.

(** The bunch of a run is the bunch of one of its records. *)
Lemma run_ok_member rs r :
  Forall run_ok rs → r ∈ rs →
  ∃ nd, nd ∈ concat rs.*2 ∧ getBunchId (Id nd) = r.1.
Proof.
  intros Hrs Hr. rewrite Forall_forall in Hrs.
  destruct (Hrs r Hr) as (Hne & _ & Hall). destruct r as [b [|nd run]]; [done|].
  apply Forall_cons in Hall as [[_ Hb] _]. exists nd. split; [|done].
  apply elem_of_concat. exists (nd :: run). split; [|by left].
  apply list_elem_of_fmap. by exists (b, nd :: run).
Qed.

Lemma runs_key_ok rs :
  Forall run_ok rs →
  Forall (λ nd, key_range (getBunchId (Id nd))) (concat rs.*2) →
  Forall (λ r, key_ok r.1 ∧ run_ok r) rs.
Proof.
  intros Hrs Hkeys. apply Forall_forall. intros r Hr.
  split; [|by rewrite Forall_forall in Hrs; apply Hrs].
  destruct (run_ok_member rs r Hrs Hr) as (nd & Hin & <-).
  apply key_range_key_ok. rewrite Forall_forall in Hkeys. by apply Hkeys.
Qed.

(** ** The invariant of the bunches *)

Lemma GetCoord_inv id self self' r :
  WF self → is_int64 id → GetCoord id self = Ok (self', r) →
  WF self'
  ∧ (∀ b, is_int64 b → storedIds self' b = storedIds self b)
  ∧ ∃ old, stored self (getBunchId id) = Ok old ∧ r = findCoord id old.
Proof.
  intros Hwf Hid H. rewrite GetCoord_eq in H. inv_bind H.
  destruct a as [self1 bunch]. simplify_eq.
  pose proof (getBunchId_int64 id Hid) as Hb.
  split; [by eapply WF_getBunch|].
  destruct Hwf as (_ & Hd & _).
  destruct (getBunch_stored _ _ _ _ Hd Hb Ha) as (_ & Hids & Hold & _).
  split; [done|]. eauto.
Qed.

Lemma WF_emptyCache store cap :
  (∀ key dc, store !! key = Some dc →
     (length (Ids dc) ≤ length (Lats dc) ∧ length (Ids dc) ≤ length (Lons dc))%nat) →
  0 ≤ cap → WF (emptyCache store cap).
Proof.
  intros Hst Hc. destruct (mgr_ok_emptyCache store cap Hst Hc) as (Hok & Hk & _).
  split; [done|]. split; [|done].
  split; [done|]. split; [done|].
  split; [|split]; intros b bunch; simpl; by rewrite lookup_empty.
Qed.

Lemma storedIds_empty cap b ids :
  storedIds (emptyCache ∅ cap) b = Ok ids → ids = [].
Proof.
  unfold storedIds, stored, getCoordsPacked. simpl. rewrite lookup_empty.
  destruct (keyBuf b); simpl; [|done]. rewrite lookup_empty. by intros [= <-].
Qed.

Lemma emptyCache_inv cap nodes :
  0 ≤ cap →
  WF (emptyCache ∅ cap) ∧ bunches_sorted (emptyCache ∅ cap)
  ∧ bunches_unique (emptyCache ∅ cap) ∧ unseen (emptyCache ∅ cap) nodes.
Proof.
  intros Hc. split; [|split; [|split]].
  - apply WF_emptyCache; [|done]. intros key dc. by rewrite lookup_empty.
  - intros b ids _ ->%storedIds_empty. constructor.
  - intros b ids _ ->%storedIds_empty. constructor.
  - intros nd ids _ ->%storedIds_empty. apply not_elem_of_nil.
Qed.

Lemma emptyCache_partition cap : bunches_partition (emptyCache ∅ cap).
Proof. intros b ids _ ->%storedIds_empty. constructor. Qed.

Lemma putRun_partition b run self self' :
  WF self → bunches_partition self → run_ok (b, run) →
  putRun b run self = Ok self' → bunches_partition self'.
Proof.
  intros Hwf Hp Hr H. pose proof (run_ok_int64 _ _ Hr) as Hint.
  destruct Hr as (Hne & Hb & Hrun). simpl in *.
  destruct (putRun_spec b run self self' Hwf Hb Hne Hint H)
    as (old & Hold & _ & _ & _ & _ & Hother & Hsame & _).
  apply storedIds_stored in Hold.
  intros b' ids Hb' Hids. destruct (decide (b' = b)) as [->|Hbb].
  - destruct Hsame as [[_ Heq]|(bunch' & Hlook & Hc & _)].
    + rewrite Heq in Hids. by eapply Hp.
    + rewrite (storedIds_resident _ _ _ Hlook), Hc in Hids. injection Hids as <-.
      rewrite sort_Sort_Permutation, fmap_app. apply Forall_app.
      split; [by eapply Hp|]. apply Forall_fmap.
      eapply Forall_impl; [exact Hrun|]. by intros nd [_ ?].
  - rewrite Hother in Hids by done. by eapply Hp.
Qed.

Lemma putRuns_partition rs self self' :
  WF self → bunches_sorted self → bunches_partition self → Forall run_ok rs →
  putRuns rs self = Ok self' → bunches_partition self'.
Proof.
  intros Hwf Hs Hp Hrs. revert self Hwf Hs Hp.
  induction Hrs as [|[b run] rs Hr Hrs IH]; intros self Hwf Hs Hp H; simpl in H.
  - by simplify_eq.
  - inv_bind H. rename a into self1.
    destruct (putRun_sorted b run self self1 Hwf Hs Hr Ha) as (Hwf1 & Hs1 & _).
    apply (IH self1); try done.
    exact (putRun_partition b run self self1 Hwf Hp Hr Ha).
Qed.

(** ** C5: the invariant of the bunches *)

(** C5, as stated, fails: putting a record of identifier 5 twice leaves
    bunch 0 with two records of that identifier. *)
Lemma C5_counterexample :
  ∃ st1 st2 bunch,
    PutCoords [mkNode 5 1 1] fresh = Ok st1
    ∧ PutCoords [mkNode 5 2 2] st1 = Ok st2
    ∧ table st2 !! 0 = Some bunch
    ∧ coords bunch = [mkNode 5 1 1; mkNode 5 2 2]
    ∧ ¬ NoDup (Id <$> coords bunch).
Proof.
  eexists _, _, _. split; [reflexivity|]. split; [reflexivity|].
  split; [reflexivity|]. split; [reflexivity|].
  simpl. intros Hnd. apply NoDup_cons in Hnd as [Hnin _].
  apply Hnin. by left.
Qed.

(** C5, amended. In a well-formed state, the sequence the cache
    presents for a bunch, resident or persisted, ascends by identifier,
    and this is kept by [getBunch], which returns such a sequence, and
    by [PutCoords], whatever its input. That no identifier occurs twice
    is kept by [getBunch], and by [PutCoords] when the identifiers of
    the input are distinct and none of them is presented by the cache
    already. *)
Theorem C5_bunches_stay_sorted :
  (∀ self b self' bunch,
     WF self → bunches_sorted self → is_int64 b →
     getBunch b self = Ok (self', bunch) →
     WF self' ∧ bunches_sorted self' ∧ sortedIds (Id <$> coords bunch)
     ∧ (bunches_unique self →
        bunches_unique self' ∧ NoDup (Id <$> coords bunch)))
  ∧ (∀ self nodes self',
       WF self → bunches_sorted self →
       Forall (λ nd, is_int64 (Id nd)) nodes →
       PutCoords nodes self = Ok self' →
       WF self' ∧ bunches_sorted self'
       ∧ (bunches_unique self → NoDup (Id <$> nodes) → unseen self nodes →
          bunches_unique self')).
Proof.
  split.
  - intros self b self' bunch Hwf Hs Hb H.
    pose proof (WF_getBunch _ _ _ _ Hwf Hb H) as Hwf'.
    destruct Hwf as (_ & Hd & _).
    destruct (getBunch_stored _ _ _ _ Hd Hb H) as (_ & Hids & Hold & _).
    apply storedIds_stored in Hold.
    split; [done|]. split; [|split].
    + intros b' ids Hb' Hi. rewrite Hids in Hi by done. by eapply Hs.
    + by eapply Hs.
    + intros Hu. split; [|by eapply Hu].
      intros b' ids Hb' Hi. rewrite Hids in Hi by done. by eapply Hu.
  - intros self nodes self' Hwf Hs Hint H.
    destruct nodes as [|n0 rest]; [done|].
    rewrite PutCoords_runs in H.
    destruct (putRuns_inv _ _ _ Hwf Hs (runs_ok _ Hint) H) as (Hwf' & Hs' & _ & Hu').
    rewrite runs_concat in Hu'. done.
Qed.

Lemma C5_bunches_stay_sorted_witness :
  ∃ self' bunch,
    PutCoords [mkNode 1 10 20; mkNode 65 11 21; mkNode 2 12 22] fresh = Ok self'
    ∧ bunches_sorted self' ∧ bunches_unique self'
    ∧ table self' !! 0 = Some bunch
    ∧ coords bunch = [mkNode 1 10 20; mkNode 2 12 22].
Proof.
  destruct C5_bunches_stay_sorted as [_ Hput].
  destruct (emptyCache_inv 8192
              [mkNode 1 10 20; mkNode 65 11 21; mkNode 2 12 22] ltac:(lia))
    as (Hwf & Hs & Hu & Hun).
  eexists _, _. split; [reflexivity|].
  edestruct (Hput fresh [mkNode 1 10 20; mkNode 65 11 21; mkNode 2 12 22])
    as (_ & Hs' & Hu'); [exact Hwf|exact Hs| |reflexivity|].
  { repeat (apply Forall_cons; split; [unfold is_int64; simpl; lia|]).
    constructor. }
  split; [exact Hs'|]. split.
  - apply Hu'; [exact Hu| |exact Hun].
    apply (bool_decide_unpack _). reflexivity.
  - split; reflexivity.
Defined.

(** ** C2: a record put is the record got *)

(** C2, as stated, fails: after two puts of records with identifier 5,
    [GetCoord 5] returns the record of the first put, not the record
    the second call was given. *)
Lemma C2_counterexample :
  ∃ st1 st2 st3,
    PutCoords [mkNode 5 1 1] fresh = Ok st1
    ∧ PutCoords [mkNode 5 2 2] st1 = Ok st2
    ∧ GetCoord 5 st2 = Ok (st3, (mkNode 5 1 1, true))
    ∧ mkNode 5 1 1 ≠ mkNode 5 2 2.
Proof.
  eexists _, _, _. split; [reflexivity|]. split; [reflexivity|].
  split; [reflexivity|]. discriminate.
Qed.

(** C2, amended. The bunch id of an identifier is its quotient by 64,
    rounded towards zero. In a well-formed state with room for at
    least one bunch, where the sequences of the bunches ascend without
    repeated identifiers, [PutCoords] returns for an input that is not
    empty, has identifiers whose bunch ids have a storage key, has no
    identifier twice and none the cache presents already, and falls
    into no more bunches than the capacity. Afterwards every record of
    the input is in the resident bunch of that bunch id (and in no
    other, when every bunch only held records of its own bunch id
    before), and [GetCoord] of its identifier returns that record,
    found. *)
Theorem C2_put_then_get :
  (∀ id, getBunchId id = id ÷ 64)
  ∧ (∀ self nodes,
       WF self → 1 ≤ capacity self →
       bunches_sorted self → bunches_unique self →
       nodes ≠ [] →
       Forall (λ nd, key_range (getBunchId (Id nd))) nodes →
       NoDup (Id <$> nodes) → unseen self nodes →
       Z.of_nat (size (list_to_set (getBunchId ∘ Id <$> nodes) : gset Z))
         ≤ capacity self →
       ∃ self',
         PutCoords nodes self = Ok self'
         ∧ ∀ nd, nd ∈ nodes →
             (∃ bunch, table self' !! getBunchId (Id nd) = Some bunch
                       ∧ nd ∈ coords bunch)
             ∧ (bunches_partition self →
                ∀ b bunch, table self' !! b = Some bunch → nd ∈ coords bunch →
                           b = getBunchId (Id nd))
             ∧ ∃ self'', GetCoord (Id nd) self' = Ok (self'', (nd, true))).
Proof.
  split; [done|].
  intros self nodes Hwf Hcap Hs Hu Hne Hkeys Hnd Hun HT.
  destruct nodes as [|n0 rest]; [done|]. clear Hne.
  set (nodes := n0 :: rest) in *.
  assert (Forall (λ nd, is_int64 (Id nd)) nodes) as Hint.
  { eapply Forall_impl; [exact Hkeys|]. intros nd. apply id_ok_int64. }
  pose proof (runs_ok nodes Hint) as Hrs.
  pose proof (runs_concat nodes) as Hcat.
  destruct (putRuns_returns (runs nodes) self Hwf) as [self' Hput].
  { apply runs_key_ok; [done|]. by rewrite Hcat. }
  exists self'. split; [by unfold nodes; rewrite PutCoords_runs|].
  destruct (putRuns_inv _ _ _ Hwf Hs Hrs Hput) as (Hwf' & Hs' & _ & Hu').
  rewrite Hcat in Hu'. specialize (Hu' Hu Hnd Hun).
  assert (∀ nd, nd ∈ nodes →
            ∃ bunch, table self' !! getBunchId (Id nd) = Some bunch
                     ∧ nd ∈ coords bunch) as Hres.
  { rewrite <- Hcat. change (concat (runs nodes).*2)
      with ([] ++ concat (runs nodes).*2).
    eapply (putRuns_resident (runs nodes) _ self self' [] (lruList self) []);
      try done.
    - intros r Hr. destruct (run_ok_member _ r Hrs Hr) as (nd & Hin & <-).
      rewrite Hcat in Hin. apply elem_of_list_to_set, list_elem_of_fmap.
      by exists nd.
    - by intros x ?%elem_of_nil.
    - by intros x ?%elem_of_nil. }
  intros nd Hin. destruct (Hres nd Hin) as (bunch & Hlook & Hmem).
  split; [eauto|]. split.
  { intros Hp b bunch0 Hb0 Hmem0.
    pose proof (putRuns_partition _ _ _ Hwf Hs Hp Hrs Hput) as Hp'.
    assert (is_int64 b) as Hbi.
    { destruct Hwf' as (_ & (Hk' & _) & _). by destruct (Hk' _ _ Hb0). }
    pose proof (Hp' b _ Hbi (storedIds_resident _ _ _ Hb0)) as Hall.
    rewrite Forall_forall in Hall. symmetry. apply Hall.
    apply list_elem_of_fmap. eauto. }
  rewrite Forall_forall in Hkeys, Hint.
  destruct (getBunch_mgr (getBunchId (Id nd)) self' (WF_mgr_ok _ Hwf'))
    as (self'' & bunch_r & Hget & _).
  { apply key_range_key_ok. by apply Hkeys. }
  exists self''. rewrite GetCoord_eq, Hget. simpl. do 2 f_equal.
  destruct Hwf' as (_ & Hd' & _).
  destruct (getBunch_stored _ _ _ _ Hd'
              (getBunchId_int64 _ (Hint nd Hin)) Hget) as (_ & _ & Hold & _).
  unfold stored in Hold. rewrite Hlook in Hold. injection Hold as Hc.
  rewrite <- Hc.
  pose proof (storedIds_resident _ _ _ Hlook) as Hids.
  apply findCoord_unique; [|by eapply Hu'; [|exact Hids];
                             apply getBunchId_int64, Hint|done].
  eapply Hs'; [|exact Hids]. by apply getBunchId_int64, Hint.
Qed.

Lemma C2_put_then_get_witness :
  ∃ self' self'',
    PutCoords [mkNode 1 10 20; mkNode 65 11 21; mkNode 2 12 22] fresh = Ok self'
    ∧ GetCoord 65 self' = Ok (self'', (mkNode 65 11 21, true)).
Proof.
  destruct C2_put_then_get as [_ Hput].
  destruct (emptyCache_inv 8192
              [mkNode 1 10 20; mkNode 65 11 21; mkNode 2 12 22] ltac:(lia))
    as (Hwf & Hs & Hu & Hun).
  destruct (Hput fresh [mkNode 1 10 20; mkNode 65 11 21; mkNode 2 12 22] Hwf)
    as (self' & Hp & Hall);
    [|exact Hs|exact Hu|discriminate| | |exact Hun| |].
  - vm_compute. discriminate.
  - repeat (apply Forall_cons; split;
            [vm_compute; split; [discriminate|reflexivity]|]).
    constructor.
  - apply (bool_decide_unpack _). reflexivity.
  - vm_compute. discriminate.
  - destruct (Hall (mkNode 65 11 21)) as (_ & _ & self'' & Hg); [right; by left|].
    by exists self', self''.
Defined.

(** ** C6: [FillWay] *)

Lemma holds_storedIds self self' id :
  is_int64 (getBunchId id) →
  (∀ b, is_int64 b → storedIds self' b = storedIds self b) →
  holds self' id ↔ holds self id.
Proof. intros Hb Hids. unfold holds. by rewrite Hids. Qed.

(** On a well-formed state with sorted bunches [GetCoord] returns, and
    finds the identifier exactly when the cache presents it. *)
Lemma GetCoord_holds id self :
  WF self → bunches_sorted self → key_range (getBunchId id) →
  ∃ self' nd ok,
    GetCoord id self = Ok (self', (nd, ok))
    ∧ WF self' ∧ bunches_sorted self'
    ∧ (∀ b, is_int64 b → storedIds self' b = storedIds self b)
    ∧ (ok = true ↔ holds self id).
Proof.
  intros Hwf Hs Hk. pose proof (id_ok_int64 id Hk) as Hid.
  pose proof (getBunchId_int64 id Hid) as Hb.
  destruct (getBunch_mgr (getBunchId id) self (WF_mgr_ok _ Hwf)
              (key_range_key_ok _ Hk)) as (self' & bunch & Hget & _).
  assert (GetCoord id self = Ok (self', findCoord id (coords bunch))) as HG.
  { by rewrite GetCoord_eq, Hget. }
  destruct (findCoord id (coords bunch)) as [nd ok] eqn:Hfind.
  exists self', nd, ok. split; [done|].
  destruct (GetCoord_inv id self self' (nd, ok) Hwf Hid HG)
    as (Hwf' & Hids & old & Hold & Hr).
  split; [done|]. split; [|split; [done|]].
  - intros b ids Hbi Hi. rewrite Hids in Hi by done. by eapply Hs.
  - pose proof (storedIds_stored _ _ _ Hold) as Hsi.
    pose proof (Hs _ _ Hb Hsi) as Hsorted. unfold holds. rewrite Hsi.
    split.
    + intros ->. symmetry in Hr. apply findCoord_found in Hr as [Hin <-].
      eexists. split; [done|]. apply list_elem_of_fmap. eauto.
    + intros (ids & [= <-] & Hin).
      destruct (findCoord_sorted id old Hsorted Hin) as (m & Hm & _).
      rewrite Hm in Hr. by injection Hr.
Qed.

Lemma FillWay_loop_holds refs :
  ∀ (i : nat) (nodes : list Node) self,
    WF self → bunches_sorted self →
    Forall (λ id, key_range (getBunchId id)) refs →
    ∃ self' nodes' ok,
      FillWay_loop refs i nodes self = Ok (self', nodes', ok)
      ∧ (ok = true ↔ Forall (holds self) refs).
Proof.
  induction refs as [|id refs IH]; intros i nodes self Hwf Hs Hk; simpl.
  - eexists _, _, _. split; [done|]. split; [constructor|done].
  - apply Forall_cons in Hk as [Hid Hk].
    destruct (GetCoord_holds id self Hwf Hs Hid)
      as (self1 & nd & ok & -> & Hwf1 & Hs1 & Hids & Hok).
    simpl. destruct ok.
    + destruct (IH (S i) (<[i:=nd]> nodes) self1 Hwf1 Hs1 Hk)
        as (self' & nodes' & ok' & -> & Hok').
      eexists _, _, _. split; [done|]. rewrite Hok'.
      assert (∀ x, x ∈ refs → holds self1 x ↔ holds self x) as Hiff.
      { intros x Hx. apply holds_storedIds; [|done].
        rewrite Forall_forall in Hk. by apply getBunchId_int64, id_ok_int64, Hk. }
      rewrite Forall_cons, !Forall_forall. split.
      * intros Hall. split; [by apply Hok|].
        intros x Hx. by apply Hiff, Hall.
      * intros [_ Hall] x Hx. by apply Hiff, Hall.
    + eexists _, _, _. split; [done|]. split; [done|].
      intros [Hh _]%Forall_cons. by apply Hok in Hh.
Qed.

(** C6. [FillWay] on a way that is present looks the references up in
    order with [GetCoord], each lookup starting from the state the
    previous one left. (1) When a lookup reached in this order is not
    found, the answer is [false]. (2) When all are found, the answer is
    [true] and [Nodes] holds the records found, one per reference and
    in the order of the references: [Nodes[i]] is the record returned
    for [Refs[i]] and carries that identifier. (3) On a well-formed
    state with sorted bunches, and references whose bunch ids have a
    storage key, [FillWay] returns, and answers [true] exactly when the
    cache presents a record for every reference: one reference without
    a record makes the answer [false]. *)
Theorem C6_FillWay_all_or_nothing (self : DeltaCoordsCache) (w : Way) :
  (misses self (Refs w) →
   ∃ self' w', FillWay (Some w) self = Ok (self', w', false))
  ∧ (∀ nds self',
       resolves self (Refs w) nds self' →
       FillWay (Some w) self
       = Ok (self', Some {| Refs := Refs w; Nodes := nds |}, true)
       ∧ length nds = length (Refs w)
       ∧ ∀ (i : nat) id, Refs w !! i = Some id →
                         ∃ nd, nds !! i = Some nd ∧ Id nd = id)
  ∧ (WF self → bunches_sorted self →
     Forall (λ id, key_range (getBunchId id)) (Refs w) →
     ∃ self' w' ok,
       FillWay (Some w) self = Ok (self', w', ok)
       ∧ (ok = true ↔ Forall (holds self) (Refs w))).
Proof.
  split; [|split].
  - intros Hm. unfold FillWay.
    destruct (FillWay_loop_misses _ _ Hm 0%nat
                (replicate (length (Refs w)) zeroNode)) as (self' & nodes' & ->).
    simpl. eauto.
  - intros nds self' Hr. split; [|split].
    + pose proof (FillWay_loop_resolves _ _ _ _ Hr 0%nat []
                    (replicate (length (Refs w)) zeroNode) eq_refl
                    (length_replicate _ _)) as Hloop.
      simpl in Hloop. unfold FillWay. by rewrite Hloop.
    + eapply resolves_length, Hr.
    + intros i id Hi. eapply resolves_lookup; eauto.
  - intros Hwf Hs Hk. unfold FillWay.
    destruct (FillWay_loop_holds (Refs w) 0%nat
                (replicate (length (Refs w)) zeroNode) self Hwf Hs Hk)
      as (self' & nodes' & ok & -> & Hok).
    simpl. eauto.
Qed.

Lemma C6_FillWay_all_or_nothing_witness :
  (∃ self' w', FillWay (Some {| Refs := [1; 2]; Nodes := [] |}) demo
               = Ok (self', w', false))
  ∧ (∃ self', FillWay (Some {| Refs := [65; 1]; Nodes := [] |}) demo
              = Ok (self', Some {| Refs := [65; 1];
                                   Nodes := [mkNode 65 11 21; mkNode 1 10 20] |},
                    true))
  ∧ (∃ self' w' ok, FillWay (Some {| Refs := [1; 2]; Nodes := [] |}) fresh
                    = Ok (self', w', ok)).
Proof.
  split; [|split].
  - apply (C6_FillWay_all_or_nothing demo {| Refs := [1; 2]; Nodes := [] |}).
    simpl. eapply misses_later; [reflexivity|].
    eapply misses_here. reflexivity.
  - eexists.
    apply (C6_FillWay_all_or_nothing demo {| Refs := [65; 1]; Nodes := [] |}).
    simpl. eapply resolves_cons; [reflexivity|].
    eapply resolves_cons; [reflexivity|]. apply resolves_nil.
  - destruct (C6_FillWay_all_or_nothing fresh {| Refs := [1; 2]; Nodes := [] |})
      as (_ & _ & Hwf).
    destruct (emptyCache_inv 8192 [] ltac:(lia)) as (Hw & Hs & _).
    destruct (Hwf Hw Hs) as (self' & w' & ok & H & _); [|eauto].
    repeat (apply Forall_cons; split;
            [vm_compute; split; [discriminate|reflexivity]|]).
    constructor.
Defined.

(** * Further properties of the code *)

(** ** The codec *)

Lemma swapLL_swapLL nd :
  is_uint32 (Long nd) → is_uint32 (Lat nd) → swapLL (swapLL nd) = nd.
Proof.
  intros HL HA. destruct nd as [i lo la]. unfold swapLL, CoordToInt. simpl in *.
  by rewrite !uint32_idemp, !uint32_id.
Qed.

(** X1. Encoding and then decoding a sequence whose identifiers are
    [int64] values never panics and returns as many records, with the
    same identifiers in the same order, and with the fixed-point
    longitude and latitude of every record exchanged. Hence a second
    round trip gives back the original sequence. *)
Theorem X1_codec_round_trip (nodes buf : list Node) :
  Forall (λ nd, is_int64 (Id nd)) nodes →
  unpackNodes (packNodes nodes) buf = Ok (swapLL <$> nodes)
  ∧ length (swapLL <$> nodes) = length nodes
  ∧ Id <$> (swapLL <$> nodes) = Id <$> nodes
  ∧ (Forall (λ nd, is_uint32 (Long nd) ∧ is_uint32 (Lat nd)) nodes →
     unpackNodes (packNodes (swapLL <$> nodes)) buf = Ok nodes).
Proof.
  intros Hint. split; [by apply unpackNodes_packNodes|].
  split; [apply length_fmap|]. split; [apply fmap_Id_swapLL|].
  intros Hc. rewrite unpackNodes_packNodes.
  - f_equal. rewrite <- list_fmap_compose. rewrite <- (list_fmap_id nodes) at 2.
    apply Forall_fmap_ext_1. eapply Forall_impl; [exact Hc|].
    intros nd [HL HA]. by apply swapLL_swapLL.
  - apply Forall_fmap. eapply Forall_impl; [exact Hint|]. by intros nd.
Qed.

Lemma X1_codec_round_trip_witness :
  unpackNodes (packNodes [mkNode 7 100 200; mkNode 3 50 60]) []
  = Ok [mkNode 7 200 100; mkNode 3 60 50]
  ∧ unpackNodes (packNodes [mkNode 7 200 100; mkNode 3 60 50]) []
    = Ok [mkNode 7 100 200; mkNode 3 50 60].
Proof.
  destruct (X1_codec_round_trip [mkNode 7 100 200; mkNode 3 50 60] [])
    as (H1 & _ & _ & H2).
  { repeat (apply Forall_cons; split; [vm_compute; split; [discriminate|reflexivity]|]).
    constructor. }
  split; [exact H1|]. apply H2.
  repeat (apply Forall_cons; split;
          [split; vm_compute; (split; [discriminate|reflexivity])|]).
  constructor.
Defined.

Lemma unpack3_uint32 ids dLats dLons lastId lastLon lastLat nodes :
  unpack3 ids dLats dLons lastId lastLon lastLat = Ok nodes →
  Forall (λ nd, is_uint32 (Long nd) ∧ is_uint32 (Lat nd)) nodes.
Proof.
  revert dLats dLons lastId lastLon lastLat nodes.
  induction ids as [|d ids IH]; intros dLats dLons lastId lastLon lastLat nodes H.
  - simpl in H. simplify_eq. constructor.
  - simpl in H. destruct dLats as [|dlat dLats]; [done|].
    destruct dLons as [|dlon dLons]; [done|].
    inv_bind H. simplify_eq. constructor; [|eapply IH, Ha].
    split; apply uint32_range.
Qed.

(** X2. [unpackNodes] returns exactly when [Lats] and [Lons] are at
    least as long as [Ids], and panics with an index out of range
    otherwise; sequences longer than [Ids] are read up to the length of
    [Ids] only. The result has one record per entry of [Ids], its
    identifiers are [int64] and its coordinates [uint32] values, and it
    does not depend on the buffer passed for reuse. *)
Theorem X2_unpackNodes_returns_iff (deltaCoords : DeltaCoords) (buf : list Node) :
  ((length (Ids deltaCoords) ≤ length (Lats deltaCoords)
    ∧ length (Ids deltaCoords) ≤ length (Lons deltaCoords))%nat →
   ∃ nodes, unpackNodes deltaCoords buf = Ok nodes)
  ∧ (¬ (length (Ids deltaCoords) ≤ length (Lats deltaCoords)
        ∧ length (Ids deltaCoords) ≤ length (Lons deltaCoords))%nat →
     unpackNodes deltaCoords buf = Panic IndexOutOfRange)
  ∧ (∀ nodes, unpackNodes deltaCoords buf = Ok nodes →
       length nodes = length (Ids deltaCoords)
       ∧ Forall (λ nd, is_int64 (Id nd) ∧ is_uint32 (Long nd)
                       ∧ is_uint32 (Lat nd)) nodes
       ∧ ∀ buf', unpackNodes deltaCoords buf' = Ok nodes).
Proof.
  rewrite unpackNodes_unpack3. split; [|split].
  - intros [H1 H2].
    destruct (unpack3_returns _ _ _ 0 0 0 H1 H2) as (nodes & Hn & _). eauto.
  - intros Hlen. apply unpack3_mismatch. lia.
  - intros nodes H. split; [|split; [|by intros buf'; rewrite unpackNodes_unpack3]].
    + destruct (decide (length (Ids deltaCoords) ≤ length (Lats deltaCoords)
                        ∧ length (Ids deltaCoords) ≤ length (Lons deltaCoords))%nat)
        as [[H1 H2]|Hn].
      * destruct (unpack3_returns _ _ _ 0 0 0 H1 H2) as (nodes' & Hn & Hl).
        congruence.
      * rewrite unpack3_mismatch in H by lia. done.
    + pose proof (unpack3_int64 _ _ _ _ _ _ _ H) as Hi.
      pose proof (unpack3_uint32 _ _ _ _ _ _ _ H) as Hu.
      rewrite Forall_forall in Hi, Hu. apply Forall_forall. intros nd Hnd.
      destruct (Hu nd Hnd). split; [by apply Hi|done].
Qed.

Lemma X2_unpackNodes_returns_iff_witness :
  (∃ nodes, unpackNodes {| Ids := [5; 1]; Lats := [3; 1; 9]; Lons := [4; 1] |} []
            = Ok nodes)
  ∧ unpackNodes {| Ids := [5; 1]; Lats := [3]; Lons := [4; 1] |} []
    = Panic IndexOutOfRange.
Proof.
  split.
  - apply (X2_unpackNodes_returns_iff
             {| Ids := [5; 1]; Lats := [3; 1; 9]; Lons := [4; 1] |} []).
    simpl. lia.
  - apply (X2_unpackNodes_returns_iff
             {| Ids := [5; 1]; Lats := [3]; Lons := [4; 1] |} []).
    simpl. lia.
Defined.

(** ** Storage keys and bunch ids *)

Lemma PutUvarint_Ok_bound (buf : list Z) (x : Z) (key : Key) :
  0 ≤ x → PutUvarint buf x = Ok key →
  x < 128 ^ Z.of_nat (length buf) ∧ length key = length buf.
Proof.
  revert x key. induction buf as [|b buf IH]; intros x key Hx H; [done|].
  simpl in H. rewrite length_cons, Nat2Z.inj_succ, Z.pow_succ_r by lia.
  assert (0 < 128 ^ Z.of_nat (length buf)) as Hpos by (apply Z.pow_pos_nonneg; lia).
  destruct (Z.leb_spec 128 x) as [Hge|Hlt].
  - inv_bind H. injection H as <-.
    rewrite Z.shiftr_div_pow2 in Ha by lia. change (2 ^ 7) with 128 in Ha.
    apply IH in Ha as [Hb Hl]; [|apply Z.div_pos; lia].
    split; [|simpl; by rewrite Hl].
    pose proof (Z.div_mod x 128 ltac:(lia)) as Hdm.
    pose proof (Z.mod_pos_bound x 128 ltac:(lia)). nia.
  - injection H as <-. split; [nia|done].
Qed.

Lemma PutUvarint_Panic (buf : list Z) (x : Z) (p : panic) :
  PutUvarint buf x = Panic p → p = IndexOutOfRange.
Proof.
  revert x. induction buf as [|b buf IH]; intros x H; simpl in H.
  - by injection H.
  - destruct (128 <=? x); [|done].
    destruct (PutUvarint buf (Z.shiftr x 7)) as [rest|p'] eqn:Hr; [done|].
    simpl in H. injection H as <-. by eapply IH.
Qed.

(** X3. Two bunch ids ([int64] values) that have storage keys have the
    same key only when they are the same id: no two bunches share a
    record of the store. *)
Theorem X3_distinct_bunches_distinct_keys (b1 b2 : Z) (k1 k2 : Key) :
  is_int64 b1 → is_int64 b2 →
  keyBuf b1 = Ok k1 → keyBuf b2 = Ok k2 →
  (k1 = k2 ↔ b1 = b2).
Proof.
  intros H1 H2 K1 K2. split.
  - intros ->. by eapply keyBuf_inj.
  - intros ->. congruence.
Qed.

Lemma X3_distinct_bunches_distinct_keys_witness :
  [253; 1; 0; 0; 0; 0; 0; 0] = [254; 1; 0; 0; 0; 0; 0; 0] ↔ -127 = 127.
Proof.
  apply (X3_distinct_bunches_distinct_keys (-127) 127);
    [vm_compute; split; [discriminate|reflexivity]
    |vm_compute; split; [discriminate|reflexivity]
    |reflexivity|reflexivity].
Defined.

(** X4. For a bunch id that is an [int64], the storage key exists
    exactly when [-2^55 <= bunchId < 2^55]; outside this range building
    the key panics with an index out of range, because the varint needs
    more than the 8 bytes of the buffer. A key always has 8 bytes. *)
Theorem X4_key_exists_iff_in_range (bunchId : Z) :
  is_int64 bunchId →
  ((∃ key, keyBuf bunchId = Ok key) ↔ key_range bunchId)
  ∧ (¬ key_range bunchId → keyBuf bunchId = Panic IndexOutOfRange)
  ∧ (∀ key, keyBuf bunchId = Ok key → length key = 8%nat).
Proof.
  intros Hb.
  assert (∀ key, keyBuf bunchId = Ok key →
                 key_range bunchId ∧ length key = 8%nat) as Hok.
  { intros key H. unfold keyBuf in H. rewrite PutVarint_zigzag in H by done.
    apply PutUvarint_Ok_bound in H as [Hlt Hlen].
    - split; [|done]. change (128 ^ Z.of_nat (length (replicate 8 0)))
        with (2 ^ 56) in Hlt.
      unfold key_range, zigzag in *. destruct (Z.ltb_spec bunchId 0); lia.
    - unfold zigzag. destruct (Z.ltb_spec bunchId 0); lia. }
  split; [|split].
  - split; [intros [key H]; by destruct (Hok key H)|apply keyBuf_returns].
  - intros Hn. destruct (keyBuf bunchId) as [key|p] eqn:H.
    + by destruct (Hok key eq_refl).
    + unfold keyBuf, PutVarint in H. by apply PutUvarint_Panic in H as ->.
  - intros key H. by destruct (Hok key H).
Qed.

Lemma X4_key_exists_iff_in_range_witness :
  (∃ key, keyBuf (2 ^ 55 - 1) = Ok key)
  ∧ keyBuf (2 ^ 55) = Panic IndexOutOfRange
  ∧ keyBuf (- 2 ^ 55 - 1) = Panic IndexOutOfRange.
Proof.
  split; [|split].
  - apply (X4_key_exists_iff_in_range (2 ^ 55 - 1));
      vm_compute; split; (discriminate || reflexivity).
  - apply (X4_key_exists_iff_in_range (2 ^ 55));
      [vm_compute; split; (discriminate || reflexivity)|].
    intros [_ H]. vm_compute in H. discriminate.
  - apply (X4_key_exists_iff_in_range (- 2 ^ 55 - 1));
      [vm_compute; split; (discriminate || reflexivity)|].
    intros [H _]. vm_compute in H. by apply H.
Defined.

(** X5. [getBunchId] rounds towards zero: an identifier [id >= 0] lies
    in [64 b .. 64 b + 63] and an identifier [id <= 0] in
    [64 b - 63 .. 64 b], with [b] its bunch id. So bunch 0 takes the
    127 identifiers from -63 to 63, and every other bunch 64
    identifiers. [getBunchId] is monotone, and the bunch id of an
    [int64] is an [int64]. *)
Theorem X5_getBunchId_rounds_towards_zero (id : Z) :
  (0 ≤ id → 64 * getBunchId id ≤ id < 64 * getBunchId id + 64)
  ∧ (id ≤ 0 → 64 * getBunchId id - 64 < id ≤ 64 * getBunchId id)
  ∧ (getBunchId id = 0 ↔ -64 < id < 64)
  ∧ (∀ id', id ≤ id' → getBunchId id ≤ getBunchId id')
  ∧ (is_int64 id → is_int64 (getBunchId id)).
Proof.
  unfold getBunchId.
  pose proof (Z.quot_rem' id 64) as Hqr.
  pose proof (Z.rem_bound_abs id 64 ltac:(lia)) as Habs.
  split; [|split; [|split; [|split]]].
  - intros Hid. pose proof (Z.rem_nonneg id 64 ltac:(lia) Hid). lia.
  - intros Hid. pose proof (Z.rem_nonpos id 64 ltac:(lia) Hid). lia.
  - split; [intros H0; rewrite H0 in Hqr; lia|].
    intros Hid. apply Z.quot_small_iff; lia.
  - intros id' Hle. apply Z.quot_le_mono; lia.
  - apply getBunchId_int64.
Qed.

Lemma X5_getBunchId_rounds_towards_zero_witness :
  getBunchId (-63) = 0 ∧ getBunchId (-64) ≤ getBunchId 63.
Proof.
  destruct (X5_getBunchId_rounds_towards_zero (-63)) as (_ & _ & H0 & _).
  destruct (X5_getBunchId_rounds_towards_zero (-64)) as (_ & _ & _ & Hm & _).
  split; [apply H0; lia|apply Hm; lia].
Defined.

(** ** The backing-store adapter *)

Lemma keyBuf_Ok_range (bunchId : Z) (key : Key) :
  is_int64 bunchId → keyBuf bunchId = Ok key → key_range bunchId.
Proof.
  intros Hb H. unfold keyBuf in H. rewrite PutVarint_zigzag in H by done.
  apply PutUvarint_Ok_bound in H as [Hlt _].
  - change (128 ^ Z.of_nat (length (replicate 8 0))) with (2 ^ 56) in Hlt.
    unfold key_range, zigzag in *. destruct (Z.ltb_spec bunchId 0); lia.
  - unfold zigzag. destruct (Z.ltb_spec bunchId 0); lia.
Qed.

(** X6. [putCoordsPacked] writes nothing for an empty sequence. For a
    sequence with records (identifiers [int64]) it returns exactly when
    the bunch id has a storage key, logs one write, and a following
    [getCoordsPacked] of the same bunch id returns the records with
    their identifiers, longitude and latitude exchanged; what
    [getCoordsPacked] returns for any other bunch id is unchanged. The
    table, the recency list and the free buffers are not touched. *)
Theorem X6_put_then_get_packed (bunchId : Z) (nodes : list Node)
    (p : DeltaCoordsCache) :
  is_int64 bunchId → Forall (λ nd, is_int64 (Id nd)) nodes →
  putCoordsPacked bunchId [] p = Ok p
  ∧ (nodes ≠ [] → key_range bunchId →
     ∃ p', putCoordsPacked bunchId nodes p = Ok p')
  ∧ (∀ p', putCoordsPacked bunchId nodes p = Ok p' → nodes ≠ [] →
       key_range bunchId
       ∧ length (puts (cache p')) = S (length (puts (cache p)))
       ∧ (∀ buf, getCoordsPacked bunchId buf p' = Ok (swapLL <$> nodes))
       ∧ (∀ b' buf, is_int64 b' → b' ≠ bunchId →
            getCoordsPacked b' buf p' = getCoordsPacked b' buf p)
       ∧ table p' = table p ∧ lruList p' = lruList p
       ∧ freeNodes p' = freeNodes p ∧ capacity p' = capacity p).
Proof.
  intros Hb Hint. split; [done|]. split.
  - intros Hne Hr. destruct (keyBuf_returns _ Hr) as [key Hkey].
    unfold putCoordsPacked. destruct nodes; [done|]. rewrite Hkey. simpl. eauto.
  - intros p' H Hne. unfold putCoordsPacked in H.
    destruct nodes as [|nd nodes]; [done|]. inv_bind H. rename a into key.
    injection H as <-. simpl.
    split; [by eapply keyBuf_Ok_range|].
    split; [done|]. split; [|split; [|done]].
    + intros buf. unfold getCoordsPacked. rewrite Ha. simpl.
      rewrite lookup_insert_eq. by apply unpackNodes_packNodes.
    + intros b' buf Hb' Hne'. unfold getCoordsPacked.
      destruct (keyBuf b') as [key'|] eqn:Hkey'; [simpl|done].
      rewrite lookup_insert_ne; [done|]. intros ->.
      apply Hne'. by eapply keyBuf_inj.
Qed.

Lemma X6_put_then_get_packed_witness :
  ∃ p', putCoordsPacked 3 [mkNode 200 7 9] fresh = Ok p'
        ∧ getCoordsPacked 3 [] p' = Ok [mkNode 200 9 7]
        ∧ getCoordsPacked 4 [] p' = getCoordsPacked 4 [] fresh.
Proof.
  destruct (X6_put_then_get_packed 3 [mkNode 200 7 9] fresh) as (_ & Hret & Hget).
  { vm_compute; split; (discriminate || reflexivity). }
  { repeat (apply Forall_cons; split;
            [vm_compute; split; (discriminate || reflexivity)|]).
    constructor. }
  destruct Hret as [p' Hp'];
    [discriminate|vm_compute; split; (discriminate || reflexivity)|].
  exists p'. split; [done|].
  destruct (Hget p' Hp') as (_ & _ & Hsame & Hother & _); [discriminate|].
  split; [apply Hsame|]. apply Hother; [|lia].
  vm_compute; split; (discriminate || reflexivity).
Defined.

(** ** Hits and misses of [getBunch] *)

Lemma CheckCapacity_within self :
  Z.of_nat (size (table self)) ≤ capacity self → CheckCapacity self = Ok self.
Proof.
  intros H. unfold CheckCapacity.
  destruct (rev (lruList self)); simpl;
    by destruct (Z.ltb_spec (capacity self) (Z.of_nat (size (table self)))); [lia|].
Qed.

(** X7. While the capacity is not exceeded, [getBunch] evicts nothing
    and writes nothing. On a hit it returns the resident bunch and only
    moves its id to the front of the recency list. On a miss it returns
    a clean bunch that holds what [getCoordsPacked] decodes for the id
    (the empty sequence when the store has no record), puts it into the
    table and at the front of the recency list, and takes one buffer
    off the free list; when the stored record cannot be decoded or the
    id has no key, the miss panics. *)
Theorem X7_getBunch_within_capacity (bunchId : Z) (self : DeltaCoordsCache) :
  (∀ bunch,
     table self !! bunchId = Some bunch →
     Z.of_nat (size (table self)) ≤ capacity self →
     getBunch bunchId self
     = Ok ({| cache := cache self;
              lruList := MoveToFront bunchId (lruList self);
              table := table self;
              freeNodes := freeNodes self;
              capacity := capacity self |}, bunch))
  ∧ (table self !! bunchId = None →
     Z.of_nat (size (table self)) + 1 ≤ capacity self →
     ∀ nodes, getCoordsPacked bunchId [] self = Ok nodes →
       let bunch := {| bunch_id := bunchId; coords := nodes;
                       needsWrite := false |} in
       getBunch bunchId self
       = Ok ({| cache := cache self;
                lruList := bunchId :: lruList self;
                table := <[bunchId := bunch]> (table self);
                freeNodes := tail (freeNodes self);
                capacity := capacity self |}, bunch))
  ∧ (table self !! bunchId = None →
     ∀ p, getCoordsPacked bunchId [] self = Panic p →
          getBunch bunchId self = Panic p).
Proof.
  split; [|split].
  - intros bunch Hb Hsize. rewrite getBunch_eq, Hb.
    by rewrite CheckCapacity_within.
  - intros Hb Hsize nodes Hload bunch. rewrite getBunch_eq, Hb, Hload. simpl.
    rewrite CheckCapacity_within; [done|]. simpl.
    rewrite map_size_insert_None by done. lia.
  - intros Hb p Hload. by rewrite getBunch_eq, Hb, Hload.
Qed.

Lemma X7_getBunch_within_capacity_witness :
  (∃ bunch self', getBunch 1 demo = Ok (self', bunch)
                  ∧ lruList self' = [1; 2; 0] ∧ table self' = table demo
                  ∧ cache self' = cache demo)
  ∧ (∃ bunch self', getBunch 7 demo = Ok (self', bunch)
                    ∧ coords bunch = [] ∧ lruList self' = [7; 2; 1; 0]).
Proof.
  destruct (X7_getBunch_within_capacity 1 demo) as (Hhit & _ & _).
  destruct (X7_getBunch_within_capacity 7 demo) as (_ & Hmiss & _).
  split.
  - eexists _, _. split; [apply Hhit; [reflexivity|vm_compute; discriminate]|].
    by split.
  - eexists _, _.
    split; [apply (Hmiss eq_refl); [vm_compute; discriminate|reflexivity]|].
    by split.
Defined.

(** ** [GetCoord] *)

Lemma GetCoord_not_found_zero id self self' nd :
  GetCoord id self = Ok (self', (nd, false)) → nd = zeroNode.
Proof.
  rewrite GetCoord_eq. intros H. inv_bind H. destruct a as [s bunch].
  injection H as _ H. by apply findCoord_not_found in H.
Qed.




(** ** [PutCoords] under eviction *)

Lemma filter_bunch_same (b : Z) (run : list Node) :
  Forall (λ nd, getBunchId (Id nd) = b) run →
  filter (λ nd, getBunchId (Id nd) = b) run = run.
Proof.
  induction 1 as [|nd run Hnd _ IH]; [done|].
  rewrite filter_cons_True by done. by rewrite IH.
Qed.

Lemma filter_bunch_other (b b' : Z) (run : list Node) :
  b' ≠ b → Forall (λ nd, getBunchId (Id nd) = b) run →
  filter (λ nd, getBunchId (Id nd) = b') run = [].
Proof.
  intros Hne. induction 1 as [|nd run Hnd _ IH]; [done|].
  rewrite filter_cons_False by congruence. done.
Qed.

(** With room for one bunch at least, a run put into bunch [b] adds its
    identifiers to what the cache presents for [b] and leaves the other
    bunches as they are. *)
Lemma putRun_ids b run self self' :
  WF self → 1 ≤ capacity self → run_ok (b, run) →
  putRun b run self = Ok self' →
  WF self' ∧ capacity self' = capacity self
  ∧ ∀ b' old, is_int64 b' → storedIds self b' = Ok old →
      ∃ new, storedIds self' b' = Ok new
             ∧ new ≡ₚ old ++ (Id <$> filter (λ nd, getBunchId (Id nd) = b') run).
Proof.
  intros Hwf Hcap Hrun Hput.
  pose proof (run_ok_int64 _ _ Hrun) as Hint.
  destruct Hrun as (Hne & Hb & Hall). simpl in Hne, Hb, Hall.
  assert (Forall (λ nd, getBunchId (Id nd) = b) run) as Hall'
    by (eapply Forall_impl; [exact Hall|]; by intros ? [_ ?]).
  destruct (putRun_spec b run self self' Hwf Hb Hne Hint Hput)
    as (old0 & Hold0 & Hwf' & Hc & _ & _ & Hother & Hsame & Hin).
  split; [done|]. split; [done|]. intros b' old Hb' Hold.
  destruct (decide (b' = b)) as [->|Hneq].
  - rewrite (storedIds_stored _ _ _ Hold0) in Hold. injection Hold as <-.
    rewrite filter_bunch_same by done.
    destruct Hsame as [[Hnone _]|(bunch' & Hb'' & Hcoords & _)].
    + destruct Hwf' as ([_ Hdom] & _). specialize (Hin Hcap).
      apply Hdom in Hin. rewrite Hnone in Hin. by destruct Hin.
    + exists (Id <$> coords bunch'). split; [by apply storedIds_resident|].
      rewrite Hcoords, <- fmap_app. apply fmap_Permutation, sort_Sort_Permutation.
  - exists old. split; [by rewrite Hother|].
    rewrite (filter_bunch_other b b') by done. by rewrite app_nil_r.
Qed.

Lemma putRuns_ids rs :
  ∀ self self',
    WF self → 1 ≤ capacity self → Forall run_ok rs →
    putRuns rs self = Ok self' →
    WF self'
    ∧ ∀ b old, is_int64 b → storedIds self b = Ok old →
        ∃ new, storedIds self' b = Ok new
               ∧ new ≡ₚ old ++ (Id <$> filter (λ nd, getBunchId (Id nd) = b)
                                         (concat rs.*2)).
Proof.
  induction rs as [|[b0 run] rs IH]; intros self self' Hwf Hcap Hrs Hput.
  - injection Hput as <-. split; [done|]. intros b old _ Hold. exists old.
    split; [done|]. simpl. by rewrite app_nil_r.
  - simpl in Hput. inv_bind Hput. rename a into self1.
    apply Forall_cons in Hrs as [Hr Hrs].
    destruct (putRun_ids _ _ _ _ Hwf Hcap Hr Ha) as (Hwf1 & Hc1 & Hids1).
    destruct (IH self1 self' Hwf1 ltac:(lia) Hrs Hput) as (Hwf' & Hids').
    split; [done|]. intros b old Hb Hold.
    destruct (Hids1 b old Hb Hold) as (mid & Hmid & Hp1).
    destruct (Hids' b mid Hb Hmid) as (new & Hnew & Hp2).
    exists new. split; [done|]. simpl. rewrite filter_app, fmap_app.
    rewrite Hp2, Hp1. by rewrite app_assoc.
Qed.

Lemma storedIds_returns self b :
  WF self → key_ok b → ∃ ids, storedIds self b = Ok ids.
Proof.
  intros (_ & (_ & Hst & _) & _) Hb. unfold storedIds, stored.
  destruct (table self !! b) as [bunch|]; [by eexists|].
  destruct (getCoordsPacked_returns b [] self Hb Hst) as [nodes ->].
  by eexists.
Qed.

(** X9. [PutCoords] loses no identifier, however many bunches the input
    spans: on a well-formed state with room for one bunch at least, for
    a non-empty input whose bunch ids have storage keys, the call
    returns, and what the cache presents for a bunch afterwards
    (resident, or written to the store by an eviction on the way) is,
    up to order, what it presented before together with the identifiers
    of the input that belong to the bunch. So every identifier of the
    input and every identifier presented before is presented
    afterwards, and, the bunches being sorted, [GetCoord] finds a record
    with that identifier for each record of the input. *)
Theorem X9_PutCoords_keeps_every_identifier (self : DeltaCoordsCache)
    (nodes : list Node) :
  WF self → 1 ≤ capacity self → nodes ≠ [] →
  Forall (λ nd, key_range (getBunchId (Id nd))) nodes →
  ∃ self',
    PutCoords nodes self = Ok self'
    ∧ WF self'
    ∧ (∀ b old, is_int64 b → storedIds self b = Ok old →
         ∃ new, storedIds self' b = Ok new
                ∧ new ≡ₚ old ++ (Id <$> filter (λ nd, getBunchId (Id nd) = b)
                                          nodes))
    ∧ (∀ nd, nd ∈ nodes → holds self' (Id nd))
    ∧ (∀ id, is_int64 id → holds self id → holds self' id)
    ∧ (bunches_sorted self →
       ∀ nd, nd ∈ nodes →
         ∃ self'' found, GetCoord (Id nd) self' = Ok (self'', (found, true))
                         ∧ Id found = Id nd).
Proof.
  intros Hwf Hcap Hne Hkeys.
  assert (Forall (λ nd, is_int64 (Id nd)) nodes) as Hint
    by (eapply Forall_impl; [exact Hkeys|]; intros nd; apply id_ok_int64).
  pose proof (runs_ok nodes Hint) as Hruns.
  assert (Forall (λ r, key_ok r.1 ∧ run_ok r) (runs nodes)) as Hruns'
    by (apply runs_key_ok; [done|]; by rewrite runs_concat).
  destruct (putRuns_returns _ self Hwf Hruns') as [self' Hput].
  destruct (putRuns_ids _ _ _ Hwf Hcap Hruns Hput) as (Hwf' & Hids).
  rewrite runs_concat in Hids.
  assert (∀ nd, nd ∈ nodes → holds self' (Id nd)) as Hheld.
  { intros nd Hnd. rewrite Forall_forall in Hkeys.
    pose proof (key_range_key_ok _ (Hkeys nd Hnd)) as Hk.
    destruct (storedIds_returns self _ Hwf Hk) as [old Hold].
    destruct (Hids _ old (proj1 Hk) Hold) as (new & Hnew & Hp).
    exists new. split; [done|]. rewrite Hp. apply elem_of_app. right.
    apply list_elem_of_fmap. exists nd. split; [done|].
    by apply list_elem_of_filter. }
  exists self'. split.
  { destruct nodes as [|n0 rest]; [done|]. by rewrite PutCoords_runs. }
  split; [done|]. split; [done|]. split; [done|]. split.
  - intros id Hid (old & Hold & Hin).
    destruct (Hids _ old (getBunchId_int64 _ Hid) Hold) as (new & Hnew & Hp).
    exists new. split; [done|]. rewrite Hp. apply elem_of_app. by left.
  - intros Hs nd Hnd.
    destruct (putRuns_inv _ _ _ Hwf Hs Hruns Hput) as (_ & Hs' & _).
    rewrite Forall_forall in Hkeys.
    destruct (GetCoord_holds (Id nd) self' Hwf' Hs' (Hkeys nd Hnd))
      as (self'' & found & ok & HG & _ & _ & _ & Hok).
    assert (ok = true) as -> by (by apply Hok, Hheld).
    exists self'', found. split; [done|]. by eapply GetCoord_found_Id.
Qed.

Lemma X9_PutCoords_keeps_every_identifier_witness :
  ∃ self' self'' found,
    PutCoords [mkNode 1 10 20; mkNode 65 11 21; mkNode 130 12 22]
      (emptyCache ∅ 1) = Ok self'
    ∧ table self' !! 0 = None
    ∧ GetCoord 1 self' = Ok (self'', (found, true)) ∧ Id found = 1.
Proof.
  destruct (emptyCache_inv 1 [] ltac:(lia)) as (Hw & Hs & _).
  destruct (X9_PutCoords_keeps_every_identifier (emptyCache ∅ 1)
              [mkNode 1 10 20; mkNode 65 11 21; mkNode 130 12 22] Hw)
    as (self' & HP & _ & _ & _ & _ & HG).
  { simpl. lia. }
  { discriminate. }
  { repeat (apply Forall_cons; split;
            [vm_compute; split; (discriminate || reflexivity)|]).
    constructor. }
  destruct (HG Hs (mkNode 1 10 20)) as (self'' & found & HG1 & Hid).
  { apply list_elem_of_here. }
  exists self', self'', found. split; [exact HP|]. split; [|by split].
  vm_compute in HP. injection HP as <-. reflexivity.
Defined.

(** ** [Close] and reopening *)

Lemma getCoordsPacked_db b buf p p' :
  db (cache p) = db (cache p') → getCoordsPacked b buf p = getCoordsPacked b [] p'.
Proof. unfold getCoordsPacked, unpackNodes. by intros ->. Qed.

Lemma flushAll_store_ok entries :
  ∀ c c', flushAll entries c = Ok c' → store_ok c → store_ok c'.
Proof.
  induction entries as [|[e bu] entries IH]; intros c c' H Hok.
  - by injection H as <-.
  - simpl in H. inv_bind H. eapply IH; [exact H|]. by eapply flush_store_ok.
Qed.

(** What the store holds after flushing the bunches [entries]: nothing
    changes for the other bunch ids, and every bunch flushed is stored
    with the identifiers it holds. *)
Lemma flushAll_stored entries :
  ∀ c c' p p',
    NoDup entries.*1 →
    (∀ e bu, (e, bu) ∈ entries →
       key_ok e ∧ (needsWrite bu = true → coords bu ≠ [])
       ∧ Forall (λ nd, is_int64 (Id nd)) (coords bu)) →
    flushAll entries c = Ok c' → cache p = c → cache p' = c' →
    (∀ b, is_int64 b → b ∉ entries.*1 →
          getCoordsPacked b [] p' = getCoordsPacked b [] p)
    ∧ (∀ e bu, (e, bu) ∈ entries →
         (needsWrite bu = false → getCoordsPacked e [] p = Ok (coords bu)) →
         rmap (fmap Id) (getCoordsPacked e [] p') = Ok (Id <$> coords bu)).
Proof.
  induction entries as [|[e0 bu0] entries IH]; intros c c' p p' Hnd Hent H Hp Hp'.
  - injection H as <-. split.
    + intros b _ _. apply getCoordsPacked_cache. congruence.
    + intros e bu Hin. by apply elem_of_nil in Hin.
  - simpl in H. inv_bind H. rename a into c1.
    simpl in Hnd. apply NoDup_cons in Hnd as [Hnot Hnd].
    destruct (Hent e0 bu0 ltac:(apply list_elem_of_here)) as (Hk0 & Hd0 & Hi0).
    destruct (IH c1 c' (set_cache c1 p) p' Hnd) as [IH1 IH2]; [|done|done|done|].
    { intros e bu Hin. apply Hent. by apply list_elem_of_further. }
    split.
    + intros b Hb Hnin. simpl in Hnin. apply not_elem_of_cons in Hnin as [Hne Hnin].
      rewrite (IH1 b Hb Hnin).
      by apply (flush_other e0 bu0 c c1 b Ha Hk0 Hb Hne).
    + intros e bu Hin Hclean. apply elem_of_cons in Hin as [Heq|Hin].
      * injection Heq as -> ->.
        rewrite (IH1 e0 (proj1 Hk0) Hnot).
        by apply (flush_same e0 bu0 c c1 Ha Hd0 Hi0 p).
      * apply IH2; [done|]. intros Hcl.
        assert (e ≠ e0) as Hne.
        { intros ->. apply Hnot. apply list_elem_of_fmap. by exists (e0, bu). }
        destruct (Hent e bu ltac:(by apply list_elem_of_further)) as (Hk & _).
        rewrite <- (Hclean Hcl).
        by apply (flush_other e0 bu0 c c1 e Ha Hk0 (proj1 Hk) Hne).
Qed.

Lemma Close_stored self self' :
  WF self → Close self = Ok self' →
  store_ok (cache self')
  ∧ ∀ b, is_int64 b →
         rmap (fmap Id) (getCoordsPacked b [] self') = storedIds self b.
Proof.
  intros (_ & (Hk & Hst & Hd & Hcl & Hint) & _) H. unfold Close in H.
  rewrite Close_loop_flushAll in H. inv_bind H. inv_bind Ha. rename a0 into c'.
  injection Ha as <-. injection H as <-. simpl.
  assert (∀ e bu, (e, bu) ∈ map_to_list (table self) ↔ table self !! e = Some bu)
    as Hent by (intros e bu; apply elem_of_map_to_list).
  rename Ha0 into Hfl. split.
  { intros key dc Hdb. apply (flushAll_store_ok _ _ _ Hfl Hst key dc Hdb). }
  destruct (flushAll_stored (map_to_list (table self)) (cache self) c' self
              (set_cache c' self) (NoDup_fst_map_to_list _)) as [H1 H2];
    [|done|done|done|].
  { intros e bu Hin%Hent. split; [by eapply Hk|]. split; [by eapply Hd|].
    by eapply Hint. }
  intros b Hb. unfold storedIds, stored.
  rewrite (getCoordsPacked_db b [] (set_cache (Cache_Close c') (set_cache c' self))
             (set_cache c' self)) by done.
  destruct (table self !! b) as [bunch|] eqn:Hlook.
  - apply H2; [by apply Hent|]. intros Hc. by eapply Hcl.
  - rewrite H1; [done|done|].
    intros ((e & bu) & -> & Hin%Hent)%list_elem_of_fmap. simpl in *. congruence.
Qed.

Lemma Close_returns self :
  keys_ok self →
  ∃ self', Close self = Ok self' ∧ table self' = table self
           ∧ lruList self' = lruList self ∧ opened (cache self') = false.
Proof.
  intros Hk. unfold Close. rewrite Close_loop_flushAll.
  destruct (flushAll_returns (map_to_list (table self)) (cache self)) as [c' ->].
  { apply Forall_forall. intros e ((e' & bu) & -> & Hin)%list_elem_of_fmap.
    apply elem_of_map_to_list in Hin. by eapply Hk. }
  simpl. by eexists.
Qed.

Lemma demo_inv : WF demo ∧ bunches_sorted demo.
Proof.
  destruct (emptyCache_inv 8192 [] ltac:(lia)) as (Hw & Hs & _).
  assert (putRuns (runs [mkNode 1 10 20; mkNode 65 11 21; mkNode 130 12 22]) fresh
          = Ok demo) as Hput by (rewrite <- PutCoords_runs; reflexivity).
  assert (Forall run_ok
            (runs [mkNode 1 10 20; mkNode 65 11 21; mkNode 130 12 22])) as Hruns.
  { apply runs_ok.
    repeat (apply Forall_cons; split;
            [vm_compute; split; (discriminate || reflexivity)|]).
    constructor. }
  by destruct (putRuns_inv _ fresh demo Hw Hs Hruns Hput) as (? & ? & _).
Qed.

(** X10. [Close] on a well-formed state returns, closes the store and
    leaves the table and the recency list as they are. What it leaves
    in the store is what the cache presented: a cache opened afresh by
    [NewDeltaCoordsCache] over that store is well-formed and presents,
    for every bunch, the identifiers the closed cache presented, so
    that, the bunches being sorted, its [GetCoord] finds an identifier
    exactly when the closed cache held it. *)
Theorem X10_Close_then_reopen (self : DeltaCoordsCache) :
  WF self →
  ∃ self',
    Close self = Ok self'
    ∧ opened (cache self') = false
    ∧ table self' = table self ∧ lruList self' = lruList self
    ∧ WF (NewDeltaCoordsCache (db (cache self')))
    ∧ (∀ b, is_int64 b →
         storedIds (NewDeltaCoordsCache (db (cache self'))) b = storedIds self b)
    ∧ (bunches_sorted self →
       bunches_sorted (NewDeltaCoordsCache (db (cache self')))
       ∧ ∀ id, key_range (getBunchId id) →
           ∃ r nd ok,
             GetCoord id (NewDeltaCoordsCache (db (cache self')))
             = Ok (r, (nd, ok))
             ∧ (ok = true ↔ holds self id)).
Proof.
  intros Hwf. pose proof Hwf as (_ & (Hk & _) & _).
  destruct (Close_returns self Hk) as (self' & HC & Ht & Hl & Ho).
  destruct (Close_stored self self' Hwf HC) as [Hst Hids].
  exists self'. split; [done|]. split; [done|]. split; [done|]. split; [done|].
  assert (WF (NewDeltaCoordsCache (db (cache self')))) as Hwf'.
  { apply (WF_emptyCache (db (cache self')) 8192); [exact Hst|lia]. }
  assert (∀ b, is_int64 b →
            storedIds (NewDeltaCoordsCache (db (cache self'))) b
            = storedIds self b) as Hsame.
  { intros b Hb. rewrite <- (Hids b Hb). unfold storedIds at 1, stored. simpl.
    rewrite lookup_empty. f_equal; by apply getCoordsPacked_db. }
  split; [done|]. split; [done|]. intros Hs.
  assert (bunches_sorted (NewDeltaCoordsCache (db (cache self')))) as Hs'.
  { intros b ids Hb Hsto. rewrite (Hsame b Hb) in Hsto. by eapply Hs. }
  split; [done|]. intros id Hid.
  destruct (GetCoord_holds id _ Hwf' Hs' Hid)
    as (r & nd & ok & HG & _ & _ & _ & Hok).
  exists r, nd, ok. split; [done|]. rewrite Hok.
  apply holds_storedIds; [|done].
  unfold key_range, is_int64 in *. lia.
Qed.

Lemma X10_Close_then_reopen_witness :
  ∃ self' r nd,
    Close demo = Ok self'
    ∧ GetCoord 65 (NewDeltaCoordsCache (db (cache self'))) = Ok (r, (nd, true)).
Proof.
  destruct demo_inv as [Hw Hs].
  destruct (X10_Close_then_reopen demo Hw) as (self' & HC & _ & _ & _ & _ & _ & HG).
  destruct (HG Hs) as [_ HG']. destruct (HG' 65) as (r & nd & ok & HG1 & Hok).
  { vm_compute; split; (discriminate || reflexivity). }
  assert (ok = true) as ->.
  { apply Hok. exists [65]. split; [reflexivity|]. apply list_elem_of_here. }
  by exists self', r, nd.
Defined.

(** ** [FillWay] up to the first miss *)

(** The loop of [FillWay] along references that are found: the records
    found take their places, and the loop goes on with the rest. *)
Lemma FillWay_loop_prefix self pre nds self1 :
  resolves self pre nds self1 →
  ∀ (refs : list Z) (i : nat) (filled rest : list Node),
    length filled = i → (length pre ≤ length rest)%nat →
    FillWay_loop (pre ++ refs) i (filled ++ rest) self
    = FillWay_loop refs (i + length pre)
        ((filled ++ nds) ++ drop (length pre) rest) self1.
Proof.
  induction 1 as [self|self id pre nd self1 nds self2 Hget _ IH];
    intros refs i filled rest Hi Hrest; simpl.
  - by rewrite Nat.add_0_r, app_nil_r.
  - destruct rest as [|p rest]; [simpl in Hrest; lia|]. rewrite Hget. simpl.
    subst i. rewrite <- (Nat.add_0_r (length filled)) at 2.
    rewrite insert_app_r. simpl.
    rewrite (cons_middle nd filled rest), app_assoc.
    rewrite IH by (rewrite ?length_app; simpl in *; lia).
    rewrite <- Nat.add_succ_comm. f_equal.
    by rewrite <- !app_assoc.
Qed.

(** X11. [FillWay] stops at the first reference that is not found. When
    the references before it are found, the call answers false in the
    state that the failing lookup leaves: the references after it are
    not looked up. The way it leaves behind keeps its references, and
    its nodes are the records found, in order, followed by zero nodes
    for the reference not found and for every reference after it. When
    instead the lookup after the references found panics, [FillWay]
    panics in the same way. *)
Theorem X11_FillWay_stops_at_first_miss (self self1 : DeltaCoordsCache)
    (w : Way) (pre post : list Z) (id : Z) (nds : list Node) :
  Refs w = pre ++ id :: post →
  resolves self pre nds self1 →
  (∀ self2 nd,
     GetCoord id self1 = Ok (self2, (nd, false)) →
     FillWay (Some w) self
     = Ok (self2,
           Some {| Refs := Refs w;
                   Nodes := nds ++ replicate (S (length post)) zeroNode |},
           false))
  ∧ (∀ p, GetCoord id self1 = Panic p → FillWay (Some w) self = Panic p).
Proof.
  intros Hrefs Hres.
  pose proof (resolves_length _ _ _ _ Hres) as Hlen.
  assert (FillWay_loop (Refs w) 0 (replicate (length (Refs w)) zeroNode) self
          = FillWay_loop (id :: post) (length pre)
              (nds ++ replicate (S (length post)) zeroNode) self1) as Hloop.
  { rewrite Hrefs.
    etrans.
    { apply (FillWay_loop_prefix _ _ _ _ Hres (id :: post) 0 []
               (replicate (length (pre ++ id :: post)) zeroNode) eq_refl).
      rewrite length_replicate, length_app. lia. }
    rewrite drop_replicate, length_app. cbn [length].
    replace (length pre + S (length post) - length pre)%nat
      with (S (length post)) by lia.
    reflexivity. }
  unfold FillWay. rewrite Hloop. split.
  - intros self2 nd Hget. pose proof (GetCoord_not_found_zero _ _ _ _ Hget) as ->.
    cbn [FillWay_loop]. rewrite Hget. simpl. do 4 f_equal.
    rewrite <- Hlen, <- (Nat.add_0_r (length nds)) at 1.
    by rewrite insert_app_r.
  - intros p Hget. cbn [FillWay_loop]. by rewrite Hget.
Qed.

Lemma X11_FillWay_stops_at_first_miss_witness :
  ∃ self2,
    FillWay (Some {| Refs := [65; 2; 1]; Nodes := [] |}) demo
    = Ok (self2,
          Some {| Refs := [65; 2; 1];
                  Nodes := [mkNode 65 11 21; zeroNode; zeroNode] |},
          false).
Proof.
  eexists.
  refine (proj1 (X11_FillWay_stops_at_first_miss demo _
                   {| Refs := [65; 2; 1]; Nodes := [] |} [65] [1] 2
                   [mkNode 65 11 21] eq_refl _) _ zeroNode _).
  - eapply resolves_cons; [reflexivity|]. apply resolves_nil.
  - reflexivity.
Defined.

(** ** The runs of [PutCoords] *)

Lemma getBunchId_mono (a b : Z) : a ≤ b → getBunchId a ≤ getBunchId b.
Proof. intros H. unfold getBunchId. apply Z.quot_le_mono; lia. Qed.

Lemma runs_from_adjacent cur acc rest :
  ∃ tl, (runs_from cur acc rest).*1 = cur :: tl
        ∧ Sorted (λ a b : Z, a ≠ b) (cur :: tl).
Proof.
  revert cur acc. induction rest as [|nd rest IH]; intros cur acc;
    cbn [runs_from].
  - exists []. split; [done|]. by repeat constructor.
  - case_decide as Hne.
    + destruct (IH (getBunchId (Id nd)) [nd]) as (tl & Heq & Hs).
      rewrite fmap_cons, Heq.
      eexists. split; [done|]. constructor; [done|]. constructor.
      simpl. congruence.
    + apply IH.
Qed.

Lemma runs_from_ascending cur acc rest :
  Forall (λ nd, cur ≤ getBunchId (Id nd)) rest →
  sortedIds (Id <$> rest) →
  ∃ tl, (runs_from cur acc rest).*1 = cur :: tl ∧ Sorted Z.lt (cur :: tl).
Proof.
  revert cur acc. induction rest as [|nd rest IH]; intros cur acc Hle Hs;
    cbn [runs_from].
  - exists []. split; [done|]. by repeat constructor.
  - apply Forall_cons in Hle as [Hnd Hle].
    rewrite fmap_cons in Hs. apply StronglySorted_inv in Hs as [Hs Hall].
    case_decide as Hne.
    + destruct (IH (getBunchId (Id nd)) [nd]) as (tl & Heq & Hs'); [|done|].
      { apply Forall_forall. intros x Hx. apply getBunchId_mono.
        rewrite Forall_forall in Hall. apply Hall.
        apply list_elem_of_fmap. by exists x. }
      rewrite fmap_cons, Heq.
      eexists. split; [done|]. constructor; [done|]. constructor.
      simpl. lia.
    + by apply IH.
Qed.

(** X12. [PutCoords] on a non-empty input is the chain of its runs, one
    acquisition of a bunch for each run. The runs are the input cut
    where the bunch id changes: put together they give the input back,
    none is empty, each is made of records of its bunch, and
    neighbouring runs belong to different bunches. When the identifiers
    of the input ascend, as the source asks for, the bunch ids of the
    runs strictly ascend, so that every bunch is acquired once. *)
Theorem X12_PutCoords_cuts_input_into_runs (nodes : list Node) :
  nodes ≠ [] →
  (∀ self, PutCoords nodes self = putRuns (runs nodes) self)
  ∧ concat (runs nodes).*2 = nodes
  ∧ runs nodes ≠ []
  ∧ Forall (λ r, r.2 ≠ [] ∧ Forall (λ nd, getBunchId (Id nd) = r.1) r.2)
      (runs nodes)
  ∧ Sorted (λ a b : Z, a ≠ b) (runs nodes).*1
  ∧ (sortedIds (Id <$> nodes) →
     StronglySorted Z.lt (runs nodes).*1 ∧ NoDup (runs nodes).*1).
Proof.
  intros Hne. destruct nodes as [|n0 rest]; [done|]. clear Hne.
  split; [intros self; apply PutCoords_runs|].
  split; [apply runs_concat|].
  destruct (runs_from_adjacent (getBunchId (Id n0)) [n0] rest) as (tl & Hfst & Hadj).
  split. { unfold runs. intros Heq. by rewrite Heq in Hfst. }
  split.
  { apply Forall_forall. intros r Hr. split.
    - pose proof (runs_from_nonempty (getBunchId (Id n0)) [n0] rest
                    ltac:(discriminate)) as H.
      rewrite Forall_forall in H. by apply H.
    - pose proof (runs_from_bunch (getBunchId (Id n0)) [n0] rest
                    ltac:(by repeat constructor)) as H.
      rewrite Forall_forall in H. by apply H. }
  split. { unfold runs. by rewrite Hfst. }
  intros Hs. rewrite fmap_cons in Hs. apply StronglySorted_inv in Hs as [Hs Hall].
  destruct (runs_from_ascending (getBunchId (Id n0)) [n0] rest) as (tl' & Hfst' & Hasc);
    [|done|].
  { apply Forall_forall. intros x Hx. apply getBunchId_mono.
    rewrite Forall_forall in Hall. apply Hall.
    apply list_elem_of_fmap. by exists x. }
  unfold runs. rewrite Hfst'.
  assert (StronglySorted Z.lt (getBunchId (Id n0) :: tl')) as Hss.
  { apply Sorted_StronglySorted; [|done]. intros x y z. lia. }
  split; [done|]. clear -Hss.
  induction Hss as [|x l _ IH Hall]; [constructor|].
  constructor; [|done]. intros Hin. rewrite Forall_forall in Hall.
  specialize (Hall x Hin). lia.
Qed.

Lemma X12_PutCoords_cuts_input_into_runs_witness :
  runs [mkNode 1 10 20; mkNode 2 12 22; mkNode 65 11 21]
  = [(0, [mkNode 1 10 20; mkNode 2 12 22]); (1, [mkNode 65 11 21])]
  ∧ NoDup (runs [mkNode 1 10 20; mkNode 2 12 22; mkNode 65 11 21]).*1.
Proof.
  split; [reflexivity|].
  apply (X12_PutCoords_cuts_input_into_runs
           [mkNode 1 10 20; mkNode 2 12 22; mkNode 65 11 21]); [discriminate|].
  simpl. repeat (constructor; [repeat constructor; lia|]). constructor.
Defined.

(** ** A cache without room *)

Lemma CheckCapacity_loop_negative back :
  ∀ self, capacity self < 0 → ∃ p, CheckCapacity_loop back self = Panic p.
Proof.
  induction back as [|b back IH]; intros self Hc; simpl;
    destruct (Z.ltb_spec (capacity self) (Z.of_nat (size (table self))));
    try lia; [by eexists|].
  rewrite CheckCapacity_body_eq.
  destruct (table self !! b) as [bunch|]; [|by eexists].
  destruct (flush b bunch (cache self)) as [c|p]; simpl; [|by eexists].
  by apply IH.
Qed.

(** A run put into a cache of capacity zero is dropped: the bunch is
    evicted by the [CheckCapacity] of its own acquisition, before the
    run is appended. *)
Lemma putRun_zero b run self self' :
  WF self → capacity self = 0 → run_ok (b, run) →
  putRun b run self = Ok self' →
  WF self' ∧ capacity self' = 0 ∧ lruList self' = []
  ∧ ∀ b', is_int64 b' → storedIds self' b' = storedIds self b'.
Proof.
  intros Hwf Hcap Hrun Hput.
  pose proof (run_ok_int64 _ _ Hrun) as Hint.
  destruct Hrun as (Hne & Hb & _). simpl in Hne, Hb.
  destruct (putRun_spec b run self self' Hwf Hb Hne Hint Hput)
    as (old0 & _ & Hwf' & Hc & Hlru & _ & Hother & Hsame & _).
  rewrite Hcap in Hlru. simpl in Hlru.
  split; [done|]. split; [lia|]. split; [done|]. intros b' Hb'.
  destruct (decide (b' = b)) as [->|Hneq]; [|by apply Hother].
  destruct Hsame as [[_ Heq]|(bunch' & Hb'' & _)]; [done|].
  destruct Hwf' as ([_ Hdom] & _).
  assert (b ∈ lruList self') as Hin by (apply Hdom; eauto).
  rewrite Hlru in Hin. by apply elem_of_nil in Hin.
Qed.

Lemma putRuns_zero rs :
  ∀ self self',
    WF self → capacity self = 0 → Forall run_ok rs →
    putRuns rs self = Ok self' →
    WF self'
    ∧ (rs ≠ [] → lruList self' = [])
    ∧ (∀ b, is_int64 b → storedIds self' b = storedIds self b).
Proof.
  induction rs as [|[b0 run] rs IH]; intros self self' Hwf Hcap Hrs Hput.
  - injection Hput as <-. done.
  - simpl in Hput. inv_bind Hput. rename a into self1.
    apply Forall_cons in Hrs as [Hr Hrs].
    destruct (putRun_zero _ _ _ _ Hwf Hcap Hr Ha) as (Hwf1 & Hc1 & Hl1 & Hids1).
    destruct (IH self1 self' Hwf1 Hc1 Hrs Hput) as (Hwf' & Hl' & Hids').
    split; [done|]. split.
    + intros _. destruct rs as [|r rs]; [|by apply Hl'].
      by injection Hput as <-.
    + intros b Hb. by rewrite Hids', Hids1.
Qed.

(** X13. A cache needs room for one bunch. With a negative capacity
    [CheckCapacity] never returns: it evicts until the recency list is
    empty and then dereferences its missing back element, so every
    [getBunch] panics. With capacity zero nothing panics, but the cache
    stores nothing: [PutCoords] on a well-formed state returns, leaves
    no bunch resident, and the cache presents for every bunch exactly
    the identifiers it presented before, so the input is lost. *)
Theorem X13_no_room_no_write (self : DeltaCoordsCache) :
  (capacity self < 0 →
   (∃ p, CheckCapacity self = Panic p) ∧ ∀ b, ∃ p, getBunch b self = Panic p)
  ∧ (WF self → capacity self = 0 →
     ∀ nodes, nodes ≠ [] →
       Forall (λ nd, key_range (getBunchId (Id nd))) nodes →
       ∃ self',
         PutCoords nodes self = Ok self'
         ∧ table self' = ∅ ∧ lruList self' = []
         ∧ (∀ b, is_int64 b → storedIds self' b = storedIds self b)
         ∧ (∀ id, is_int64 id → holds self' id ↔ holds self id)).
Proof.
  split.
  - intros Hc. split; [by apply CheckCapacity_loop_negative|]. intros b.
    rewrite getBunch_eq. destruct (table self !! b) as [bunch|].
    + match goal with |- context [CheckCapacity ?s] =>
        destruct (CheckCapacity_loop_negative (rev (lruList s)) s Hc) as [p Hp]
      end.
      unfold CheckCapacity. rewrite Hp. by eexists.
    + destruct (getCoordsPacked b [] self) as [nodes|p]; simpl; [|by eexists].
      match goal with |- context [CheckCapacity ?s] =>
        destruct (CheckCapacity_loop_negative (rev (lruList s)) s Hc) as [p Hp]
      end.
      unfold CheckCapacity. rewrite Hp. by eexists.
  - intros Hwf Hcap nodes Hne Hkeys.
    assert (Forall (λ nd, is_int64 (Id nd)) nodes) as Hint
      by (eapply Forall_impl; [exact Hkeys|]; intros nd; apply id_ok_int64).
    pose proof (runs_ok nodes Hint) as Hruns.
    assert (Forall (λ r, key_ok r.1 ∧ run_ok r) (runs nodes)) as Hruns'
      by (apply runs_key_ok; [done|]; by rewrite runs_concat).
    destruct (putRuns_returns _ self Hwf Hruns') as [self' Hput].
    destruct (putRuns_zero _ _ _ Hwf Hcap Hruns Hput)
      as (([_ Hdom] & _) & Hl & Hids).
    assert (lruList self' = []) as Hnil.
    { apply Hl. destruct nodes as [|n0 rest]; [done|]. intros Heq.
      pose proof (runs_concat (n0 :: rest)) as Hcat. by rewrite Heq in Hcat. }
    exists self'. split.
    { destruct nodes as [|n0 rest]; [done|]. by rewrite PutCoords_runs. }
    split.
    { apply map_empty. intros b. destruct (table self' !! b) eqn:Hb; [|done].
      assert (b ∈ lruList self') as Hin by (apply Hdom; eauto).
      rewrite Hnil in Hin. by apply elem_of_nil in Hin. }
    split; [done|]. split; [done|].
    intros id Hid. apply holds_storedIds; [|done]. by apply getBunchId_int64.
Qed.

Lemma X13_no_room_no_write_witness :
  (∃ p, getBunch 0 (emptyCache ∅ (-1)) = Panic p)
  ∧ (∃ self', PutCoords [mkNode 1 10 20] (emptyCache ∅ 0) = Ok self'
              ∧ table self' = ∅ ∧ ¬ holds self' 1).
Proof.
  split.
  - apply (X13_no_room_no_write (emptyCache ∅ (-1))). simpl. lia.
  - destruct (emptyCache_inv 0 [] ltac:(lia)) as (Hw & _).
    destruct (proj2 (X13_no_room_no_write (emptyCache ∅ 0)) Hw eq_refl
                [mkNode 1 10 20]) as (self' & HP & Ht & _ & _ & Hh).
    { discriminate. }
    { repeat (apply Forall_cons; split;
              [vm_compute; split; (discriminate || reflexivity)|]).
      constructor. }
    exists self'. split; [done|]. split; [done|].
    rewrite Hh by (vm_compute; split; (discriminate || reflexivity)).
    intros (ids & Hids & Hin). apply storedIds_empty in Hids. subst ids.
    by apply elem_of_nil in Hin.
Defined.

(** ** Which record [GetCoord] answers with *)




(** ** The SQL helpers: errors *)

Section sql_fail_fast.
Context {qb : QueryBuilder} (database : Database) (idxStmt : string).



Lemma fail_fast_QueryRow_Scan query :
  fail_fast database idxStmt (QueryRow_Scan database query).
Proof.
  intros tx. unfold QueryRow_Scan. simpl. eexists. split; [done|].
  destruct (scan_bool database tx query) as [e|b] eqn:Hr; simpl.
  - exists [], (EvQueryRow query false). split; [done|]. split; [constructor|].
    simpl. by rewrite app_nil_r.
  - by repeat constructor.
Qed.



Lemma fail_fast_tableExists schema table :
  fail_fast database idxStmt (checked (tableExists database schema table)).
Proof.
  intros tx.
  destruct (fail_fast_QueryRow_Scan (TableExistsSQL schema table) tx)
    as (evs & Htx & Hr).
  exists evs. unfold checked, tableExists.
  destruct (QueryRow_Scan database (TableExistsSQL schema table) tx)
    as [tx1 [e|b]]; done.
Qed.




End sql_fail_fast.


(** ** The SQL helpers: the statements sent *)







(** ** The SQL helpers: the cursor of the index query *)

Lemma cursor_app open a b : cursor open (a ++ b) = cursor (cursor open a) b.
Proof. apply fold_left_app. Qed.

Lemma quiet_app a : ∀ open b,
  quiet open (a ++ b) = quiet open a && quiet (cursor open a) b.
Proof.
  induction a as [|ev a IH]; intros open b; [done|]. simpl.
  by rewrite IH, andb_assoc.
Qed.

Lemma quiet_Exec pre : ∀ open q ok post,
  quiet open (pre ++ EvExec q ok :: post) = true → cursor open pre = false.
Proof.
  intros open q ok post. rewrite quiet_app. simpl.
  intros (_ & (Hopen & _)%andb_prop)%andb_prop.
  by destruct (cursor open pre).
Qed.

Lemma cursor_safe_ext {A : Type} (m m' : io A) :
  (∀ tx, m tx = m' tx) → cursor_safe m → cursor_safe m'.
Proof. intros Heq Hm tx. rewrite <- Heq. apply Hm. Qed.

Lemma cursor_safe_ret {A : Type} (a : A) : cursor_safe (io_ret a).
Proof. intros tx. exists []. simpl. by rewrite app_nil_r. Qed.

Lemma cursor_safe_bind {A B : Type} (m : io A) (f : A → io B) :
  cursor_safe m → (∀ a, cursor_safe (f a)) → cursor_safe (io_bind m f).
Proof.
  intros Hm Hf tx. unfold io_bind. destruct (Hm tx) as (evs1 & Htx1 & Hq1 & Hc1).
  destruct (m tx) as [tx1 [e|a]]; simpl in *.
  - by exists evs1.
  - destruct (Hf a tx1) as (evs2 & Htx2 & Hq2 & Hc2). subst tx1.
    assert (cursor false evs1 = false) as Hclosed.
    { destruct (cursor false evs1); [|done]. by destruct Hc1. }
    exists (evs1 ++ evs2). split; [by rewrite Htx2, app_assoc|].
    rewrite quiet_app, cursor_app, Hclosed, Hq1, Hq2. split; [done|].
    intros Hopen. destruct (Hc2 Hopen) as (Hok & pre & ->).
    split; [done|]. exists (evs1 ++ pre). by rewrite app_assoc.
Qed.

Lemma cursor_safe_QueryRow_Scan (database : Database) query :
  cursor_safe (QueryRow_Scan database query).
Proof. intros tx. unfold QueryRow_Scan. simpl. by eexists. Qed.

Lemma cursor_safe_Exec (database : Database) query :
  cursor_safe (wrap query (Exec database query)).
Proof.
  intros tx. unfold wrap, Exec.
  destruct (exec_stmt database tx query); simpl; by eexists.
Qed.

Lemma cursor_safe_tableExists {qb : QueryBuilder} (database : Database)
    schema table :
  cursor_safe (checked (tableExists database schema table)).
Proof.
  intros tx. unfold checked, tableExists, QueryRow_Scan.
  destruct (scan_bool database tx (TableExistsSQL schema table));
    simpl; by eexists.
Qed.

Lemma cursor_safe_dropIndexes {qb : QueryBuilder} (database : Database)
    schema table indexes :
  cursor_safe (dropIndexes database schema table indexes).
Proof.
  induction indexes as [|index indexes IH]; simpl; [apply cursor_safe_ret|].
  apply cursor_safe_bind; [apply cursor_safe_Exec|]. intros _.
  apply cursor_safe_bind; [apply cursor_safe_Exec|]. by intros _.
Qed.

(** Reading the rows, with the cursor open. *)
Lemma scanIndexes_cursor sqlStmt rows :
  ∀ indexes tx, ∃ evs,
    (scanIndexes sqlStmt rows indexes tx).1 = tx ++ evs
    ∧ quiet true evs = true
    ∧ (cursor true evs = true →
       is_ok (scanIndexes sqlStmt rows indexes tx).2 = false
       ∧ ∃ pre, evs = pre ++ [EvScan false]).
Proof.
  induction rows as [|[e|index] rows IH]; intros indexes tx; simpl.
  - by exists [EvEnd].
  - exists [EvScan false]. split; [done|]. split; [done|]. intros _.
    split; [done|]. by exists [].
  - destruct (IH (indexes ++ [index]) (tx ++ [EvScan true]))
      as (evs & Htx & Hq & Hc).
    exists (EvScan true :: evs). split; [by rewrite Htx, <- app_assoc|].
    split; [done|]. intros Hopen. destruct (Hc Hopen) as (Hok & pre & ->).
    split; [done|]. by exists (EvScan true :: pre).
Qed.

Lemma cursor_safe_Query_scan (database : Database) sqlStmt :
  cursor_safe (io_bind (wrap sqlStmt (Query database sqlStmt))
                 (λ rows, scanIndexes sqlStmt rows [])).
Proof.
  intros tx. unfold io_bind, wrap, Query.
  destruct (query_rows database tx sqlStmt) as [e|rows]; simpl.
  - by exists [EvQuery sqlStmt false].
  - destruct (scanIndexes_cursor sqlStmt rows [] (tx ++ [EvQuery sqlStmt true]))
      as (evs & Htx & Hq & Hc).
    exists (EvQuery sqlStmt true :: evs). split; [by rewrite Htx, <- app_assoc|].
    split; [done|]. intros Hopen. destruct (Hc Hopen) as (Hok & pre & ->).
    split; [done|]. by exists (EvQuery sqlStmt true :: pre).
Qed.

Lemma io_bind_assoc {A B C : Type} (m : io A) (f : A → io B) (g : B → io C) tx :
  io_bind (io_bind m f) g tx = io_bind m (λ a, io_bind (f a) g) tx.
Proof. unfold io_bind. by destruct (m tx) as [tx1 [e|a]]. Qed.

Lemma scanIndexes_inl sqlStmt (found : list string) e rest :
  ∀ indexes tx,
    scanIndexes sqlStmt ((inr <$> found) ++ inl e :: rest) indexes tx
    = (tx ++ replicate (length found) (EvScan true) ++ [EvScan false],
       inl (SQLError sqlStmt e)).
Proof.
  induction found as [|index found IH]; intros indexes tx; simpl; [done|].
  by rewrite IH, <- app_assoc.
Qed.

(** X17. [dropTableIfExists] executes no statement while the cursor of
    its index query is open: whenever it calls [Exec], every cursor
    opened before has been read to its end. It leaves a cursor open
    only when it returns an error and its last call was the [Scan] of a
    row that failed. And it does leave the cursor open then: when the
    table exists, the index query is made and gives rows of which one
    cannot be scanned, the call returns the [SQLError] of the index
    query after that [Scan], without reading further rows and without
    closing the cursor. *)
Theorem X17_dropTableIfExists_cursor {qb : QueryBuilder}
    (database : Database) (schema table : string) (tx : Tx) :
  (∃ evs,
     (dropTableIfExists database schema table tx).1 = tx ++ evs
     ∧ (∀ pre q ok post,
          evs = pre ++ EvExec q ok :: post → cursor false pre = false)
     ∧ (cursor false evs = true →
        is_ok (dropTableIfExists database schema table tx).2 = false
        ∧ ∃ pre, evs = pre ++ [EvScan false]))
  ∧ (∀ (found : list string) e rest,
       scan_bool database tx (TableExistsSQL schema table) = inr true →
       GeometryIndexesSQL schema table ≠ EmptyString →
       query_rows database
         (tx ++ [EvQueryRow (TableExistsSQL schema table) true])
         (GeometryIndexesSQL schema table)
       = inr ((inr <$> found) ++ inl e :: rest) →
       let evs := [EvQueryRow (TableExistsSQL schema table) true;
                   EvQuery (GeometryIndexesSQL schema table) true]
                  ++ replicate (length found) (EvScan true) ++ [EvScan false] in
       dropTableIfExists database schema table tx
       = (tx ++ evs, inl (SQLError (GeometryIndexesSQL schema table) e))
       ∧ cursor false evs = true).
Proof.
  split.
  - assert (cursor_safe (dropTableIfExists database schema table)) as Hsafe.
    { unfold dropTableIfExists.
      apply cursor_safe_bind; [apply cursor_safe_tableExists|].
      intros [|]; simpl; [|apply cursor_safe_ret].
      apply cursor_safe_bind.
      { case_decide; [|apply cursor_safe_ret].
        eapply cursor_safe_ext; [intros tx0; apply io_bind_assoc|].
        apply cursor_safe_bind; [apply cursor_safe_Query_scan|].
        intros indexes. apply cursor_safe_dropIndexes. }
      intros _. apply cursor_safe_bind; [apply cursor_safe_QueryRow_Scan|].
      intros [|]; (apply cursor_safe_bind; [|intros _; apply cursor_safe_Exec]);
        [apply cursor_safe_Exec|apply cursor_safe_ret]. }
    destruct (Hsafe tx) as (evs & Htx & Hq & Hc).
    exists evs. split; [done|]. split; [|done].
    intros pre q ok post ->. by eapply quiet_Exec.
  - intros found e rest Hex Hne Hrows evs. split.
    + unfold dropTableIfExists, io_bind at 1, checked, tableExists, QueryRow_Scan.
      rewrite Hex. simpl. unfold io_bind at 1.
      destruct (decide (GeometryIndexesSQL schema table ≠ EmptyString)); [|done].
      unfold io_bind at 1, wrap, Query. rewrite Hrows. simpl.
      unfold io_bind at 1. rewrite scanIndexes_inl. subst evs.
      by rewrite <- !app_assoc.
    + subst evs. simpl. rewrite cursor_app.
      assert (∀ n, cursor true (replicate n (EvScan true)) = true) as Hrep
        by (induction n; [done|by simpl]).
      by rewrite Hrep.
Qed.

Lemma X17_dropTableIfExists_cursor_witness :
  dropTableIfExists (qb := demo_qb) demo_db_bad_row "public" "roads" []
  = ([EvQueryRow "EXISTS public.roads" true; EvQuery "INDEXES public.roads" true;
      EvScan true; EvScan false],
     inl (SQLError "INDEXES public.roads" (DriverError "bad row"))).
Proof.
  apply (proj2 (X17_dropTableIfExists_cursor (qb := demo_qb) demo_db_bad_row
                  "public" "roads" []) ["idx_a"] (DriverError "bad row") []);
    [reflexivity|discriminate|reflexivity].
Defined.

(** ** What comes back from the store *)

Lemma flush_dirty b bunch c c1 p1 :
  flush b bunch c = Ok c1 → needsWrite bunch = true → coords bunch ≠ [] →
  Forall (λ nd, is_int64 (Id nd)) (coords bunch) → cache p1 = c1 →
  getCoordsPacked b [] p1 = Ok (swapLL <$> coords bunch).
Proof.
  intros Hfl Hd Hne Hint <-. unfold flush in Hfl. rewrite Hd in Hfl.
  destruct (coords bunch) as [|nd nodes] eqn:Hc; [done|].
  inv_bind Hfl. injection Hfl as Hc1. unfold getCoordsPacked.
  rewrite Ha, <- Hc1. simpl bind. simpl db. rewrite lookup_insert_eq.
  by rewrite unpackNodes_packNodes.
Qed.

Lemma flushAll_dirty entries :
  ∀ c c' p',
    NoDup entries.*1 →
    (∀ e bu, (e, bu) ∈ entries →
       key_ok e ∧ (needsWrite bu = true → coords bu ≠ [])
       ∧ Forall (λ nd, is_int64 (Id nd)) (coords bu)) →
    flushAll entries c = Ok c' → cache p' = c' →
    ∀ e bu, (e, bu) ∈ entries → needsWrite bu = true →
            getCoordsPacked e [] p' = Ok (swapLL <$> coords bu).
Proof.
  induction entries as [|[e0 bu0] entries IH]; intros c c' p' Hnd Hent H Hp' e bu Hin Hd.
  - by apply elem_of_nil in Hin.
  - simpl in H. inv_bind H. rename a into c1.
    simpl in Hnd. apply NoDup_cons in Hnd as [Hnot Hnd].
    assert (∀ e bu, (e, bu) ∈ entries →
              key_ok e ∧ (needsWrite bu = true → coords bu ≠ [])
              ∧ Forall (λ nd, is_int64 (Id nd)) (coords bu)) as Hent'.
    { intros e1 bu1 Hin1. apply Hent. by apply list_elem_of_further. }
    apply elem_of_cons in Hin as [Heq|Hin].
    + injection Heq as -> ->.
      destruct (Hent e0 bu0 ltac:(apply list_elem_of_here)) as (Hk0 & Hd0 & Hi0).
      destruct (flushAll_stored entries c1 c' (set_cache c1 p') p' Hnd Hent' H
                  eq_refl Hp') as [Hsame _].
      rewrite (Hsame e0 (proj1 Hk0) Hnot).
      by apply (flush_dirty e0 bu0 c c1 _ Ha Hd (Hd0 Hd) Hi0).
    + by eapply IH.
Qed.

(** X18. A dirty bunch comes back from the store with longitude and
    latitude exchanged. After [Close] on a well-formed state, a cache
    opened afresh over the store presents, for a bunch that was
    resident and dirty, its records in the same order with the
    fixed-point longitude and latitude of each exchanged; and when the
    identifiers of the bunch are sorted and distinct, [GetCoord] in the
    reopened cache answers, for the identifier of a record of the
    bunch, with that record exchanged in this way. *)
Theorem X18_written_back_records_come_back_exchanged
    (self self' : DeltaCoordsCache) (b : Z) (bunch : CoordsBunch) :
  WF self → table self !! b = Some bunch → needsWrite bunch = true →
  Close self = Ok self' →
  stored (NewDeltaCoordsCache (db (cache self'))) b
  = Ok (swapLL <$> coords bunch)
  ∧ (sortedIds (Id <$> coords bunch) → NoDup (Id <$> coords bunch) →
     ∀ nd, nd ∈ coords bunch → getBunchId (Id nd) = b →
       ∃ r, GetCoord (Id nd) (NewDeltaCoordsCache (db (cache self')))
            = Ok (r, (swapLL nd, true))).
Proof.
  intros Hwf Hb Hd HC.
  pose proof Hwf as (_ & (Hk & Hst & Hdirty & Hcl & Hint) & _).
  destruct (Close_stored self self' Hwf HC) as [Hst' _].
  assert (getCoordsPacked b [] (NewDeltaCoordsCache (db (cache self')))
          = Ok (swapLL <$> coords bunch)) as Hget.
  { unfold Close in HC. rewrite Close_loop_flushAll in HC. inv_bind HC.
    inv_bind Ha. rename a0 into c'. injection Ha as <-. injection HC as <-.
    simpl.
    rewrite (getCoordsPacked_db b [] _ (set_cache c' self)) by done.
    apply (flushAll_dirty (map_to_list (table self)) (cache self) c' _
             (NoDup_fst_map_to_list _)) with (bu := bunch);
      [|done|done|by apply elem_of_map_to_list|done].
    intros e bu Hin%elem_of_map_to_list. split; [by eapply Hk|].
    split; [by eapply Hdirty|]. by eapply Hint. }
  split.
  { unfold stored. simpl. by rewrite lookup_empty. }
  intros Hs Hnd nd Hin Hbunch.
  assert (mgr_ok (NewDeltaCoordsCache (db (cache self')))) as Hm.
  { apply (mgr_ok_emptyCache (db (cache self')) 8192); [exact Hst'|lia]. }
  rewrite GetCoord_eq.
  replace (getBunchId (Id nd)) with b by done.
  rewrite getBunch_eq. simpl. rewrite lookup_empty, Hget. simpl.
  rewrite CheckCapacity_within.
  2:{ simpl. rewrite map_size_insert_None by apply lookup_empty.
      rewrite map_size_empty. lia. }
  simpl. eexists. do 2 f_equal.
  change (Id nd) with (Id (swapLL nd)).
  apply findCoord_unique.
  - by rewrite fmap_Id_swapLL.
  - by rewrite fmap_Id_swapLL.
  - apply list_elem_of_fmap. by exists nd.
Qed.

Lemma X18_written_back_records_come_back_exchanged_witness :
  ∃ self' r,
    Close demo = Ok self'
    ∧ GetCoord 65 (NewDeltaCoordsCache (db (cache self')))
      = Ok (r, (mkNode 65 21 11, true)).
Proof.
  destruct demo_inv as [Hw _].
  destruct (Close_returns demo demo_keys_ok) as (self' & HC & _).
  destruct (X18_written_back_records_come_back_exchanged demo self' 1
              {| bunch_id := 1; coords := [mkNode 65 11 21]; needsWrite := true |}
              Hw eq_refl eq_refl HC) as [_ HG].
  destruct (HG ltac:(repeat constructor)
               ltac:(apply (bool_decide_unpack _); reflexivity)
               (mkNode 65 11 21) ltac:(apply list_elem_of_here) eq_refl)
    as [r Hr].
  by exists self', r.
Defined.
